(** * Zotero → BibTeX action: the fetch-and-rewrite pipeline

    A shallow embedding of the two near-duplicate programs of the repository,
    the TypeScript action ([run] and its helpers) and the stand-alone script
    [fetch_library_bibtex_with_pinned.mjs], and the properties of their
    pagination loop, index construction, text assembly and regular-expression
    rewrite passes, and of the calls they make to the network, to the file
    system and to their log.

    JavaScript strings are sequences of UTF-16 code units; a code unit is a
    number [N].  The regular expressions of the source are kept as syntax
    trees and run by a backtracking matcher that follows the continuation
    semantics of ECMAScript (greedy quantifiers, ordered alternatives,
    left-to-right scanning of start positions). *)

From Stdlib Require Import NArith ZArith List Bool Lia String Ascii.
From Stdlib Require Import DecimalN.
From stdpp Require Import base option list gmap.
Import ListNotations.

Local Open Scope N_scope.
Local Open Scope list_scope.

(** ** Code units and strings *)

Abbreviation char := N (only parsing).
Abbreviation jsstring := (list N) (only parsing).

(** An ASCII literal as a sequence of code units. *)
Definition u (s : string) : jsstring :=
  List.map N_of_ascii (list_ascii_of_string s).

Definition LF : char := 10.
Definition CR : char := 13.

(** ECMAScript [LineTerminator]: LF, CR, LS, PS. *)
Definition is_line_terminator (c : char) : bool :=
  (c =? 10) || (c =? 13) || (c =? 8232) || (c =? 8233).

(** ECMAScript [\s] (and the set removed by [trim]): WhiteSpace and
    LineTerminator code units. *)
Definition is_space (c : char) : bool :=
  ((9 <=? c) && (c <=? 13)) || (c =? 32) || (c =? 160) || (c =? 5760)
  || ((8192 <=? c) && (c <=? 8202)) || (c =? 8232) || (c =? 8233)
  || (c =? 8239) || (c =? 8287) || (c =? 12288) || (c =? 65279).

Definition is_upper (c : char) : bool := (65 <=? c) && (c <=? 90).
Definition is_lower (c : char) : bool := (97 <=? c) && (c <=? 122).
Definition is_digit (c : char) : bool := (48 <=? c) && (c <=? 57).

(** ECMAScript [\w]: [A-Za-z0-9_]. *)
Definition is_word (c : char) : bool :=
  is_upper c || is_lower c || is_digit c || (c =? 95).

(** [Canonicalize] of a non-Unicode, ignore-case expression, on the code
    units that can be equal to an ASCII pattern character: an ASCII letter is
    folded to upper case; a non-ASCII code unit never folds onto an ASCII one
    (the standard forbids it), so it is left as it is. *)
Definition canonicalize (c : char) : char :=
  if is_lower c then c - 32 else c.

(** The other case of an ASCII letter. *)
Definition swap_case (c : char) : char :=
  if is_lower c then c - 32 else if is_upper c then c + 32 else c.

(** ** Regular expressions *)

Inductive cls_item : Type :=
| CChar (c : char)
| CRange (lo hi : char)
| CSpace           (* \s *)
| CWord.           (* \w *)

Inductive regex : Type :=
| Eps
| Chr (c : char)
| Cls (negated : bool) (items : list cls_item)
| Seq (r1 r2 : regex)
| Alt (r1 r2 : regex)
| Rep (min : nat) (r : regex)   (* r{min,}, greedy: r* is Rep 0, r+ is Rep 1 *)
| Opt (r : regex)               (* r?, greedy *)
| Grp (i : nat) (r : regex)     (* the i-th capturing group *)
| Bol                           (* ^ *)
| Eol                           (* $ *)
| WordB.                        (* \b *)

Record flags : Type := { ignoreCase : bool; multiline : bool }.

Definition item_mem (it : cls_item) (c : char) : bool :=
  match it with
  | CChar a => c =? a
  | CRange lo hi => (lo <=? c) && (c <=? hi)
  | CSpace => is_space c
  | CWord => is_word c
  end.

Definition class_mem (items : list cls_item) (c : char) : bool :=
  existsb (fun it => item_mem it c) items.

(** Membership in a bracket expression.  With [ignoreCase] a code unit is in
    the set when a member of the set has the same canonical form. *)
Definition cls_match (fl : flags) (negated : bool) (items : list cls_item)
    (c : char) : bool :=
  let found :=
    if ignoreCase fl then class_mem items c || class_mem items (swap_case c)
    else class_mem items c in
  xorb negated found.

Definition chr_match (fl : flags) (pat c : char) : bool :=
  if ignoreCase fl then canonicalize c =? canonicalize pat else c =? pat.

(** A literal string as a sequence of literal characters. *)
Fixpoint lit_of (l : jsstring) : regex :=
  match l with
  | [] => Eps
  | [c] => Chr c
  | c :: l' => Seq (Chr c) (lit_of l')
  end.

Definition lit (s : string) : regex := lit_of (u s).

(** ** The backtracking matcher *)

(** A match state: the text before the current position (latest code unit
    first), the text from the current position on, and the captures set so
    far (latest first). *)
Record mstate : Type := MState {
  before : jsstring;
  rest : jsstring;
  caps : list (nat * jsstring)
}.

Definition cont : Type := mstate -> option mstate.

Definition advance (c : char) (t : jsstring) (st : mstate) : mstate :=
  {| before := c :: before st; rest := t; caps := caps st |}.

Definition set_cap (i : nat) (s : jsstring) (st : mstate) : mstate :=
  {| before := before st; rest := rest st; caps := (i, s) :: caps st |}.

(** The text consumed between two states of one match attempt. *)
Definition consumed (st st' : mstate) : jsstring :=
  firstn (length (rest st) - length (rest st')) (rest st).

Definition same_pos (st st' : mstate) : bool :=
  Nat.eqb (length (rest st')) (length (rest st)).

Definition step_char (p : char -> bool) (st : mstate) (k : cont) : option mstate :=
  match rest st with
  | c :: t => if p c then k (advance c t st) else None
  | [] => None
  end.

Definition at_bol (fl : flags) (st : mstate) : bool :=
  match before st with
  | [] => true
  | c :: _ => multiline fl && is_line_terminator c
  end.

Definition at_eol (fl : flags) (st : mstate) : bool :=
  match rest st with
  | [] => true
  | c :: _ => multiline fl && is_line_terminator c
  end.

Definition at_word_boundary (st : mstate) : bool :=
  let a := match before st with c :: _ => is_word c | [] => false end in
  let b := match rest st with c :: _ => is_word c | [] => false end in
  xorb a b.

(** ECMAScript [RepeatMatcher] for [r{min,}]: [min] compulsory iterations,
    then greedy optional ones; an optional iteration that consumes nothing
    is rejected.  [fuel] bounds the number of iterations. *)
Definition rep_loop (step : mstate -> cont -> option mstate) (k : cont)
    : nat -> nat -> mstate -> option mstate :=
  fix go (fuel min : nat) (st : mstate) {struct fuel} : option mstate :=
    match fuel with
    | O => None
    | S fuel' =>
      match min with
      | S min' => step st (fun st' => go fuel' min' st')
      | O =>
        match step st (fun st' => if same_pos st st' then None else go fuel' O st') with
        | Some res => Some res
        | None => k st
        end
      end
    end.

Fixpoint mt (fl : flags) (r : regex) (st : mstate) (k : cont) {struct r}
    : option mstate :=
  match r with
  | Eps => k st
  | Chr c => step_char (chr_match fl c) st k
  | Cls negated items => step_char (cls_match fl negated items) st k
  | Seq r1 r2 => mt fl r1 st (fun st' => mt fl r2 st' k)
  | Alt r1 r2 =>
    match mt fl r1 st k with
    | Some res => Some res
    | None => mt fl r2 st k
    end
  | Rep min r' => rep_loop (mt fl r') k (S (min + length (rest st))) min st
  | Opt r' =>
    match mt fl r' st (fun st' => if same_pos st st' then None else k st') with
    | Some res => Some res
    | None => k st
    end
  | Grp i r' => mt fl r' st (fun st' => k (set_cap i (consumed st st') st'))
  | Bol => if at_bol fl st then k st else None
  | Eol => if at_eol fl st then k st else None
  | WordB => if at_word_boundary st then k st else None
  end.

(** One match attempt at the position [(bef, s)]. *)
Definition match_at (fl : flags) (r : regex) (bef s : jsstring) : option mstate :=
  mt fl r {| before := bef; rest := s; caps := [] |} Some.

(** The value of a capture; every group of the expressions below takes part
    in every match of its expression. *)
Fixpoint cap_lookup (i : nat) (cs : list (nat * jsstring)) : option jsstring :=
  match cs with
  | [] => None
  | (j, s) :: cs' => if Nat.eqb i j then Some s else cap_lookup i cs'
  end.

Definition cap (i : nat) (st : mstate) : jsstring :=
  match cap_lookup i (caps st) with Some s => s | None => [] end.

(** [String.prototype.match] with a non-global expression: the first start
    position, from the left, at which the expression matches. *)
Fixpoint match_first (fl : flags) (r : regex) (bef s : jsstring) : option mstate :=
  match match_at fl r bef s with
  | Some st => Some st
  | None =>
    match s with
    | [] => None
    | c :: t => match_first fl r (c :: bef) t
    end
  end.

(** [String.prototype.replace] with a global expression and a replacer
    [repl] that receives the state at the end of the match: scan from the
    left; at a match emit the replacement and go on after it (one code unit
    further when the match is empty); otherwise copy one code unit. *)
Fixpoint replace_loop (fl : flags) (r : regex) (repl : mstate -> jsstring)
    (fuel : nat) (bef s : jsstring) : jsstring :=
  match fuel with
  | O => s
  | S fuel' =>
    let skip :=
      match s with
      | [] => []
      | c :: t => c :: replace_loop fl r repl fuel' (c :: bef) t
      end in
    match match_at fl r bef s with
    | Some st =>
      if Nat.eqb (length (rest st)) (length s)
      then repl st ++ skip
      else repl st ++ replace_loop fl r repl fuel' (before st) (rest st)
    | None => skip
    end
  end.

Definition replace_from (fl : flags) (r : regex) (repl : mstate -> jsstring)
    (bef s : jsstring) : jsstring :=
  replace_loop fl r repl (S (length s)) bef s.

Definition replace_all (fl : flags) (r : regex) (repl : mstate -> jsstring)
    (s : jsstring) : jsstring :=
  replace_from fl r repl [] s.

Definition f_g : flags := {| ignoreCase := false; multiline := false |}.
Definition f_gi : flags := {| ignoreCase := true; multiline := false |}.
Definition f_mi : flags := {| ignoreCase := true; multiline := true |}.

(** ** Built-in functions of the language used by the programs *)

Fixpoint drop_while (p : char -> bool) (s : jsstring) : jsstring :=
  match s with
  | [] => []
  | c :: t => if p c then drop_while p t else s
  end.

Fixpoint take_while (p : char -> bool) (s : jsstring) : jsstring :=
  match s with
  | [] => []
  | c :: t => if p c then c :: take_while p t else []
  end.

(** [String.prototype.trim] *)
Definition trim (s : jsstring) : jsstring :=
  rev (drop_while is_space (rev (drop_while is_space s))).

(** [s.endsWith("\n")] *)
Definition ends_with_lf (s : jsstring) : bool :=
  match rev s with
  | c :: _ => c =? LF
  | [] => false
  end.

(** Truthiness of a string: the empty string is falsy. *)
Definition truthy (s : jsstring) : bool :=
  match s with [] => false | _ => true end.

(** [s.split(sep)] for a one-character separator: never empty. *)
Fixpoint split_on (sep : char) (s : jsstring) : list jsstring :=
  match s with
  | [] => [[]]
  | c :: t =>
    if c =? sep then [] :: split_on sep t
    else match split_on sep t with
         | seg :: segs => (c :: seg) :: segs
         | [] => [[c]]
         end
  end.

(** [a.pop()] as a value: the last element ([undefined], here the empty
    string, on an empty array). *)
Definition pop (l : list jsstring) : jsstring := List.last l [].

(** [a.slice(i, j)] *)
Definition slice {A : Type} (i j : nat) (l : list A) : list A :=
  firstn (j - i) (skipn i l).

(** Decimal rendering of a natural number ([`${n}`]). *)
Fixpoint digits_rev (fuel : nat) (n : N) : jsstring :=
  match fuel with
  | O => []
  | S fuel' =>
    if n <? 10 then [48 + n]
    else (48 + n mod 10) :: digits_rev fuel' (n / 10)
  end.

Definition number_to_string (n : nat) : jsstring :=
  rev (digits_rev (S n) (N.of_nat n)).

(** [parseInt(s, 10)]: leading white space is skipped, then an optional
    sign, then the longest run of decimal digits; [None] is [NaN].  The
    result is the integer that is read.  The number that the programs get is
    the number value of that integer, which is the integer itself up to
    2^53 and a rounding of it beyond; the programs compare it with the length
    of an array, where the two agree ([ge_number_value] below), and show it
    in a message, which is why that message is given by the text read. *)
Definition digits_value (ds : jsstring) : Z :=
  fold_left (fun acc c => (acc * 10 + Z.of_N (c - 48))%Z) ds 0%Z.

Definition parseInt (s : jsstring) : option Z :=
  let s1 := drop_while is_space s in
  let '(sign, s2) :=
    match s1 with
    | c :: t =>
      if c =? 45 then ((-1)%Z, t)
      else if c =? 43 then (1%Z, t)
      else (1%Z, s1)
    | [] => (1%Z, s1)
    end in
  match take_while is_digit s2 with
  | [] => None
  | ds => Some (sign * digits_value ds)%Z
  end.

(** [n >= total] on numbers: false when [total] is [NaN]. *)
Definition ge_number (n : nat) (total : option Z) : bool :=
  match total with
  | Some t => (t <=? Z.of_nat n)%Z
  | None => false
  end.

(** *** Property lookup on an object literal

    [typeMap] is an object literal, so [typeMap[k]] first looks among the
    properties of the literal and then along the prototype chain, that is in
    [Object.prototype]. *)

Inductive prop_value : Type :=
| PString (s : jsstring)      (* an own property of the literal *)
| PProtoFunction (name : jsstring)  (* a built-in function of Object.prototype *)
| PProtoObject.               (* Object.prototype itself, the value of __proto__ *)

Definition object_prototype_functions : list (jsstring * jsstring) :=
  [ (u "constructor", u "Object");
    (u "__defineGetter__", u "__defineGetter__");
    (u "__defineSetter__", u "__defineSetter__");
    (u "hasOwnProperty", u "hasOwnProperty");
    (u "__lookupGetter__", u "__lookupGetter__");
    (u "__lookupSetter__", u "__lookupSetter__");
    (u "isPrototypeOf", u "isPrototypeOf");
    (u "propertyIsEnumerable", u "propertyIsEnumerable");
    (u "toString", u "toString");
    (u "valueOf", u "valueOf");
    (u "toLocaleString", u "toLocaleString") ].

Definition jsstring_eqb (a b : jsstring) : bool :=
  bool_decide (a = b).

Fixpoint assoc (k : jsstring) (l : list (jsstring * jsstring)) : option jsstring :=
  match l with
  | [] => None
  | (k', v) :: l' => if jsstring_eqb k k' then Some v else assoc k l'
  end.

Definition object_get (own : list (jsstring * jsstring)) (k : jsstring)
    : option prop_value :=
  match assoc k own with
  | Some v => Some (PString v)
  | None =>
    match assoc k object_prototype_functions with
    | Some name => Some (PProtoFunction name)
    | None => if jsstring_eqb k (u "__proto__") then Some PProtoObject else None
    end
  end.

(** [v || d] where [d] is a string, rendered by a template literal: a
    non-empty string is itself, functions and objects are truthy and are
    rendered by their [toString] (of Node for a built-in function). *)
Definition or_string (v : option prop_value) (d : jsstring) : jsstring :=
  match v with
  | Some (PString s) => if truthy s then s else d
  | Some (PProtoFunction name) => u "function " ++ name ++ u "() { [native code] }"
  | Some PProtoObject => u "[object Object]"
  | None => d
  end.

(** ** Data of the programs *)

(** A JSON value where the programs test its type. *)
Inductive jsval : Type :=
| VUndefined
| VString (s : jsstring)
| VOther.          (* a number, a boolean, null, an object or an array *)

(** [CSLItem] *)
Record CSLItem : Type := {
  id : jsval;
  note : option jsstring;
  type : option jsstring
}.

(** The body of a JSON response, as far as [normalizeItems] looks at it. *)
Inductive json : Type :=
| JArray (items : list CSLItem)
| JObjectItems (items : list CSLItem)   (* an object whose [items] is an array *)
| JOther.

(** A response to a request of the collection: the status, the body and the
    [Total-Results] header. *)
Record response : Type := {
  ok : bool;
  body : json;
  total_results : option jsstring
}.

(** The outcome of a computation that awaits the network. *)
Inductive outcome (A : Type) : Type :=
| Done (a : A)
| HttpError          (* [throw new Error(`HTTP ...`)] *)
| OutOfFuel.
Arguments Done {A} a.
Arguments HttpError {A}.
Arguments OutOfFuel {A}.

Definition bind_outcome {A B : Type} (o : outcome A) (f : A -> outcome B) : outcome B :=
  match o with
  | Done a => f a
  | HttpError => HttpError
  | OutOfFuel => OutOfFuel
  end.

(** The three indexes built from the entries. *)
Record index : Type := {
  pinnedMap : gmap (list N) (list N);
  typeHints : gmap (list N) (list N);
  itemKeys : list (list N)
}.

Definition space_rx : regex := Cls false [CSpace].

Fixpoint seqs (l : list regex) : regex :=
  match l with
  | [] => Eps
  | [r] => r
  | r :: l' => Seq r (seqs l')
  end.

(** ** The TypeScript action (the action's [run] and its helpers) *)

Module Action.

(** [normalizeItems] *)
Definition normalizeItems (j : json) : list CSLItem :=
  match j with
  | JArray items => items
  | JObjectItems items => items
  | JOther => []
  end.

(** [/^\s*Citation Key:\s*([^\s#]+)\s*$/mi] *)
Definition pinned_rx : regex :=
  seqs [ Bol; Rep 0 space_rx; lit "Citation Key:"; Rep 0 space_rx;
         Grp 1 (Rep 1 (Cls true [CSpace; CChar 35]));
         Rep 0 space_rx; Eol ].

(** [pinnedFromNote]; [None] is [null]. *)
Definition pinnedFromNote (note : option jsstring) : option jsstring :=
  match note with
  | None => None
  | Some n =>
    if truthy n then
      match match_first f_mi pinned_rx [] n with
      | Some m => Some (cap 1 m)
      | None => None
      end
    else None
  end.

(** [/\b([A-Z]{2,})\b/g] *)
Definition acronym_rx : regex :=
  seqs [ WordB; Grp 1 (Rep 2 (Cls false [CRange 65 90])); WordB ].

(** [new RegExp(`(${field}\\s*=\\s*\\{)([^}]+)(\\})`, "gi")] *)
Definition field_rx (field : jsstring) : regex :=
  seqs [ Grp 1 (seqs [ lit_of field; Rep 0 space_rx; Chr 61; Rep 0 space_rx; Chr 123 ]);
         Grp 2 (Rep 1 (Cls true [CChar 125]));
         Grp 3 (Chr 125) ].

Definition protect_field (bib : jsstring) (field : jsstring) : jsstring :=
  replace_all f_gi (field_rx field)
    (fun m =>
       let protectedContent :=
         replace_all f_g acronym_rx
           (fun m' => u "{{" ++ cap 1 m' ++ u "}}") (cap 2 m) in
       cap 1 m ++ protectedContent ++ cap 3 m)
    bib.

Definition default_fields : list jsstring :=
  [ u "title"; u "booktitle"; u "series"; u "number" ].

(** [protectCapitalsInFields], with its default list of fields. *)
Definition protectCapitalsInFields (bib : jsstring) : jsstring :=
  fold_left protect_field default_fields bib.

(** The expression of [cleanTypeField], flags [gmi], group by group:
    group 1 is [^|\n]; group 2 is [\s*]; then [type\s*=\s*\{];
    group 3 is [(?:[^{}]|{[^{}]*})*]; then [\}]; group 4 is [\s*,?]. *)
Definition no_brace : regex := Cls true [CChar 123; CChar 125].

Definition type_rx : regex :=
  seqs [ Grp 1 (Alt Bol (Chr 10));
         Grp 2 (Rep 0 space_rx);
         lit "type"; Rep 0 space_rx; Chr 61; Rep 0 space_rx; Chr 123;
         Grp 3 (Rep 0 (Alt no_brace (seqs [ Chr 123; Rep 0 no_brace; Chr 125 ])));
         Chr 125;
         Grp 4 (Seq (Rep 0 space_rx) (Opt (Chr 44))) ].

(** [content.replace(/[{}]/g, "").replace(/\s+/g, " ").trim()] *)
Definition clean_content (content : jsstring) : jsstring :=
  trim
    (replace_all f_g (Rep 1 space_rx) (fun _ => u " ")
       (replace_all f_g (Cls false [CChar 123; CChar 125]) (fun _ => []) content)).

(** [cleanTypeField] *)
Definition cleanTypeField (bib : jsstring) : jsstring :=
  replace_all f_mi type_rx
    (fun m => cap 1 m ++ cap 2 m ++ u "type = {" ++ clean_content (cap 3 m)
              ++ u "}" ++ cap 4 m)
    bib.

(** [typeMap] *)
Definition typeMap : list (jsstring * jsstring) :=
  [ (u "article-journal", u "article");
    (u "article", u "article");
    (u "book", u "book");
    (u "chapter", u "incollection");
    (u "paper-conference", u "inproceedings");
    (u "thesis", u "thesis");
    (u "report", u "report");
    (u "webpage", u "online");
    (u "post", u "online");
    (u "post-weblog", u "online");
    (u "dataset", u "dataset");
    (u "manuscript", u "unpublished") ].

(** [fetchAllParentsCSL]: the loop, over a server that answers the request
    of the page that starts at [start].  The result is the entries and the
    list of the starts requested, in order. *)
Fixpoint fetch_loop (server : nat -> response) (fuel : nat) (start : nat)
    (all : list CSLItem) (log : list nat) : outcome (list CSLItem * list nat) :=
  match fuel with
  | O => OutOfFuel
  | S fuel' =>
    let res := server start in
    if negb (ok res) then HttpError
    else
      let page := normalizeItems (body res) in
      let header :=
        match total_results res with
        | Some h => if truthy h then h else number_to_string (length page)
        | None => number_to_string (length page)
        end in
      let total := parseInt header in
      let all := all ++ page in
      let log := log ++ [start] in
      if (length page <? 100)%nat || ge_number (length all) total
      then Done (all, log)
      else fetch_loop server fuel' (start + length page) all log
  end.

Definition fetchAllParentsCSL (server : nat -> response) (fuel : nat)
    : outcome (list CSLItem * list nat) :=
  fetch_loop server fuel 0 [] [].

(** The item key of an entry: [id.split("/").pop()]. *)
Definition item_key (it : CSLItem) : jsstring :=
  let id := match id it with VString s => s | _ => [] end in
  pop (split_on 47 id).

(** The body of the loop that builds the indexes. *)
Definition index_step (ix : index) (it : CSLItem) : index :=
  let key := item_key it in
  if negb (truthy key) then ix
  else
    let keys := itemKeys ix ++ [key] in
    let pins :=
      match pinnedFromNote (note it) with
      | Some pinned => if truthy pinned then <[key := pinned]> (pinnedMap ix) else pinnedMap ix
      | None => pinnedMap ix
      end in
    let hints :=
      match type it with
      | Some t => if truthy t then <[key := t]> (typeHints ix) else typeHints ix
      | None => typeHints ix
      end in
    {| pinnedMap := pins; typeHints := hints; itemKeys := keys |}.

Definition empty_index : index :=
  {| pinnedMap := ∅; typeHints := ∅; itemKeys := [] |}.

Definition build_index (cslItems : list CSLItem) : index :=
  fold_left index_step cslItems empty_index.

(** The body of the loop that assembles the bibliography text. *)
Definition append_part (bib part : jsstring) : jsstring :=
  if truthy part && truthy (trim part) then
    let bib := if truthy bib && negb (ends_with_lf bib) then bib ++ [LF] else bib in
    bib ++ trim part ++ [LF]
  else bib.

(** The loop over the chunks of 50 keys; [fetchBib] answers the request of
    one chunk, [None] on a status that is not a success. *)
Fixpoint bib_loop (fetchBib : list jsstring -> option jsstring)
    (keys : list jsstring) (fuel : nat) (i : nat) (bib : jsstring)
    : outcome jsstring :=
  match fuel with
  | O => if (i <? length keys)%nat then OutOfFuel else Done bib
  | S fuel' =>
    if (i <? length keys)%nat then
      let chunk := slice i (i + 50) keys in
      match fetchBib chunk with
      | None => HttpError
      | Some part => bib_loop fetchBib keys fuel' (i + 50) (append_part bib part)
      end
    else Done bib
  end.

(** [/(journal\s*=\s*\{)([^}]+)(\})/gi] *)
Definition journal_rx : regex :=
  seqs [ Grp 1 (seqs [ lit "journal"; Rep 0 space_rx; Chr 61; Rep 0 space_rx; Chr 123 ]);
         Grp 2 (Rep 1 (Cls true [CChar 125]));
         Grp 3 (Chr 125) ].

(** [/@(\w+)\{([^,]+),/g] *)
Definition header_rx : regex :=
  seqs [ Chr 64; Grp 1 (Rep 1 (Cls false [CWord])); Chr 123;
         Grp 2 (Rep 1 (Cls true [CChar 44])); Chr 44 ].

(** [x || ""] on the result of [Map.get]. *)
Definition or_empty (o : option jsstring) : jsstring :=
  match o with Some s => s | None => [] end.

(** [pinnedMap.get(k) || k] *)
Definition or_key (o : option jsstring) (k : jsstring) : jsstring :=
  match o with Some s => if truthy s then s else k | None => k end.

(** The replacer of the header pass. *)
Definition header_repl (ix : index) (m : mstate) : jsstring :=
  let type := cap 1 m in
  let k := cap 2 m in
  let newKey := or_key (pinnedMap ix !! k) k in
  let mapped := or_string (object_get typeMap (or_empty (typeHints ix !! k))) type in
  u "@" ++ mapped ++ u "{" ++ newKey ++ u ",".

Definition rewrite_headers (ix : index) (bib : jsstring) : jsstring :=
  replace_all f_g header_rx (header_repl ix) bib.

Definition rename_journal (bib : jsstring) : jsstring :=
  replace_all f_gi journal_rx (fun m => u "organization = {" ++ cap 2 m ++ u "}") bib.

(** The four passes, in the order of [run]. *)
Definition rewrite (ix : index) (bib : jsstring) : jsstring :=
  cleanTypeField (protectCapitalsInFields (rename_journal (rewrite_headers ix bib))).

(** [run], up to the text written to the output file. *)
Definition run (server : nat -> response) (fetchBib : list jsstring -> option jsstring)
    (fuel : nat) : outcome jsstring :=
  bind_outcome (fetchAllParentsCSL server fuel) (fun '(cslItems, _) =>
  let ix := build_index cslItems in
  bind_outcome (bib_loop fetchBib (itemKeys ix) (length (itemKeys ix)) 0 []) (fun bib =>
  Done (rewrite ix bib))).

End Action.

(** ** The stand-alone script ([fetch_library_bibtex_with_pinned.mjs]) *)

Module Script.

(** [normalizeItems] *)
Definition normalizeItems (j : json) : list CSLItem :=
  match j with
  | JArray items => items
  | JObjectItems items => items
  | JOther => []
  end.

(** [/^\s*Citation Key:\s*([^\s#]+)\s*$/mi] *)
Definition pinned_rx : regex :=
  seqs [ Bol; Rep 0 space_rx; lit "Citation Key:"; Rep 0 space_rx;
         Grp 1 (Rep 1 (Cls true [CSpace; CChar 35]));
         Rep 0 space_rx; Eol ].

(** [pinnedFromNote] *)
Definition pinnedFromNote (note : option jsstring) : option jsstring :=
  match note with
  | None => None
  | Some n =>
    if truthy n then
      match match_first f_mi pinned_rx [] n with
      | Some m => Some (cap 1 m)
      | None => None
      end
    else None
  end.

(** [/\b([A-Z]{2,})\b/g] *)
Definition acronym_rx : regex :=
  seqs [ WordB; Grp 1 (Rep 2 (Cls false [CRange 65 90])); WordB ].

(** [new RegExp(`(${field}\\s*=\\s*\\{)([^}]+)(\\})`, "gi")] *)
Definition field_rx (field : jsstring) : regex :=
  seqs [ Grp 1 (seqs [ lit_of field; Rep 0 space_rx; Chr 61; Rep 0 space_rx; Chr 123 ]);
         Grp 2 (Rep 1 (Cls true [CChar 125]));
         Grp 3 (Chr 125) ].

(** [protectCapitalsInFields], with its default list of fields. *)
Definition protectCapitalsInFields (bib : jsstring) : jsstring :=
  fold_left
    (fun bib field =>
       replace_all f_gi (field_rx field)
         (fun m =>
            cap 1 m
            ++ replace_all f_g acronym_rx (fun m' => u "{{" ++ cap 1 m' ++ u "}}") (cap 2 m)
            ++ cap 3 m)
         bib)
    [ u "title"; u "booktitle"; u "series"; u "number" ] bib.

(** The expression of [cleanTypeField], flags [gmi], group by group:
    group 1 is [^|\n]; group 2 is [\s*]; then [type\s*=\s*\{];
    group 3 is [(?:[^{}]|{[^{}]*})*]; then [\}]; group 4 is [\s*,?]. *)
Definition type_rx : regex :=
  seqs [ Grp 1 (Alt Bol (Chr 10));
         Grp 2 (Rep 0 space_rx);
         lit "type"; Rep 0 space_rx; Chr 61; Rep 0 space_rx; Chr 123;
         Grp 3 (Rep 0 (Alt (Cls true [CChar 123; CChar 125])
                           (seqs [ Chr 123; Rep 0 (Cls true [CChar 123; CChar 125]); Chr 125 ])));
         Chr 125;
         Grp 4 (Seq (Rep 0 space_rx) (Opt (Chr 44))) ].

(** [cleanTypeField] *)
Definition cleanTypeField (bib : jsstring) : jsstring :=
  replace_all f_mi type_rx
    (fun m =>
       let cleaned :=
         trim
           (replace_all f_g (Rep 1 space_rx) (fun _ => u " ")
              (replace_all f_g (Cls false [CChar 123; CChar 125]) (fun _ => [])
                 (cap 3 m))) in
       cap 1 m ++ cap 2 m ++ u "type = {" ++ cleaned ++ u "}" ++ cap 4 m)
    bib.

(** [typeMap] *)
Definition typeMap : list (jsstring * jsstring) :=
  [ (u "article-journal", u "article");
    (u "article", u "article");
    (u "book", u "book");
    (u "chapter", u "incollection");
    (u "paper-conference", u "inproceedings");
    (u "thesis", u "thesis");
    (u "report", u "report");
    (u "webpage", u "online");
    (u "post", u "online");
    (u "post-weblog", u "online");
    (u "dataset", u "dataset");
    (u "manuscript", u "unpublished") ].

(** [fetchAllParentsCSL] *)
Fixpoint fetch_loop (server : nat -> response) (fuel : nat) (start : nat)
    (all : list CSLItem) (log : list nat) : outcome (list CSLItem * list nat) :=
  match fuel with
  | O => OutOfFuel
  | S fuel' =>
    let res := server start in
    if negb (ok res) then HttpError
    else
      let page := normalizeItems (body res) in
      let header :=
        match total_results res with
        | Some h => if truthy h then h else number_to_string (length page)
        | None => number_to_string (length page)
        end in
      let total := parseInt header in
      let all := all ++ page in
      let log := log ++ [start] in
      if (length page <? 100)%nat || ge_number (length all) total
      then Done (all, log)
      else fetch_loop server fuel' (start + length page) all log
  end.

Definition fetchAllParentsCSL (server : nat -> response) (fuel : nat)
    : outcome (list CSLItem * list nat) :=
  fetch_loop server fuel 0 [] [].

(** The loop that builds [pinnedMap], [typeHints] and [itemKeys]. *)
Definition index_step (ix : index) (it : CSLItem) : index :=
  let id := match id it with VString s => s | _ => [] end in
  let key := pop (split_on 47 id) in
  if negb (truthy key) then ix
  else
    {| pinnedMap :=
         match pinnedFromNote (note it) with
         | Some pinned => if truthy pinned then <[key := pinned]> (pinnedMap ix) else pinnedMap ix
         | None => pinnedMap ix
         end;
       typeHints :=
         match type it with
         | Some t => if truthy t then <[key := t]> (typeHints ix) else typeHints ix
         | None => typeHints ix
         end;
       itemKeys := itemKeys ix ++ [key] |}.

Definition build_index (cslItems : list CSLItem) : index :=
  fold_left index_step cslItems
    {| pinnedMap := ∅; typeHints := ∅; itemKeys := [] |}.

(** The loop that fetches the chunks of 50 keys and assembles [bib]. *)
Fixpoint bib_loop (fetchBib : list jsstring -> option jsstring)
    (keys : list jsstring) (fuel : nat) (i : nat) (bib : jsstring)
    : outcome jsstring :=
  match fuel with
  | O => if (i <? length keys)%nat then OutOfFuel else Done bib
  | S fuel' =>
    if (i <? length keys)%nat then
      match fetchBib (slice i (i + 50) keys) with
      | None => HttpError
      | Some part =>
        bib_loop fetchBib keys fuel' (i + 50)
          (if truthy part && truthy (trim part) then
             (if truthy bib && negb (ends_with_lf bib) then bib ++ [LF] else bib)
             ++ trim part ++ [LF]
           else bib)
      end
    else Done bib
  end.

(** [typeMap[h]] where [h] is the result of [Map.get]: the property key of
    [undefined] is the string "undefined". *)
Definition property_key (o : option jsstring) : jsstring :=
  match o with Some s => s | None => u "undefined" end.

(** [/@(\w+)\{([^,]+),/g] and its replacer. *)
Definition rewrite_headers (ix : index) (bib : jsstring) : jsstring :=
  replace_all f_g
    (seqs [ Chr 64; Grp 1 (Rep 1 (Cls false [CWord])); Chr 123;
            Grp 2 (Rep 1 (Cls true [CChar 44])); Chr 44 ])
    (fun m =>
       let type := cap 1 m in
       let k := cap 2 m in
       let newKey :=
         match pinnedMap ix !! k with
         | Some s => if truthy s then s else k
         | None => k
         end in
       let mapped := or_string (object_get typeMap (property_key (typeHints ix !! k))) type in
       u "@" ++ mapped ++ u "{" ++ newKey ++ u ",")
    bib.

(** [/(journal\s*=\s*\{)([^}]+)(\})/gi] and its replacer. *)
Definition rename_journal (bib : jsstring) : jsstring :=
  replace_all f_gi
    (seqs [ Grp 1 (seqs [ lit "journal"; Rep 0 space_rx; Chr 61; Rep 0 space_rx; Chr 123 ]);
            Grp 2 (Rep 1 (Cls true [CChar 125]));
            Grp 3 (Chr 125) ])
    (fun m => u "organization = {" ++ cap 2 m ++ u "}")
    bib.

(** The passes of the script, in its order. *)
Definition rewrite (ix : index) (bib : jsstring) : jsstring :=
  let bib := rewrite_headers ix bib in
  let bib := rename_journal bib in
  let bib := protectCapitalsInFields bib in
  cleanTypeField bib.

End Script.

(** ** The two programs with their effects

    The helpers [fetchJSON], [fetchText] and [fetchBibForKeys], the reading
    of the configuration, the messages and the writing of the output file.
    A program is run against a platform that answers its calls; what it
    does is the list of the calls it makes, in order, and how it ends. *)

(** How a computation ends. *)
Inductive result (A : Type) : Type :=
| Ok (a : A)
| Throw (message : jsstring)   (* an exception; [message] is [error.message] *)
| Exit (code : nat)            (* [process.exit(code)] *)
| Diverge.                     (* a loop that has used up its fuel *)
Arguments Ok {A} a.
Arguments Throw {A} message.
Arguments Exit {A} code.
Arguments Diverge {A}.

(** Where a message goes. *)
Inductive channel : Type :=
| CoreInfo | CoreWarning | CoreSetFailed       (* [core.info], [core.warning], [core.setFailed] *)
| ConsoleLog | ConsoleWarn | ConsoleError.     (* [console.log], [console.warn], [console.error] *)

(** A message: a text, or the line
    [`Fetched ${n} items (start=${start}, total≈${total})`], given by the
    two sizes it renders and by the text in which [parseInt] reads [total].
    What the line shows for [total] is the number value of that reading,
    which is the integer read when it is below 2^53 and a rounding of it
    beyond. *)
Inductive message : Type :=
| Text (s : jsstring)
| Fetched (n start : nat) (total : jsstring).

(** The calls a program makes. *)
Inductive event : Type :=
| Fetch (url : jsstring) (headers : list (jsstring * jsstring))  (* [fetch(url, { headers })] *)
| Say (c : channel) (m : message)
| Mkdir (path : jsstring)                      (* [fs.mkdir(path, { recursive: true })] *)
| WriteFile (path data : jsstring).            (* [fs.writeFile(path, data, "utf8")] *)

(** The answer of the platform to a call that is awaited: a value, or an
    exception. *)
Inductive answer (A : Type) : Type :=
| Fulfilled (a : A)
| Rejected (message : jsstring).
Arguments Fulfilled {A} a.
Arguments Rejected {A} message.

(** The [Response] of [fetch], as far as the programs look at it. *)
Record Response : Type := {
  res_ok : bool;                               (* [res.ok] *)
  res_status : nat;                            (* [res.status] *)
  res_json : answer json;                      (* [await res.json()] *)
  res_text : answer jsstring;                  (* [await res.text()] *)
  res_headers : jsstring -> option jsstring    (* [res.headers.get(name)] *)
}.

(** The platform: the network and the file system.  A call is answered
    according to its arguments. *)
Record platform : Type := {
  fetch : jsstring -> list (jsstring * jsstring) -> answer Response;
  dirname : jsstring -> jsstring;              (* [path.dirname] *)
  mkdir : jsstring -> answer unit;
  writeFile : jsstring -> jsstring -> answer unit
}.

(** A computation: the calls made, then the end. *)
Definition io (A : Type) : Type := (list event * result A)%type.

Definition ret {A : Type} (a : A) : io A := ([], Ok a).

Definition bind {A B : Type} (m : io A) (f : A -> io B) : io B :=
  match m with
  | (tr, Ok a) => let '(tr', r) := f a in (tr ++ tr', r)
  | (tr, Throw e) => (tr, Throw e)
  | (tr, Exit c) => (tr, Exit c)
  | (tr, Diverge) => (tr, Diverge)
  end.

Declare Scope io_scope.
Delimit Scope io_scope with io.
Notation "x <- m ;; k" := (bind m (fun x => k))
  (at level 100, m at next level, right associativity) : io_scope.
Notation "m ;; k" := (bind m (fun _ => k))
  (at level 100, right associativity) : io_scope.

Definition emit (e : event) : io unit := ([e], Ok tt).
Definition await {A : Type} (r : answer A) : io A :=
  match r with
  | Fulfilled a => ([], Ok a)
  | Rejected e => ([], Throw e)
  end.
Definition throw {A : Type} (msg : jsstring) : io A := ([], Throw msg).

(** [try { m } catch (error) { h(error.message) }] *)
Definition catch (m : io unit) (h : jsstring -> io unit) : io unit :=
  match m with
  | (tr, Throw e) => let '(tr', r) := h e in (tr ++ tr', r)
  | _ => m
  end.

(** [s || d] on strings. *)
Definition or_text (s d : jsstring) : jsstring := if truthy s then s else d.

(** [a || b] on values that are a string or [undefined]. *)
Definition or_undefined (a b : option jsstring) : option jsstring :=
  match a with
  | Some s => if truthy s then a else b
  | None => b
  end.

(** [!a] on a value that is a string or [undefined]. *)
Definition not_value (a : option jsstring) : bool :=
  match a with
  | Some s => negb (truthy s)
  | None => true
  end.

(** [`${a}`] on a value that is a string or [undefined]. *)
Definition template (a : option jsstring) : jsstring :=
  match a with
  | Some s => s
  | None => u "undefined"
  end.

(** [keys.join(",")] *)
Fixpoint join (keys : list jsstring) : jsstring :=
  match keys with
  | [] => []
  | [k] => k
  | k :: ks => k ++ 44 :: join ks
  end.

(** The effects of the TypeScript action. *)
Module ActionIO.
Section Run.

Local Open Scope io_scope.

Variable p : platform.
(** [core.getInput(name, { required })] *)
Variable getInput : jsstring -> bool -> answer jsstring.

Definition fetchJSON (url API_KEY : jsstring)
    : io (json * (jsstring -> option jsstring)) :=
  let headers :=
    [ (u "Zotero-API-Version", u "3");
      (u "Authorization", u "Bearer " ++ API_KEY);
      (u "Accept", u "application/json") ] in
  emit (Fetch url headers) ;;
  res <- await (fetch p url headers) ;;
  if negb (res_ok res)
  then throw (u "HTTP " ++ number_to_string (res_status res) ++ u " for " ++ url)
  else
    body <- await (res_json res) ;;
    ret (body, res_headers res).

Definition fetchText (url API_KEY : jsstring)
    : io (jsstring * (jsstring -> option jsstring)) :=
  let headers :=
    [ (u "Zotero-API-Version", u "3");
      (u "Authorization", u "Bearer " ++ API_KEY) ] in
  emit (Fetch url headers) ;;
  res <- await (fetch p url headers) ;;
  if negb (res_ok res)
  then throw (u "HTTP " ++ number_to_string (res_status res) ++ u " for " ++ url)
  else
    body <- await (res_text res) ;;
    ret (body, res_headers res).

(** The loop of [fetchAllParentsCSL]. *)
Fixpoint fetch_loop (BASE_URL COLL_KEY API_KEY : jsstring) (fuel : nat)
    (start : nat) (all : list CSLItem) : io (list CSLItem) :=
  match fuel with
  | O => ([], Diverge)
  | S fuel' =>
    let base := BASE_URL ++ u "/collections/" ++ COLL_KEY ++ u "/items" in
    let params := u "?format=csljson&recursive=1&top=1&limit=100&start=" in
    let url := base ++ params ++ number_to_string start in
    r <- fetchJSON url API_KEY ;;
    let '(body, headers) := r in
    let page := Action.normalizeItems body in
    let text :=
      match headers (u "Total-Results") with
      | Some h => if truthy h then h else number_to_string (length page)
      | None => number_to_string (length page)
      end in
    let total := parseInt text in
    emit (Say CoreInfo (Fetched (length page) start text)) ;;
    let all := all ++ page in
    if (length page <? 100)%nat || ge_number (length all) total
    then ret all
    else fetch_loop BASE_URL COLL_KEY API_KEY fuel' (start + length page) all
  end.

Definition fetchAllParentsCSL (BASE_URL COLL_KEY API_KEY : jsstring) (fuel : nat)
    : io (list CSLItem) :=
  fetch_loop BASE_URL COLL_KEY API_KEY fuel 0 [].

Definition fetchBibForKeys (BASE_URL API_KEY : jsstring) (keys : list jsstring)
    : io jsstring :=
  let joined := join keys in
  let url := BASE_URL ++ u "/items?format=bibtex&itemKey=" ++ joined in
  r <- fetchText url API_KEY ;;
  ret (fst r).

(** The loop over the chunks of 50 keys. *)
Fixpoint bib_loop (BASE_URL API_KEY : jsstring) (itemKeys : list jsstring)
    (fuel : nat) (i : nat) (bib : jsstring) : io jsstring :=
  match fuel with
  | O => if (i <? length itemKeys)%nat then ([], Diverge) else ret bib
  | S fuel' =>
    if (i <? length itemKeys)%nat then
      let chunk := slice i (i + 50) itemKeys in
      part <- fetchBibForKeys BASE_URL API_KEY chunk ;;
      bib_loop BASE_URL API_KEY itemKeys fuel' (i + 50) (Action.append_part bib part)
    else ret bib
  end.

(** [run]; [fuel] bounds the number of pages requested. *)
Definition run (fuel : nat) : io unit :=
  catch
    (API_KEY <- await (getInput (u "api-key") true) ;;
     LIBRARY_ID <- await (getInput (u "library-id") true) ;;
     COLL_KEY <- await (getInput (u "coll-key") true) ;;
     is_group <- await (getInput (u "is-group") false) ;;
     let IS_GROUP := or_text is_group (u "false") in
     out_bib_path <- await (getInput (u "out-bib-path") false) ;;
     let OUT_BIB_PATH := or_text out_bib_path (u "references.bib") in
     let isGroup := jsstring_eqb IS_GROUP (u "true") in
     let LIBRARY_TYPE := if isGroup then u "groups" else u "users" in
     let BASE_URL := u "https://api.zotero.org/" ++ LIBRARY_TYPE ++ u "/" ++ LIBRARY_ID in
     cslItems <- fetchAllParentsCSL BASE_URL COLL_KEY API_KEY fuel ;;
     let ix := Action.build_index cslItems in
     (if (length (itemKeys ix) =? 0)%nat
      then emit (Say CoreWarning
                   (Text (u "No parent items found. Check API key permissions and collection key.")))
      else ret tt) ;;
     bib <- bib_loop BASE_URL API_KEY (itemKeys ix) (length (itemKeys ix)) 0 [] ;;
     let bib := Action.rewrite ix bib in
     emit (Mkdir (dirname p OUT_BIB_PATH)) ;;
     await (mkdir p (dirname p OUT_BIB_PATH)) ;;
     emit (WriteFile OUT_BIB_PATH bib) ;;
     await (writeFile p OUT_BIB_PATH bib) ;;
     emit (Say CoreInfo
             (Text (u "Wrote " ++ OUT_BIB_PATH ++ u " with "
                    ++ number_to_string (length (itemKeys ix))
                    ++ u " entries (pinned: "
                    ++ number_to_string (size (pinnedMap ix)) ++ u ")"))))
    (fun message => emit (Say CoreSetFailed (Text message))).

End Run.
End ActionIO.

(** The effects of the stand-alone script. *)
Module ScriptIO.
Section Run.

Local Open Scope io_scope.

Variable p : platform.
(** [process.env[name]] *)
Variable env : jsstring -> option jsstring.

Definition API_KEY : option jsstring :=
  or_undefined (env (u "API_KEY")) (env (u "INPUT_API_KEY")).
Definition IS_GROUP : jsstring :=
  template (or_undefined (or_undefined (env (u "IS_GROUP")) (env (u "INPUT_IS_GROUP")))
              (Some (u "false"))).
Definition LIBRARY_ID : option jsstring :=
  or_undefined (env (u "LIBRARY_ID")) (env (u "INPUT_LIBRARY_ID")).
Definition COLL_KEY : option jsstring :=
  or_undefined (env (u "COLL_KEY")) (env (u "INPUT_COLL_KEY")).
Definition OUT_BIB_PATH : jsstring :=
  template (or_undefined (or_undefined (env (u "OUT_BIB_PATH")) (env (u "INPUT_OUT_BIB_PATH")))
              (Some (u "references.bib"))).

Definition isGroup : bool := jsstring_eqb IS_GROUP (u "true").
Definition LIBRARY_TYPE : jsstring := if isGroup then u "groups" else u "users".
Definition BASE_URL : jsstring :=
  u "https://api.zotero.org/" ++ LIBRARY_TYPE ++ u "/" ++ template LIBRARY_ID.

Definition fetchJSON (url : jsstring) : io (json * (jsstring -> option jsstring)) :=
  let headers :=
    [ (u "Zotero-API-Version", u "3");
      (u "Authorization", u "Bearer " ++ template API_KEY);
      (u "Accept", u "application/json") ] in
  emit (Fetch url headers) ;;
  res <- await (fetch p url headers) ;;
  if negb (res_ok res)
  then throw (u "HTTP " ++ number_to_string (res_status res) ++ u " for " ++ url)
  else
    body <- await (res_json res) ;;
    let headers := res_headers res in
    ret (body, headers).

Definition fetchText (url : jsstring) : io (jsstring * (jsstring -> option jsstring)) :=
  let headers :=
    [ (u "Zotero-API-Version", u "3");
      (u "Authorization", u "Bearer " ++ template API_KEY) ] in
  emit (Fetch url headers) ;;
  res <- await (fetch p url headers) ;;
  if negb (res_ok res)
  then throw (u "HTTP " ++ number_to_string (res_status res) ++ u " for " ++ url)
  else
    body <- await (res_text res) ;;
    let headers := res_headers res in
    ret (body, headers).

(** The loop of [fetchAllParentsCSL]. *)
Fixpoint fetch_loop (fuel : nat) (start : nat) (all : list CSLItem)
    : io (list CSLItem) :=
  match fuel with
  | O => ([], Diverge)
  | S fuel' =>
    let base := BASE_URL ++ u "/collections/" ++ template COLL_KEY ++ u "/items" in
    let params := u "?format=csljson&recursive=1&top=1&limit=100&start=" in
    let url := base ++ params ++ number_to_string start in
    r <- fetchJSON url ;;
    let '(body, headers) := r in
    let page := Script.normalizeItems body in
    let text :=
      match headers (u "Total-Results") with
      | Some h => if truthy h then h else number_to_string (length page)
      | None => number_to_string (length page)
      end in
    let total := parseInt text in
    emit (Say ConsoleLog (Fetched (length page) start text)) ;;
    let all := all ++ page in
    if (length page <? 100)%nat || ge_number (length all) total
    then ret all
    else fetch_loop fuel' (start + length page) all
  end.

Definition fetchAllParentsCSL (fuel : nat) : io (list CSLItem) :=
  fetch_loop fuel 0 [].

Definition fetchBibForKeys (keys : list jsstring) : io jsstring :=
  let joined := join keys in
  let url := BASE_URL ++ u "/items?format=bibtex&itemKey=" ++ joined in
  r <- fetchText url ;;
  ret (fst r).

(** The loop over the chunks of 50 keys. *)
Fixpoint bib_loop (itemKeys : list jsstring) (fuel : nat) (i : nat) (bib : jsstring)
    : io jsstring :=
  match fuel with
  | O => if (i <? length itemKeys)%nat then ([], Diverge) else ret bib
  | S fuel' =>
    if (i <? length itemKeys)%nat then
      let chunk := slice i (i + 50) itemKeys in
      part <- fetchBibForKeys chunk ;;
      bib_loop itemKeys fuel' (i + 50)
        (if truthy part && truthy (trim part) then
           (if truthy bib && negb (ends_with_lf bib) then bib ++ [LF] else bib)
           ++ trim part ++ [LF]
         else bib)
    else ret bib
  end.

(** The script, from its first statement to its last; [fuel] bounds the
    number of pages requested. *)
Definition run (fuel : nat) : io unit :=
  if not_value API_KEY || not_value LIBRARY_ID || not_value COLL_KEY then
    emit (Say ConsoleError
            (Text (u "Missing API_KEY / LIBRARY_ID / COLL_KEY environment variables"))) ;;
    ([], Exit 1)
  else
    cslItems <- fetchAllParentsCSL fuel ;;
    let ix := Script.build_index cslItems in
    (if (length (itemKeys ix) =? 0)%nat
     then emit (Say ConsoleWarn
                  (Text (u "No parent items found. Check API key group permissions and the collection key.")))
     else ret tt) ;;
    bib <- bib_loop (itemKeys ix) (length (itemKeys ix)) 0 [] ;;
    let bib := Script.rewrite ix bib in
    emit (Mkdir (dirname p OUT_BIB_PATH)) ;;
    await (mkdir p (dirname p OUT_BIB_PATH)) ;;
    emit (WriteFile OUT_BIB_PATH bib) ;;
    await (writeFile p OUT_BIB_PATH bib) ;;
    emit (Say ConsoleLog
            (Text (u "Wrote extra/references.bib with "
                   ++ number_to_string (length (itemKeys ix))
                   ++ u " entries (pinned: "
                   ++ number_to_string (size (pinnedMap ix)) ++ u ")"))).

End Run.
End ScriptIO.

(** * Vocabulary of the properties *)

(** The text assembled from the bodies of the batches, in fetch order. *)
Definition assemble (parts : list jsstring) : jsstring :=
  fold_left Action.append_part parts [].

(** The starts of the batches of the loop over [n] keys. *)
Fixpoint chunk_starts (fuel i n : nat) : list nat :=
  match fuel with
  | O => []
  | S fuel' => if (i <? n)%nat then i :: chunk_starts fuel' (i + 50) n else []
  end.

(** No index ever holds the empty key. *)
Definition no_empty_key (ix : index) : Prop :=
  pinnedMap ix !! ([] : list N) = None
  /\ typeHints ix !! ([] : list N) = None
  /\ ~ In [] (itemKeys ix).

(** The page and the total the server reports for the request that starts
    at [s], as [fetchAllParentsCSL] reads them. *)
Definition page_of (server : nat -> response) (s : nat) : list CSLItem :=
  Action.normalizeItems (body (server s)).

Definition total_of (server : nat -> response) (s : nat) : option Z :=
  parseInt
    match total_results (server s) with
    | Some h => if truthy h then h else number_to_string (length (page_of server s))
    | None => number_to_string (length (page_of server s))
    end.

(** The loop stops after the page at [s], [acc] being the entries of the
    pages before: the page is short, or the total is reached. *)
Definition stops (server : nat -> response) (s : nat) (acc : list CSLItem) : bool :=
  (length (page_of server s) <? 100)%nat
  || ge_number (length (acc ++ page_of server s)) (total_of server s).

(** [Pages server s acc starts]: from the offset [s], with [acc] fetched so
    far, the requests are those of [starts]: every response is a success,
    each next offset is the previous one plus the size of its page, no page
    but the last one stops the loop, and the last one does. *)
Inductive Pages (server : nat -> response) : nat -> list CSLItem -> list nat -> Prop :=
| Pages_last s acc :
    ok (server s) = true -> stops server s acc = true ->
    Pages server s acc [s]
| Pages_more s acc starts :
    ok (server s) = true -> stops server s acc = false ->
    Pages server (s + length (page_of server s)) (acc ++ page_of server s) starts ->
    Pages server s acc (s :: starts).

(** Little-endian value of a list of digits. *)
Fixpoint le_value (ds : jsstring) : Z :=
  match ds with
  | [] => 0%Z
  | c :: t => (Z.of_N (c - 48) + 10 * le_value t)%Z
  end.

(** A server whose pages have the sizes 100, 100, 100 and 40 at the starts
    0, 100, 200 and 300, every response carrying the header [total]. *)
Definition entry0 : CSLItem :=
  {| id := VString (u "1/K"); note := None; type := None |}.

Definition paged_server (total : option jsstring) (s : nat) : response :=
  {| ok := true;
     body := JArray (repeat entry0 (if (s <? 300)%nat then 100 else 40)%nat);
     total_results := total |}.

(** [extends st st']: [st'] is [st] after some text [l] has been consumed. *)
Definition extends (st st' : mstate) : Prop :=
  exists l, rest st = l ++ rest st' /\ before st' = rev l ++ before st.

Definition forward (step : mstate -> cont -> option mstate) : Prop :=
  forall st k res, step st k = Some res ->
  exists st', extends st st' /\ k st' = Some res.

(** [headed p s]: the text [s] starts with a code unit that satisfies [p]. *)
Definition headed (p : char -> bool) (s : jsstring) : bool :=
  match s with
  | x :: _ => p x
  | [] => false
  end.

(** A continuation that fails wherever the text goes on with a code unit
    that satisfies [p]: a greedy run of [p] before it never gives back. *)
Definition blocked (p : char -> bool) (k : cont) : Prop :=
  forall st, headed p (rest st) = true -> k st = None.

(** What a greedy run does after it has taken all of [l]: it tries the
    continuation after [l], then after shorter and shorter prefixes. *)
Fixpoint try_back (k : cont) (b : jsstring) (c : list (nat * jsstring))
    (l r : jsstring) : option mstate :=
  match l with
  | [] => k (MState b r c)
  | x :: l' =>
    match try_back k (x :: b) c l' r with
    | Some res => Some res
    | None => k (MState b (x :: l' ++ r) c)
    end
  end.

(** A literal read from the front of a text, letter case ignored or not. *)
Fixpoint strip_lit (fl : flags) (pat s : jsstring) : option (jsstring * jsstring) :=
  match pat with
  | [] => Some ([], s)
  | p :: pat' =>
    match s with
    | c :: s' =>
      if chr_match fl p c then
        match strip_lit fl pat' s' with
        | Some (m, r) => Some (c :: m, r)
        | None => None
        end
      else None
    | [] => None
    end
  end.

Definition is_letter (c : char) : bool := is_upper c || is_lower c.

(** The sets of the bracket expressions of the programs. *)
Definition not_rbrace (c : char) : bool := negb (c =? 125).
Definition no_brace_char (c : char) : bool := negb ((c =? 123) || (c =? 125)).
Definition tok_char (c : char) : bool := negb (is_space c || (c =? 35)).
Definition not_comma (c : char) : bool := negb (c =? 44).

(** A field assignment read from the front of a text, as the expression
    [(name\s*=\s*\{)([^}]+)(\})] with flags [gi] reads it: the name (letter
    case ignored), white space, [=], white space, an opening brace, one or
    more code units other than the closing brace, a closing brace.  The
    result is the text of group 1, the content and the text that follows. *)
Definition field_at (name s : jsstring) : option (jsstring * jsstring * jsstring) :=
  match strip_lit f_gi name s with
  | Some (nm, s1) =>
    match drop_while is_space s1 with
    | x :: s2 =>
      if x =? 61 then
        match drop_while is_space s2 with
        | y :: s3 =>
          if y =? 123 then
            match take_while not_rbrace s3 with
            | [] => None
            | content =>
              match drop_while not_rbrace s3 with
              | z :: post =>
                if z =? 125 then
                  Some (nm ++ take_while is_space s1 ++ [61]
                        ++ take_while is_space s2 ++ [123], content, post)
                else None
              | [] => None
              end
            end
          else None
        | [] => None
        end
      else None
    | [] => None
    end
  | None => None
  end.

(** [ci_eq pat s]: [s] is [pat] up to the case of its letters. *)
Fixpoint ci_eq (pat s : jsstring) : bool :=
  match pat, s with
  | [], [] => true
  | p :: pat', c :: s' => chr_match f_gi p c && ci_eq pat' s'
  | _, _ => false
  end.

(** No field assignment of [name] starts in [pre], the text going on with
    [tail]. *)
Fixpoint no_field_in (name pre tail : jsstring) : bool :=
  match pre with
  | [] => true
  | c :: pre' =>
    match field_at name (pre ++ tail) with
    | Some _ => false
    | None => no_field_in name pre' tail
    end
  end.

(** A record header read from the front of a text, as [/@(\w+)\{([^,]+),/]
    reads it: the type, the key and the text that follows. *)
Definition header_at (s : jsstring) : option (jsstring * jsstring * jsstring) :=
  match s with
  | x :: s1 =>
    if x =? 64 then
      match take_while is_word s1 with
      | [] => None
      | ty =>
        match drop_while is_word s1 with
        | y :: s2 =>
          if y =? 123 then
            match take_while not_comma s2 with
            | [] => None
            | key =>
              match drop_while not_comma s2 with
              | z :: post => if z =? 44 then Some (ty, key, post) else None
              | [] => None
              end
            end
          else None
        | [] => None
        end
      end
    else None
  | [] => None
  end.

(** [no_match_in spec b pre tail]: the reader [spec] finds nothing at any
    position of [pre], the text before being [b] (latest first) and the text
    going on with [tail]. *)
Fixpoint no_match_in {A : Type} (spec : jsstring -> jsstring -> option A)
    (b pre tail : jsstring) : bool :=
  match pre with
  | [] => true
  | c :: pre' =>
    match spec b (pre ++ tail) with
    | Some _ => false
    | None => no_match_in spec (c :: b) pre' tail
    end
  end.

Definition header_spec (b s : jsstring) : option ((jsstring * jsstring) * jsstring) :=
  match header_at s with
  | Some (ty, key, post) => Some ((ty, key), post)
  | None => None
  end.

Definition no_header_in (pre tail : jsstring) : bool :=
  no_match_in header_spec [] pre tail.

(** The header that the first pass writes for a header of type [ty] and
    key [k]. *)
Definition header_out (ix : index) (tk : jsstring * jsstring) : jsstring :=
  let '(ty, k) := tk in
  u "@"
  ++ or_string (object_get Action.typeMap (Action.or_empty (typeHints ix !! k))) ty
  ++ u "{" ++ Action.or_key (pinnedMap ix !! k) k ++ u ",".

(** The type of the claim: the value of [typeMap] for the hint of the key
    when there is one, the type of the server otherwise. *)
Definition mapped_type (ix : index) (ty k : jsstring) : jsstring :=
  match typeHints ix !! k with
  | Some h => match assoc h Action.typeMap with Some v => v | None => ty end
  | None => ty
  end.

(** The names that an object literal inherits from [Object.prototype]. *)
Definition inherited_name (h : jsstring) : bool :=
  match assoc h object_prototype_functions with
  | Some _ => true
  | None => jsstring_eqb h (u "__proto__")
  end.

(** The pinned key read at the start of a line, as
    [/^\s*Citation Key:\s*([^\s#]+)\s*$/mi] reads it: white space, the
    label (letter case ignored), white space, a token of code units that are
    neither white space nor [#], then white space up to the end of a line,
    that is up to the end of the text or up to a line terminator, which is
    itself white space. *)
Definition ends_line (w r : jsstring) : bool :=
  match r with
  | [] => true
  | _ => existsb is_line_terminator w
  end.

Definition pin_at (s : jsstring) : option jsstring :=
  match strip_lit f_mi (u "Citation Key:") (drop_while is_space s) with
  | Some (_, s2) =>
    let s3 := drop_while is_space s2 in
    match take_while tok_char s3 with
    | [] => None
    | tok =>
      let s4 := drop_while tok_char s3 in
      if ends_line (take_while is_space s4) (drop_while is_space s4)
      then Some tok else None
    end
  | None => None
  end.

(** The position after the text [b] (latest first) is the start of a line. *)
Definition bol (b : jsstring) : bool :=
  match b with
  | [] => true
  | c :: _ => is_line_terminator c
  end.

Definition pin_spec (b s : jsstring) : option jsstring :=
  if bol b then pin_at s else None.

(** The first position, from the left, at which a reader finds something. *)
Fixpoint first_match {A : Type} (spec : jsstring -> jsstring -> option A)
    (b s : jsstring) : option A :=
  match spec b s with
  | Some a => Some a
  | None =>
    match s with
    | [] => None
    | c :: t => first_match spec (c :: b) t
    end
  end.

(** [pre] is empty or ends with a line terminator; [post] is empty or starts
    with one. *)
Definition line_start (pre : jsstring) : bool := bol (rev pre).
Definition line_end (post : jsstring) : bool :=
  match post with
  | [] => true
  | c :: _ => is_line_terminator c
  end.

(** The lines of a text. *)
Fixpoint lines (s : jsstring) : list jsstring :=
  match s with
  | [] => [[]]
  | c :: t =>
    if is_line_terminator c then [] :: lines t
    else match lines t with
         | l :: ls => (c :: l) :: ls
         | [] => [[c]]
         end
  end.

(** After the token: white space, then the end of a line. *)
Definition eol_cont : cont := fun st => mt f_mi Eol st Some.

(** *** The type field *)

(** The value of a type field as group 3 of the expression reads it: the
    longest sequence of items, an item being a code unit that is not a
    brace, or an opening brace, code units that are not braces, and a
    closing brace.  The result is the value and the text that follows. *)
Fixpoint scan_content (fuel : nat) (s : jsstring) : jsstring * jsstring :=
  match fuel with
  | O => ([], s)
  | S fuel' =>
    match s with
    | [] => ([], [])
    | x :: t =>
      if no_brace_char x then
        let '(c, r) := scan_content fuel' t in (x :: c, r)
      else if x =? 123 then
        match drop_while no_brace_char t with
        | y :: t' =>
          if y =? 125 then
            let '(c, r) := scan_content fuel' t' in
            (123 :: take_while no_brace_char t ++ 125 :: c, r)
          else ([], s)
        | [] => ([], s)
        end
      else ([], s)
    end
  end.

(** Braces that are balanced and nested at most one level deep. *)
Fixpoint one_level_from (inside : bool) (s : jsstring) : bool :=
  match s with
  | [] => negb inside
  | x :: t =>
    if x =? 123 then (if inside then false else one_level_from true t)
    else if x =? 125 then (if inside then one_level_from false t else false)
    else one_level_from inside t
  end.

Definition one_level (s : jsstring) : bool := one_level_from false s.

(** The cleaning of the value: braces removed, every run of white space
    replaced by one space, then trimmed. *)
Definition strip_braces (s : jsstring) : jsstring := List.filter no_brace_char s.

Fixpoint collapse_from (after_space : bool) (s : jsstring) : jsstring :=
  match s with
  | [] => []
  | x :: t =>
    if is_space x then
      if after_space then collapse_from true t else 32 :: collapse_from true t
    else x :: collapse_from false t
  end.

Definition collapse_ws (s : jsstring) : jsstring := collapse_from false s.

Definition clean_value (content : jsstring) : jsstring :=
  trim (collapse_ws (strip_braces content)).

(** The type field read from the front of a text, after the start of line:
    the indentation, the value, the white space and comma that follow the
    closing brace, and the rest of the text. *)
Definition type_body (s : jsstring)
    : option (jsstring * jsstring * jsstring * jsstring) :=
  match strip_lit f_mi (u "type") (drop_while is_space s) with
  | Some (_, s1) =>
    match drop_while is_space s1 with
    | x :: s2 =>
      if x =? 61 then
        match drop_while is_space s2 with
        | y :: s3 =>
          if y =? 123 then
            match snd (scan_content (length s3) s3) with
            | z :: s5 =>
              if z =? 125 then
                match drop_while is_space s5 with
                | c :: post =>
                  if c =? 44 then
                    Some (take_while is_space s, fst (scan_content (length s3) s3),
                          take_while is_space s5 ++ [44], post)
                  else
                    Some (take_while is_space s, fst (scan_content (length s3) s3),
                          take_while is_space s5, c :: post)
                | [] =>
                  Some (take_while is_space s, fst (scan_content (length s3) s3),
                        take_while is_space s5, [])
                end
              else None
            | [] => None
            end
          else None
        | [] => None
        end
      else None
    | [] => None
    end
  | None => None
  end.

(** A type field is read where a line starts, or from a line feed. *)
Definition type_spec (b s : jsstring)
    : option ((jsstring * jsstring * jsstring) * jsstring) :=
  if bol b || headed (fun c => c =? 10) s then
    match type_body s with
    | Some (ind, content, tail, post) => Some ((ind, content, tail), post)
    | None => None
    end
  else None.

(** The replacer of [cleanTypeField], and what it writes. *)
Definition type_repl (m : mstate) : jsstring :=
  cap 1 m ++ cap 2 m ++ u "type = {" ++ Action.clean_content (cap 3 m)
  ++ u "}" ++ cap 4 m.

Definition type_out (a : jsstring * jsstring * jsstring) : jsstring :=
  let '(ind, content, tail) := a in
  ind ++ u "type = {" ++ clean_value content ++ u "}" ++ tail.

(** [cleanTypeField] continued on [s], the text [read] having been read. *)
Definition clean_type_after (read s : jsstring) : jsstring :=
  replace_from f_mi Action.type_rx type_repl (rev read) s.

(** An item of the value of a type field. *)
Definition item_rx : regex :=
  Alt Action.no_brace (seqs [ Chr 123; Rep 0 Action.no_brace; Chr 125 ]).

(** The expression of [cleanTypeField] after its first group. *)
Definition type_body_rx : regex :=
  seqs [ Grp 2 (Rep 0 space_rx);
         lit "type"; Rep 0 space_rx; Chr 61; Rep 0 space_rx; Chr 123;
         Grp 3 (Rep 0 item_rx);
         Chr 125;
         Grp 4 (Seq (Rep 0 space_rx) (Opt (Chr 44))) ].

(** After the closing brace and its white space: a comma, or nothing when
    the text does not go on with white space or a comma. *)
Definition tail_ok (comma post : jsstring) : bool :=
  match comma with
  | [] => negb (headed (fun c => is_space c || (c =? 44)) post)
  | [c] => c =? 44
  | _ => false
  end.

(** Inputs of the examples. *)
Definition entry_constructor : CSLItem :=
  {| id := VString (u "1/K"); note := None; type := Some (u "constructor") |}.

Definition note_label_alone : jsstring :=
  u "Citation Key:" ++ [LF] ++ u "Smith2020".

Definition note_three_lines : jsstring :=
  u "Citation Key:" ++ [LF] ++ u "foo" ++ [LF] ++ u "Citation Key: Smith2020".

Definition entry_three_lines : CSLItem :=
  {| id := VString (u "1/K"); note := Some note_three_lines; type := None |}.

Definition entry_scenario : CSLItem :=
  {| id := VString (u "1/KEY1"); note := Some (u "Citation Key: Pinned1");
     type := Some (u "webpage") |}.

Definition raw_scenario : jsstring :=
  u "@webpage{KEY1," ++ [LF] ++ u "  title = {An HTML Guide}," ++ [LF]
  ++ u "  journal = {Web}," ++ [LF] ++ u "}".

Definition final_scenario : jsstring :=
  u "@online{Pinned1," ++ [LF] ++ u "  title = {An {{HTML}} Guide}," ++ [LF]
  ++ u "  organization = {Web}," ++ [LF] ++ u "}" ++ [LF].

(** ** Vocabulary of the effects *)

(** The headers of the two kinds of request. *)
Definition json_headers (API_KEY : jsstring) : list (jsstring * jsstring) :=
  [ (u "Zotero-API-Version", u "3");
    (u "Authorization", u "Bearer " ++ API_KEY);
    (u "Accept", u "application/json") ].

Definition text_headers (API_KEY : jsstring) : list (jsstring * jsstring) :=
  [ (u "Zotero-API-Version", u "3");
    (u "Authorization", u "Bearer " ++ API_KEY) ].

(** The address of the library, of a page of the collection and of a batch
    of keys. *)
Definition base_url (is_group LIBRARY_ID : jsstring) : jsstring :=
  u "https://api.zotero.org/"
  ++ (if jsstring_eqb (or_text is_group (u "false")) (u "true")
      then u "groups" else u "users")
  ++ u "/" ++ LIBRARY_ID.

Definition page_url (BASE_URL COLL_KEY : jsstring) (start : nat) : jsstring :=
  (BASE_URL ++ u "/collections/" ++ COLL_KEY ++ u "/items")
  ++ u "?format=csljson&recursive=1&top=1&limit=100&start="
  ++ number_to_string start.

Definition bib_url (BASE_URL : jsstring) (keys : list jsstring) : jsstring :=
  BASE_URL ++ u "/items?format=bibtex&itemKey=" ++ join keys.

(** The message of the exception of [fetchJSON] and [fetchText]. *)
Definition http_error (res : Response) (url : jsstring) : jsstring :=
  u "HTTP " ++ number_to_string (res_status res) ++ u " for " ++ url.

(** The platform seen as the server of the pages and of the batches. *)
Definition server_of (p : platform) (BASE_URL COLL_KEY API_KEY : jsstring)
    (start : nat) : response :=
  match fetch p (page_url BASE_URL COLL_KEY start) (json_headers API_KEY) with
  | Fulfilled res =>
    match res_json res with
    | Fulfilled j =>
      {| ok := res_ok res; body := j;
         total_results := res_headers res (u "Total-Results") |}
    | Rejected _ => {| ok := false; body := JOther; total_results := None |}
    end
  | Rejected _ => {| ok := false; body := JOther; total_results := None |}
  end.

Definition fetchBib_of (p : platform) (BASE_URL API_KEY : jsstring)
    (keys : list jsstring) : option jsstring :=
  match fetch p (bib_url BASE_URL keys) (text_headers API_KEY) with
  | Fulfilled res =>
    if res_ok res then
      match res_text res with
      | Fulfilled t => Some t
      | Rejected _ => None
      end
    else None
  | Rejected _ => None
  end.

(** The text in which the total of the page at [s] is read: the header
    [Total-Results], or the size of the page when the header is absent or
    empty. *)
Definition total_text (server : nat -> response) (s : nat) : jsstring :=
  match total_results (server s) with
  | Some h => if truthy h then h else number_to_string (length (page_of server s))
  | None => number_to_string (length (page_of server s))
  end.

(** The calls of one page and of one batch. *)
Definition page_events (c : channel) (p : platform) (BASE_URL COLL_KEY API_KEY : jsstring)
    (start : nat) : list event :=
  let server := server_of p BASE_URL COLL_KEY API_KEY in
  [ Fetch (page_url BASE_URL COLL_KEY start) (json_headers API_KEY);
    Say c (Fetched (length (page_of server start)) start (total_text server start)) ].

Definition batch_event (BASE_URL API_KEY : jsstring) (keys : list jsstring) (j : nat)
    : event :=
  Fetch (bib_url BASE_URL (slice j (j + 50) keys)) (text_headers API_KEY).

(** The calls to the file system. *)
Definition is_file_call (e : event) : bool :=
  match e with
  | Mkdir _ | WriteFile _ _ => true
  | _ => false
  end.

(** Why a request fails, if it does: the exception of [fetch], or the
    status of the response. *)
Definition failure_message (url : jsstring) (a : answer Response) : option jsstring :=
  match a with
  | Rejected e => Some e
  | Fulfilled res => if res_ok res then None else Some (http_error res url)
  end.

(** A call that is not a call to the file system and not a request that
    fails. *)
Definition settled (p : platform) (e : event) : bool :=
  match e with
  | Fetch url hs =>
    match failure_message url (fetch p url hs) with
    | Some _ => false
    | None => true
    end
  | Say _ _ => true
  | _ => false
  end.

(** A computation that makes no call to the file system, and that goes on
    after each of its requests unless the request fails or its body cannot
    be read. *)
Definition stops_at {A : Type} (p : platform) (m : io A) : Prop :=
  match m with
  | (tr, Ok _) | (tr, Diverge) => forallb (settled p) tr = true
  | (tr, Throw e) =>
    exists tr0 url hs,
      tr = tr0 ++ [Fetch url hs] /\ forallb (settled p) tr0 = true
      /\ (forall e', failure_message url (fetch p url hs) = Some e' -> e' = e)
  | (tr, Exit _) => False
  end.

(** The messages of the end of a run. *)
Definition wrote_message (path : jsstring) (ix : index) : jsstring :=
  u "Wrote " ++ path ++ u " with " ++ number_to_string (length (itemKeys ix))
  ++ u " entries (pinned: " ++ number_to_string (size (pinnedMap ix)) ++ u ")".

(** The calls that write the text [bib] to [path], and the message that
    follows. *)
Definition write_calls (p : platform) (path bib : jsstring) (last : event) : io unit :=
  bind (emit (Mkdir (dirname p path))) (fun _ =>
  bind (await (mkdir p (dirname p path))) (fun _ =>
  bind (emit (WriteFile path bib)) (fun _ =>
  bind (await (writeFile p path bib)) (fun _ =>
  emit last)))).

(** What the action does once its inputs are read: [k], [l], [c], [g] and
    [o] are the values of [api-key], [library-id], [coll-key], [is-group]
    and [out-bib-path]. *)
Definition action_calls (p : platform) (k l c g o : jsstring) (fuel : nat) : io unit :=
  let BASE_URL := base_url g l in
  let path := or_text o (u "references.bib") in
  bind (ActionIO.fetchAllParentsCSL p BASE_URL c k fuel) (fun cslItems =>
  let ix := Action.build_index cslItems in
  bind (if (length (itemKeys ix) =? 0)%nat
        then emit (Say CoreWarning
                     (Text (u "No parent items found. Check API key permissions and collection key.")))
        else ret tt) (fun _ =>
  bind (ActionIO.bib_loop p BASE_URL k (itemKeys ix) (length (itemKeys ix)) 0 []) (fun bib =>
  write_calls p path (Action.rewrite ix bib)
    (Say CoreInfo (Text (wrote_message path ix)))))).

(** The warning of a run that finds no key. *)
Definition no_items_warning (c : channel) (text : jsstring) (ix : index) : list event :=
  if (length (itemKeys ix) =? 0)%nat then [Say c (Text text)] else [].

(** A platform that serves one page with the entry of the scenario and its
    record, and inputs that are all given. *)
Definition scenario_platform : platform :=
  {| fetch := fun _ _ =>
       Fulfilled {| res_ok := true; res_status := 200;
                    res_json := Fulfilled (JArray [entry_scenario]);
                    res_text := Fulfilled raw_scenario;
                    res_headers := fun _ => None |};
     dirname := fun _ => u ".";
     mkdir := fun _ => Fulfilled tt;
     writeFile := fun _ _ => Fulfilled tt |}.

Definition scenario_inputs (name : jsstring) (required : bool) : answer jsstring :=
  if jsstring_eqb name (u "api-key") then Fulfilled (u "secret")
  else if jsstring_eqb name (u "library-id") then Fulfilled (u "42")
  else if jsstring_eqb name (u "coll-key") then Fulfilled (u "COLL")
  else if jsstring_eqb name (u "is-group") then Fulfilled (u "true")
  else Fulfilled [].

(** A platform that refuses every request with the status 403, and one
    whose collection is empty. *)
Definition forbidden_platform : platform :=
  {| fetch := fun _ _ =>
       Fulfilled {| res_ok := false; res_status := 403;
                    res_json := Rejected (u "Unexpected token");
                    res_text := Fulfilled (u "Forbidden");
                    res_headers := fun _ => None |};
     dirname := fun _ => u ".";
     mkdir := fun _ => Fulfilled tt;
     writeFile := fun _ _ => Fulfilled tt |}.

Definition empty_platform : platform :=
  {| fetch := fun _ _ =>
       Fulfilled {| res_ok := true; res_status := 200;
                    res_json := Fulfilled (JArray []);
                    res_text := Fulfilled [];
                    res_headers := fun _ => Some (u "0") |};
     dirname := fun _ => u ".";
     mkdir := fun _ => Fulfilled tt;
     writeFile := fun _ _ => Fulfilled tt |}.

(** Inputs of which the first is not supplied. *)
Definition missing_inputs (name : jsstring) (required : bool) : answer jsstring :=
  if required then Rejected (u "Input required and not supplied: " ++ name)
  else Fulfilled [].

(** The inputs of the action, in the order in which [run] reads them, each
    with its [required] option. *)
Definition action_inputs : list (jsstring * bool) :=
  [ (u "api-key", true); (u "library-id", true); (u "coll-key", true);
    (u "is-group", false); (u "out-bib-path", false) ].

(** Inputs of which only the key of the API is supplied. *)
Definition key_only_inputs (name : jsstring) (required : bool) : answer jsstring :=
  if jsstring_eqb name (u "api-key") then Fulfilled (u "secret")
  else missing_inputs name required.

(** The calls to the platform, as opposed to the messages. *)
Definition is_call (e : event) : bool :=
  match e with
  | Say _ _ => false
  | _ => true
  end.

(** The message of the action on the channel of the script. *)
Definition to_console (e : event) : event :=
  match e with
  | Say CoreInfo m => Say ConsoleLog m
  | Say CoreWarning m => Say ConsoleWarn m
  | Say CoreSetFailed m => Say ConsoleError m
  | _ => e
  end.

Definition relabel {A : Type} (m : io A) : io A := (List.map to_console (fst m), snd m).


(** An environment with the three variables, and one without the key of
    the collection. *)
Definition scenario_env (name : jsstring) : option jsstring :=
  if jsstring_eqb name (u "API_KEY") then Some (u "secret")
  else if jsstring_eqb name (u "INPUT_LIBRARY_ID") then Some (u "42")
  else if jsstring_eqb name (u "COLL_KEY") then Some (u "COLL")
  else if jsstring_eqb name (u "IS_GROUP") then Some (u "true")
  else None.


(** A server whose pages are all full, with the header [total]. *)
Definition full_server (total : option jsstring) (s : nat) : response :=
  {| ok := true; body := JArray (repeat entry0 100); total_results := total |}.


(** The value that survives for the key [k]: the one of the last entry with
    that key for which [f] gives a non-empty string. *)
Definition last_value (f : CSLItem -> option jsstring) (k : jsstring)
    (items : list CSLItem) : option jsstring :=
  fold_left
    (fun acc it =>
       if jsstring_eqb (Action.item_key it) k then
         match f it with
         | Some v => if truthy v then Some v else acc
         | None => acc
         end
       else acc)
    items None.

(** What the indexes keep: every key of a pin or of a hint is a key of the
    list, a pin is a token and a hint is not empty, and no index is longer
    than the list of keys. *)
Definition index_consistent (ix : index) : Prop :=
  (forall k v, pinnedMap ix !! k = Some v ->
               In k (itemKeys ix) /\ v <> [] /\ forallb tok_char v = true)
  /\ (forall k t, typeHints ix !! k = Some t -> In k (itemKeys ix) /\ t <> [])
  /\ (size (pinnedMap ix) <= length (itemKeys ix))%nat
  /\ (size (typeHints ix) <= length (itemKeys ix))%nat.

(** Two entries with the same key. *)
Definition entry_first : CSLItem :=
  {| id := VString (u "1/K"); note := Some (u "Citation Key: First");
     type := Some (u "book") |}.
Definition entry_second : CSLItem :=
  {| id := VString (u "2/K"); note := None; type := Some (u "thesis") |}.

(** A character of a cleaned value: not a brace, and no white space but
    the space. *)
Definition clean_char (c : char) : bool :=
  no_brace_char c && (negb (is_space c) || (c =? 32)).

(** No two white spaces in a row ([after_space]: the text follows one). *)
Fixpoint single_spaced (after_space : bool) (s : jsstring) : bool :=
  match s with
  | [] => true
  | x :: t =>
    if is_space x then negb after_space && single_spaced true t
    else single_spaced false t
  end.

(** A code unit that is not an opening brace. *)
Definition not_lbrace (c : char) : bool := negb (c =? 123).

(** The acronym read from the front of a text that follows [b] (latest code
    unit first): a run of two capitals or more that does not follow a word
    character and is not followed by one. *)
Definition acronym_at (b s : jsstring) : option (jsstring * jsstring) :=
  let w := take_while is_upper s in
  let r := drop_while is_upper s in
  if negb (headed is_word b) && (2 <=? length w)%nat && negb (headed is_word r)
  then Some (w, r) else None.

(** A word as the acronym pass writes it: wrapped in two pairs of braces
    when it is made of two capitals or more, and as it is otherwise. *)
Definition wrap_word (w : jsstring) : jsstring :=
  if (2 <=? length w)%nat && forallb is_upper w then u "{{" ++ w ++ u "}}" else w.

(** The words of a text, each one as [wrap_word] writes it; a word is a
    maximal run of word characters, and [cur] is the beginning of the word
    being read, latest code unit first. *)
Fixpoint wrap_words (cur : jsstring) (s : jsstring) : jsstring :=
  match s with
  | [] => wrap_word (rev cur)
  | c :: t =>
    if is_word c then wrap_words (c :: cur) t
    else wrap_word (rev cur) ++ c :: wrap_words [] t
  end.

(** The replacer of the acronym pass. *)
Definition acronym_repl (m : mstate) : jsstring := u "{{" ++ cap 1 m ++ u "}}".

(** The offsets of pages of the given sizes, from the offset [s]. *)
Fixpoint offsets_from (s : nat) (sizes : list nat) : list nat :=
  match sizes with
  | [] => []
  | n :: ns => s :: offsets_from (s + n) ns
  end.

(** A call that, if it is a request, goes to an address under [B] with the
    key [k] as bearer token and the version 3 of the interface. *)
Definition authorised (B k : jsstring) (e : event) : Prop :=
  match e with
  | Fetch url hs =>
    (exists path, url = B ++ path)
    /\ In (u "Authorization", u "Bearer " ++ k) hs
    /\ In (u "Zotero-API-Version", u "3") hs
  | _ => True
  end.


(** * Properties *)

(** ** Strings *)

Lemma truthy_false (s : jsstring) : truthy s = false <-> s = [].
Proof. destruct s; simpl; split; congruence. Qed.

Lemma truthy_true (s : jsstring) : truthy s = true <-> s <> [].
Proof. destruct s; simpl; split; congruence. Qed.

(** ** The two programs are the same *)

Lemma replace_loop_ext fl r (f g : mstate -> jsstring) :
  (forall m, f m = g m) ->
  forall fuel bef s, replace_loop fl r f fuel bef s = replace_loop fl r g fuel bef s.
Proof.
  intros Hfg. induction fuel as [|fuel IH]; intros bef s; simpl; [reflexivity|].
  destruct (match_at fl r bef s) as [st|].
  - rewrite Hfg. destruct (Nat.eqb _ _).
    + destruct s; [reflexivity|]. now rewrite IH.
    + now rewrite IH.
  - destruct s; [reflexivity|]. now rewrite IH.
Qed.

Lemma replace_all_ext fl r (f g : mstate -> jsstring) s :
  (forall m, f m = g m) -> replace_all fl r f s = replace_all fl r g s.
Proof. intros H. apply replace_loop_ext, H. Qed.

Lemma typeMap_lookup_hint (h : option jsstring) :
  object_get Script.typeMap (Script.property_key h)
  = object_get Action.typeMap (Action.or_empty h).
Proof. destruct h as [s|]; [reflexivity|]. vm_compute. reflexivity. Qed.

Lemma index_step_same ix it : Script.index_step ix it = Action.index_step ix it.
Proof. reflexivity. Qed.

Lemma build_index_same items : Script.build_index items = Action.build_index items.
Proof. reflexivity. Qed.

Lemma rewrite_headers_same ix bib :
  Script.rewrite_headers ix bib = Action.rewrite_headers ix bib.
Proof.
  unfold Script.rewrite_headers, Action.rewrite_headers.
  change (seqs _) with Action.header_rx.
  apply replace_all_ext. intros m.
  unfold Action.header_repl. cbv zeta.
  rewrite typeMap_lookup_hint. reflexivity.
Qed.

Lemma rename_journal_same bib : Script.rename_journal bib = Action.rename_journal bib.
Proof. reflexivity. Qed.

Lemma protectCapitalsInFields_same bib :
  Script.protectCapitalsInFields bib = Action.protectCapitalsInFields bib.
Proof. reflexivity. Qed.

Lemma cleanTypeField_same bib : Script.cleanTypeField bib = Action.cleanTypeField bib.
Proof. reflexivity. Qed.

Lemma rewrite_same ix bib : Script.rewrite ix bib = Action.rewrite ix bib.
Proof.
  unfold Script.rewrite, Action.rewrite. cbv zeta.
  rewrite rewrite_headers_same, rename_journal_same,
    protectCapitalsInFields_same, cleanTypeField_same.
  reflexivity.
Qed.

(** C9. The script and the action are the same program: from every list of
    entries they build the same [pinnedMap], [typeHints] and [itemKeys]; for
    every bibliography text and every pair of indexes their four passes
    (headers, journal, acronyms, type field) give the same final text; and
    their pagination and assembly loops agree as well. *)
Theorem two_files_equivalent :
  (forall items : list CSLItem,
     pinnedMap (Script.build_index items) = pinnedMap (Action.build_index items)
     /\ typeHints (Script.build_index items) = typeHints (Action.build_index items)
     /\ itemKeys (Script.build_index items) = itemKeys (Action.build_index items))
  /\ (forall (pins hints : gmap (list N) (list N)) (keys : list (list N)) (bib : jsstring),
        let ix := {| pinnedMap := pins; typeHints := hints; itemKeys := keys |} in
        Script.rewrite ix bib = Action.rewrite ix bib)
  /\ (forall server fuel,
        Script.fetchAllParentsCSL server fuel = Action.fetchAllParentsCSL server fuel)
  /\ (forall fetchBib keys fuel i bib,
        Script.bib_loop fetchBib keys fuel i bib = Action.bib_loop fetchBib keys fuel i bib).
Proof.
  split; [|split; [|split]].
  - intros items. now rewrite build_index_same.
  - intros pins hints keys bib ix. apply rewrite_same.
  - reflexivity.
  - reflexivity.
Qed.

(** ** Trimming *)

Lemma drop_while_head p (s : jsstring) :
  match drop_while p s with
  | [] => True
  | c :: _ => p c = false
  end.
Proof.
  induction s as [|c t IH]; simpl; [exact I|].
  destruct (p c) eqn:E; [exact IH|exact E].
Qed.

Lemma drop_while_snoc p (l : jsstring) c :
  p c = false -> exists l', drop_while p (l ++ [c]) = l' ++ [c].
Proof.
  intros Hc. induction l as [|a l IH]; simpl.
  - rewrite Hc. now exists [].
  - destruct (p a); [exact IH|]. now exists (a :: l).
Qed.

Lemma drop_while_all p (s : jsstring) :
  forallb p s = true -> drop_while p s = [].
Proof.
  induction s as [|c t IH]; simpl; [reflexivity|].
  destruct (p c); simpl; [exact IH|discriminate].
Qed.

Lemma drop_while_none p (s : jsstring) :
  match s with [] => True | c :: _ => p c = false end -> drop_while p s = s.
Proof. destruct s as [|c t]; simpl; [reflexivity|]. now intros ->. Qed.

(** A trimmed string neither starts nor ends with white space. *)
Lemma trim_head (s : jsstring) :
  match trim s with [] => True | c :: _ => is_space c = false end.
Proof.
  unfold trim.
  pose proof (drop_while_head is_space s) as H.
  destruct (drop_while is_space s) as [|c t]; [exact I|].
  replace (rev (c :: t)) with (rev t ++ [c]) by reflexivity.
  destruct (drop_while_snoc is_space (rev t) c H) as [l' ->].
  rewrite rev_app_distr. simpl. exact H.
Qed.

Lemma trim_last (s : jsstring) :
  match rev (trim s) with [] => True | c :: _ => is_space c = false end.
Proof. unfold trim. rewrite rev_involutive. apply drop_while_head. Qed.

Lemma trim_blank (s : jsstring) : forallb is_space s = true -> trim s = [].
Proof. intros H. unfold trim. now rewrite (drop_while_all _ _ H). Qed.

Lemma trim_nonblank (s : jsstring) : forallb is_space s = false -> trim s <> [].
Proof.
  intros H. unfold trim.
  assert (Hd : drop_while is_space s <> []).
  { induction s as [|c t IH]; simpl in *; [discriminate|].
    destruct (is_space c); simpl in *; [auto|discriminate]. }
  pose proof (drop_while_head is_space s) as Hh.
  destruct (drop_while is_space s) as [|c t]; [congruence|].
  replace (rev (c :: t)) with (rev t ++ [c]) by reflexivity.
  destruct (drop_while_snoc is_space (rev t) c Hh) as [l' ->].
  rewrite rev_app_distr. simpl. discriminate.
Qed.

(** ** Assembly of the bibliography text *)

Lemma ends_with_lf_snoc (s : jsstring) : ends_with_lf (s ++ [LF]) = true.
Proof. unfold ends_with_lf. rewrite rev_app_distr. reflexivity. Qed.

Lemma append_part_kept bib part :
  truthy (trim part) = true ->
  (bib = [] \/ ends_with_lf bib = true) ->
  Action.append_part bib part = bib ++ trim part ++ [LF].
Proof.
  intros Ht Hb. unfold Action.append_part.
  assert (Hp : truthy part = true).
  { destruct part; [discriminate Ht|reflexivity]. }
  rewrite Hp, Ht. simpl.
  destruct Hb as [-> | Hb]; [reflexivity|].
  rewrite Hb. simpl. now rewrite andb_false_r.
Qed.

Lemma append_part_dropped bib part :
  truthy (trim part) = false -> Action.append_part bib part = bib.
Proof.
  intros Ht. unfold Action.append_part. rewrite Ht. now rewrite andb_false_r.
Qed.

Lemma fold_append_part parts : forall bib,
  (bib = [] \/ ends_with_lf bib = true) ->
  fold_left Action.append_part parts bib
  = bib ++ concat (List.map (fun p => trim p ++ [LF])
                     (List.filter (fun p => truthy (trim p)) parts)).
Proof.
  induction parts as [|p parts IH]; intros bib Hb; simpl.
  - now rewrite app_nil_r.
  - destruct (truthy (trim p)) eqn:Ht.
    + rewrite (append_part_kept _ _ Ht Hb). rewrite IH.
      * simpl. now rewrite <- !app_assoc.
      * right. rewrite app_assoc. apply ends_with_lf_snoc.
    + rewrite (append_part_dropped _ _ Ht). now apply IH.
Qed.

Lemma bib_loop_assemble fetchBib keys : forall fuel i bib bodies,
  List.map (fun j => fetchBib (slice j (j + 50) keys)) (chunk_starts fuel i (length keys))
  = List.map Some bodies ->
  (length keys <= i + 50 * fuel)%nat ->
  Action.bib_loop fetchBib keys fuel i bib = Done (fold_left Action.append_part bodies bib).
Proof.
  induction fuel as [|fuel IH]; intros i bib bodies Hm Hf; simpl in *.
  - destruct bodies; [|discriminate].
    destruct (Nat.ltb_spec i (length keys)); [lia|reflexivity].
  - destruct (Nat.ltb_spec i (length keys)).
    + destruct bodies as [|b bodies]; [discriminate|]. simpl in Hm.
      injection Hm as Hb Hm. rewrite Hb. simpl. apply IH; [exact Hm|lia].
    + destruct bodies; [reflexivity|discriminate].
Qed.

(** C7. The text assembled from the bodies of the batches is the
    concatenation, in fetch order, of the trimmed text of every block that
    is not empty after trimming, each followed by one newline; a trimmed
    block neither starts nor ends with white space, so two consecutive
    blocks are separated by exactly one newline; the text ends in a newline
    as soon as one block is kept; blocks that are empty or only white space
    contribute nothing; and the loop of [run] over the batches of 50 keys
    computes this text from the bodies the server returns. *)
Theorem raw_bib_text_assembly :
  (forall parts : list jsstring,
     assemble parts
     = concat (List.map (fun p => trim p ++ [LF])
                 (List.filter (fun p => truthy (trim p)) parts)))
  /\ (forall p : jsstring,
        match trim p with [] => True | c :: _ => is_space c = false end
        /\ match rev (trim p) with [] => True | c :: _ => is_space c = false end)
  /\ (forall parts : list jsstring,
        existsb (fun p => truthy (trim p)) parts = true ->
        ends_with_lf (assemble parts) = true)
  /\ (forall parts1 p parts2,
        forallb is_space p = true ->
        assemble (parts1 ++ p :: parts2) = assemble (parts1 ++ parts2))
  /\ (forall fetchBib keys bodies,
        List.map (fun j => fetchBib (slice j (j + 50) keys))
          (chunk_starts (length keys) 0 (length keys))
        = List.map Some bodies ->
        Action.bib_loop fetchBib keys (length keys) 0 [] = Done (assemble bodies)).
Proof.
  assert (Hform : forall parts, assemble parts
     = concat (List.map (fun p => trim p ++ [LF])
                 (List.filter (fun p => truthy (trim p)) parts))).
  { intros parts. unfold assemble. rewrite fold_append_part by now left. reflexivity. }
  split; [exact Hform|]. split; [|split; [|split]].
  - intros p. split; [apply trim_head|apply trim_last].
  - intros parts Hex. rewrite Hform.
    induction parts as [|p parts IH] using rev_ind; [discriminate|].
    rewrite List.filter_app, List.map_app, concat_app. simpl.
    rewrite existsb_app in Hex. simpl in Hex. rewrite orb_false_r in Hex.
    destruct (truthy (trim p)) eqn:Ht; simpl.
    + rewrite !app_nil_r, !app_assoc. apply ends_with_lf_snoc.
    + rewrite orb_false_r in Hex. rewrite app_nil_r. now apply IH.
  - intros parts1 p parts2 Hp. rewrite !Hform.
    rewrite !List.filter_app. simpl. now rewrite (trim_blank _ Hp).
  - intros fetchBib keys bodies Hm. unfold assemble.
    apply bib_loop_assemble; [exact Hm|lia].
Qed.

Lemma raw_bib_text_assembly_witness :
  ends_with_lf (assemble [u "  @a{k,}  " ++ [LF]; [LF; 32]; u "@b{j,}"]) = true
  /\ assemble ([u " @a{k,}"] ++ [LF; 32] :: [u "@b{j,}"])
     = assemble ([u " @a{k,}"] ++ [u "@b{j,}"])
  /\ Action.bib_loop (fun keys => Some (concat keys ++ [LF])) [u "K1"; u "K2"] 2 0 []
     = Done (assemble [u "K1K2" ++ [LF]]).
Proof.
  destruct raw_bib_text_assembly as (_ & _ & Hend & Hblank & Hloop).
  split; [|split].
  - apply Hend. reflexivity.
  - apply Hblank. reflexivity.
  - apply (Hloop (fun keys => Some (concat keys ++ [LF])) [u "K1"; u "K2"]
             [u "K1K2" ++ [LF]]). reflexivity.
Defined.

(** ** Item keys and the indexes *)

Lemma split_on_nonempty sep (s : jsstring) : split_on sep s <> [].
Proof.
  induction s as [|c t IH]; simpl; [discriminate|].
  destruct (c =? sep); [discriminate|].
  destruct (split_on sep t); [contradiction|discriminate].
Qed.

Lemma split_on_app sep (pre s : jsstring) :
  split_on sep (pre ++ sep :: s) = split_on sep pre ++ split_on sep s.
Proof.
  induction pre as [|c pre IH]; simpl.
  - now rewrite N.eqb_refl.
  - destruct (c =? sep); [now rewrite IH|].
    rewrite IH. pose proof (split_on_nonempty sep pre) as Hne.
    destruct (split_on sep pre) as [|seg segs]; [contradiction|reflexivity].
Qed.

Lemma split_on_no_sep sep (s : jsstring) :
  forallb (fun c => negb (c =? sep)) s = true -> split_on sep s = [s].
Proof.
  induction s as [|c t IH]; simpl; [reflexivity|].
  destruct (c =? sep); simpl; [discriminate|].
  intros H. now rewrite (IH H).
Qed.

Lemma pop_app (l1 l2 : list jsstring) : l2 <> [] -> pop (l1 ++ l2) = pop l2.
Proof.
  intros Hne. unfold pop. induction l1 as [|a l1 IH]; [reflexivity|].
  simpl. destruct (l1 ++ l2) eqn:E; [|exact IH].
  destruct l1; simpl in E; [contradiction|discriminate].
Qed.

(** The key is what follows the last slash of a string id. *)
Lemma item_key_after_last_slash (pre key : jsstring) nt ty :
  forallb (fun c => negb (c =? 47)) key = true ->
  Action.item_key {| id := VString (pre ++ 47 :: key); note := nt; type := ty |} = key.
Proof.
  intros Hk. unfold Action.item_key. simpl.
  rewrite split_on_app, pop_app by apply split_on_nonempty.
  now rewrite (split_on_no_sep _ _ Hk).
Qed.

Lemma index_step_dropped ix it :
  Action.item_key it = [] -> Action.index_step ix it = ix.
Proof. intros H. unfold Action.index_step. now rewrite H. Qed.

Lemma index_step_keys ix it :
  itemKeys (Action.index_step ix it)
  = itemKeys ix ++ (if truthy (Action.item_key it) then [Action.item_key it] else []).
Proof.
  unfold Action.index_step.
  destruct (truthy (Action.item_key it)); simpl; [reflexivity|now rewrite app_nil_r].
Qed.

Lemma fold_index_keys items : forall ix,
  itemKeys (fold_left Action.index_step items ix)
  = itemKeys ix ++ List.filter truthy (List.map Action.item_key items).
Proof.
  induction items as [|it items IH]; intros ix; simpl; [now rewrite app_nil_r|].
  rewrite IH, index_step_keys.
  destruct (truthy (Action.item_key it)); simpl.
  - now rewrite <- app_assoc.
  - now rewrite app_nil_r.
Qed.

Lemma index_step_no_empty_key ix it :
  no_empty_key ix -> no_empty_key (Action.index_step ix it).
Proof.
  intros (Hp & Ht & Hk). unfold Action.index_step.
  destruct (truthy (Action.item_key it)) eqn:E; simpl; [|now repeat split].
  apply truthy_true in E.
  repeat split; simpl.
  - destruct (Action.pinnedFromNote (note it)) as [p|]; [|exact Hp].
    destruct (truthy p); [|exact Hp].
    rewrite lookup_insert_ne; [exact Hp|exact E].
  - destruct (type it) as [t|]; [|exact Ht].
    destruct (truthy t); [|exact Ht].
    rewrite lookup_insert_ne; [exact Ht|exact E].
  - rewrite in_app_iff. intros [H|[H|[]]]; [now apply Hk|congruence].
Qed.

Lemma build_index_no_empty_key items : no_empty_key (Action.build_index items).
Proof.
  unfold Action.build_index.
  assert (H0 : no_empty_key Action.empty_index).
  { repeat split; simpl; auto. }
  revert H0. generalize Action.empty_index.
  induction items as [|it items IH]; intros ix Hix; simpl; [exact Hix|].
  apply IH, index_step_no_empty_key, Hix.
Qed.

(** C8. The item key of an entry is what follows the last slash of its id
    (["12345/ABCDEF12"] gives ["ABCDEF12"]); an entry whose id is missing, is
    not a string, or gives an empty key is dropped: the indexes built with
    it are the indexes built without it, the list of keys holds exactly the
    non-empty keys of the entries in order, and the empty key is in none of
    [itemKeys], [pinnedMap] and [typeHints]. *)
Theorem dropped_entry_invariant :
  (forall (pre key : jsstring) nt ty,
     forallb (fun c => negb (c =? 47)) key = true ->
     Action.item_key {| id := VString (pre ++ 47 :: key); note := nt; type := ty |} = key)
  /\ (forall (key : jsstring) nt ty,
        forallb (fun c => negb (c =? 47)) key = true ->
        Action.item_key {| id := VString key; note := nt; type := ty |} = key)
  /\ Action.item_key {| id := VString (u "12345/ABCDEF12"); note := None; type := None |}
     = u "ABCDEF12"
  /\ (forall it : CSLItem,
        id it = VUndefined \/ id it = VOther \/ id it = VString [] ->
        Action.item_key it = [])
  /\ (forall items : list CSLItem,
        itemKeys (Action.build_index items)
        = List.filter truthy (List.map Action.item_key items))
  /\ (forall (items1 : list CSLItem) it items2,
        Action.item_key it = [] ->
        Action.build_index (items1 ++ it :: items2) = Action.build_index (items1 ++ items2))
  /\ (forall items : list CSLItem,
        pinnedMap (Action.build_index items) !! ([] : list N) = None
        /\ typeHints (Action.build_index items) !! ([] : list N) = None
        /\ ~ In [] (itemKeys (Action.build_index items))).
Proof.
  split; [exact item_key_after_last_slash|].
  split.
  { intros key nt ty Hk. unfold Action.item_key. simpl.
    now rewrite (split_on_no_sep _ _ Hk). }
  split; [reflexivity|].
  split; [|split; [|split]].
  - intros it [H|[H|H]]; unfold Action.item_key; now rewrite H.
  - intros items. unfold Action.build_index. now rewrite fold_index_keys.
  - intros items1 it items2 H. unfold Action.build_index.
    rewrite !fold_left_app. simpl. now rewrite (index_step_dropped _ _ H).
  - exact build_index_no_empty_key.
Qed.

Lemma dropped_entry_invariant_witness :
  Action.item_key {| id := VString (u "12345" ++ 47 :: u "ABCDEF12"); note := None; type := None |}
  = u "ABCDEF12"
  /\ Action.build_index
       ([ {| id := VString (u "1/K1"); note := None; type := Some (u "book") |} ]
        ++ {| id := VOther; note := Some (u "Citation Key: Lost"); type := Some (u "book") |}
        :: [ {| id := VString (u "1/K2"); note := None; type := None |} ])
     = Action.build_index
       ([ {| id := VString (u "1/K1"); note := None; type := Some (u "book") |} ]
        ++ [ {| id := VString (u "1/K2"); note := None; type := None |} ]).
Proof.
  destruct dropped_entry_invariant as (Hkey & _ & _ & Hid & _ & Hdrop & _).
  split.
  - apply Hkey. reflexivity.
  - apply Hdrop. apply Hid. right. left. reflexivity.
Defined.

(** ** Numbers and their decimal rendering *)

Lemma take_while_all p (s : jsstring) : forallb p s = true -> take_while p s = s.
Proof.
  induction s as [|c t IH]; simpl; [reflexivity|].
  destruct (p c); simpl; [|discriminate]. intros H. now rewrite IH.
Qed.

Lemma digits_value_rev (ds : jsstring) : digits_value (rev ds) = le_value ds.
Proof.
  unfold digits_value. rewrite <- fold_left_rev_right, rev_involutive.
  induction ds as [|c t IH]; simpl; [reflexivity|]. rewrite IH. lia.
Qed.

Lemma digits_rev_spec : forall fuel n,
  (N.to_nat n < fuel)%nat ->
  forallb is_digit (digits_rev fuel n) = true
  /\ digits_rev fuel n <> []
  /\ le_value (digits_rev fuel n) = Z.of_N n.
Proof.
  induction fuel as [|fuel IH]; intros n Hn; [lia|]. simpl.
  destruct (N.ltb_spec n 10) as [Hlt|Hge].
  - simpl. repeat split; [|discriminate|].
    + unfold is_digit. rewrite andb_true_r.
      apply andb_true_intro. split; apply N.leb_le; lia.
    + replace (48 + n - 48) with n by lia. lia.
  - assert (Hdiv : (N.to_nat (n / 10) < fuel)%nat).
    { assert (n / 10 < n) by (apply N.div_lt; lia). lia. }
    destruct (IH _ Hdiv) as (Hd & _ & Hv). simpl.
    repeat split; [|discriminate|].
    + rewrite Hd, andb_true_r. unfold is_digit.
      assert (n mod 10 < 10) by (apply N.mod_upper_bound; lia).
      generalize dependent (n mod 10). intros m Hm.
      apply andb_true_intro. split; apply N.leb_le; lia.
    + rewrite Hv. clear Hv Hd Hdiv IH.
      assert (Hm : n mod 10 < 10) by (apply N.mod_upper_bound; lia).
      assert (Hn' : n = 10 * (n / 10) + n mod 10) by (apply N.div_mod; lia).
      revert Hm Hn'. generalize (n mod 10) (n / 10). intros m q Hm Hn'.
      replace (48 + m - 48) with m by lia. lia.
Qed.

Lemma is_digit_not_space c : is_digit c = true -> is_space c = false.
Proof.
  unfold is_digit, is_space. intros H.
  apply andb_prop in H as [H1 H2]. apply N.leb_le in H1, H2.
  repeat match goal with
  | |- context [?a <=? ?b] => destruct (N.leb_spec a b); try lia
  | |- context [?a =? ?b] => destruct (N.eqb_spec a b); try lia
  end; reflexivity.
Qed.

Lemma parseInt_digits (ds : jsstring) :
  ds <> [] -> forallb is_digit ds = true -> parseInt ds = Some (digits_value ds).
Proof.
  intros Hne Hd. destruct ds as [|c t]; [contradiction|].
  pose proof Hd as Hd'. simpl in Hd'. apply andb_prop in Hd' as [Hc Ht].
  unfold parseInt. simpl drop_while. rewrite (is_digit_not_space _ Hc).
  assert (H45 : (c =? 45) = false).
  { unfold is_digit in Hc. apply andb_prop in Hc as [H1 _].
    apply N.leb_le in H1. apply N.eqb_neq. lia. }
  assert (H43 : (c =? 43) = false).
  { unfold is_digit in Hc. apply andb_prop in Hc as [H1 _].
    apply N.leb_le in H1. apply N.eqb_neq. lia. }
  rewrite H45, H43. rewrite (take_while_all _ _ Hd).
  f_equal. lia.
Qed.

(** Parsing the rendering of a length gives the length back. *)
Lemma parseInt_number_to_string (n : nat) :
  parseInt (number_to_string n) = Some (Z.of_nat n).
Proof.
  unfold number_to_string.
  destruct (digits_rev_spec (S n) (N.of_nat n)) as (Hd & Hne & Hv); [lia|].
  rewrite parseInt_digits.
  - rewrite digits_value_rev, Hv. f_equal. lia.
  - intros H. apply Hne. apply (f_equal (@rev N)) in H.
    now rewrite rev_involutive in H.
  - rewrite forallb_forall in *. intros x Hx. apply Hd. now apply in_rev.
Qed.

(** *** The number value of the total

    [parseInt] gives a number, the number value of the integer it reads:
    that integer when it is at most 2^53 in absolute value, and beyond a
    rounding of it, which keeps the order (an integer too large for a
    number gives [Infinity], which compares as a larger one does).  For the
    length of an array, which is below 2^53, comparing with the integer read
    and comparing with its number value give the same result. *)
Section NumberValue.

Variable number_value : Z -> Z.
Hypothesis number_value_monotone :
  forall x y : Z, (x <= y)%Z -> (number_value x <= number_value y)%Z.
Hypothesis number_value_exact :
  forall x : Z, (- 9007199254740992 <= x <= 9007199254740992)%Z -> number_value x = x.

Lemma ge_number_value (n : nat) (total : option Z) :
  (Z.of_nat n < 9007199254740992)%Z ->
  ge_number n (option_map number_value total) = ge_number n total.
Proof.
  intros Hn. destruct total as [t|]; [|reflexivity]. cbn [option_map ge_number].
  destruct (Z.leb_spec t (Z.of_nat n)) as [Hle|Hgt].
  - apply Z.leb_le.
    destruct (Z_le_gt_dec (- 9007199254740992) t) as [Hlow|Hlow].
    + rewrite number_value_exact by lia. exact Hle.
    + assert (H : (number_value t <= number_value (- 9007199254740992))%Z)
        by (apply number_value_monotone; lia).
      rewrite (number_value_exact (- 9007199254740992)%Z) in H by lia. lia.
  - apply Z.leb_gt.
    assert (H : (number_value (Z.of_nat n + 1) <= number_value t)%Z)
      by (apply number_value_monotone; lia).
    rewrite (number_value_exact (Z.of_nat n + 1)%Z) in H by lia. lia.
Qed.

End NumberValue.

(** ** Pagination *)

Section Pagination.

Variable server : nat -> response.

Lemma fetch_loop_sound : forall fuel start all log all' log',
  Action.fetch_loop server fuel start all log = Done (all', log') ->
  exists starts,
    Pages server start all starts
    /\ log' = log ++ starts
    /\ all' = all ++ concat (List.map (page_of server) starts).
Proof.
  induction fuel as [|fuel IH]; intros start all log all' log' H; simpl in H;
    [discriminate|].
  destruct (ok (server start)) eqn:Hok; simpl in H; [|discriminate].
  destruct (stops server start all) eqn:Hs;
    pose proof Hs as Hs'; unfold stops, total_of, page_of in Hs'; rewrite Hs' in H.
  - injection H as <- <-. exists [start]. split; [now constructor|].
    split; [reflexivity|]. simpl. now rewrite app_nil_r.
  - apply IH in H as (starts & HP & -> & ->).
    exists (start :: starts). split; [now constructor|].
    split; [now rewrite <- app_assoc|]. simpl. now rewrite <- app_assoc.
Qed.

Lemma fetch_loop_complete : forall start all starts,
  Pages server start all starts ->
  forall fuel log, (length starts <= fuel)%nat ->
  Action.fetch_loop server fuel start all log
  = Done (all ++ concat (List.map (page_of server) starts), log ++ starts).
Proof.
  induction 1 as [s acc Hok Hs | s acc starts Hok Hs HP IH]; intros fuel log Hf;
    (destruct fuel as [|fuel]; [simpl in Hf; lia|]); simpl;
    rewrite Hok; simpl;
    pose proof Hs as Hs'; unfold stops, total_of, page_of in Hs'; rewrite Hs'.
  - now rewrite app_nil_r.
  - rewrite IH by (simpl in Hf; lia).
    now rewrite <- !app_assoc.
Qed.

(** Without the header, or with an empty one, the total is the size of the
    page, and the loop stops at that page. *)
Lemma total_of_default s :
  total_results (server s) = None \/ total_results (server s) = Some [] ->
  total_of server s = Some (Z.of_nat (length (page_of server s))).
Proof.
  intros [H|H]; unfold total_of; rewrite H; simpl; apply parseInt_number_to_string.
Qed.

Lemma stops_default s acc :
  total_results (server s) = None \/ total_results (server s) = Some [] ->
  stops server s acc = true.
Proof.
  intros H. unfold stops. rewrite (total_of_default s H). simpl.
  rewrite length_app. apply orb_true_intro. right. apply Z.leb_le. lia.
Qed.

End Pagination.

(** C3, as amended.  Starting at offset 0 and adding to the offset the size
    of each page, [fetchAllParentsCSL] requests pages until one has fewer
    than 100 items or the items accumulated reach the total of that
    response, and returns the concatenation of the pages in order: every
    result of the loop is such a sequence of requests, and every such
    sequence is the result as soon as the fuel covers it.  Without the
    [Total-Results] header the total is the size of the page, so the loop
    stops at that page.  For pages of sizes 100, 100, 100 and 40 the
    requests are exactly the four starts 0, 100, 200 and 300 provided the
    first three responses report a total that the accumulated count has not
    reached (for instance [Total-Results: 340]). *)
Theorem pagination_requests :
  (forall server fuel all log,
     Action.fetchAllParentsCSL server fuel = Done (all, log) ->
     Pages server 0 [] log /\ all = concat (List.map (page_of server) log))
  /\ (forall server log fuel,
        Pages server 0 [] log -> (length log <= fuel)%nat ->
        Action.fetchAllParentsCSL server fuel
        = Done (concat (List.map (page_of server) log), log))
  /\ (forall server s acc,
        total_results (server s) = None ->
        total_of server s = Some (Z.of_nat (length (page_of server s)))
        /\ stops server s acc = true)
  /\ (forall server fuel,
        ok (server 0%nat) = true -> ok (server 100%nat) = true ->
        ok (server 200%nat) = true -> ok (server 300%nat) = true ->
        length (page_of server 0) = 100%nat ->
        length (page_of server 100) = 100%nat ->
        length (page_of server 200) = 100%nat ->
        length (page_of server 300) = 40%nat ->
        ge_number 100 (total_of server 0) = false ->
        ge_number 200 (total_of server 100) = false ->
        ge_number 300 (total_of server 200) = false ->
        (4 <= fuel)%nat ->
        Action.fetchAllParentsCSL server fuel
        = Done (page_of server 0 ++ page_of server 100 ++ page_of server 200
                ++ page_of server 300,
                [0; 100; 200; 300]%nat)).
Proof.
  split; [|split; [|split]].
  - intros server fuel all log H. unfold Action.fetchAllParentsCSL in H.
    apply fetch_loop_sound in H as (starts & HP & -> & ->). now split.
  - intros server log fuel HP Hf. unfold Action.fetchAllParentsCSL.
    now rewrite (fetch_loop_complete server 0 [] log HP fuel [] Hf).
  - intros server s acc H. split.
    + apply total_of_default. now left.
    + apply stops_default. now left.
  - intros server fuel k0 k1 k2 k3 l0 l1 l2 l3 t0 t1 t2 Hf.
    assert (HP : Pages server 0 [] [0; 100; 200; 300]%nat).
    { apply Pages_more; [exact k0| |].
      { unfold stops. rewrite l0. simpl. rewrite l0. exact t0. }
      rewrite l0. simpl.
      apply Pages_more; [exact k1| |].
      { unfold stops. rewrite length_app, l0, l1. exact t1. }
      rewrite l1. simpl.
      apply Pages_more; [exact k2| |].
      { unfold stops. rewrite !length_app, l0, l1, l2. exact t2. }
      rewrite l2. simpl.
      apply Pages_last; [exact k3|].
      unfold stops. now rewrite l3. }
    unfold Action.fetchAllParentsCSL.
    rewrite (fetch_loop_complete server 0 [] _ HP fuel []) by exact Hf.
    simpl. now rewrite app_nil_r.
Qed.

Lemma pagination_requests_witness :
  Action.fetchAllParentsCSL (paged_server (Some (u "340"))) 4
  = Done (repeat entry0 340, [0; 100; 200; 300]%nat).
Proof.
  destruct pagination_requests as (_ & _ & _ & H).
  rewrite (H (paged_server (Some (u "340"))) 4%nat); reflexivity.
Defined.

(** C3 fails as stated: with pages of sizes 100, 100, 100 and 40 and no
    [Total-Results] header, the loop issues the single request of start 0 and
    returns the first page only. *)
Lemma pagination_without_header :
  List.map (fun s => length (page_of (paged_server None) s)) [0; 100; 200; 300]%nat
  = [100; 100; 100; 40]%nat
  /\ Action.fetchAllParentsCSL (paged_server None) 4
     = Done (repeat entry0 100, [0%nat]).
Proof. split; vm_compute; reflexivity. Qed.

(** ** The matcher only moves forward in the text *)

Lemma extends_refl st : extends st st.
Proof. now exists []. Qed.

Lemma extends_trans st1 st2 st3 :
  extends st1 st2 -> extends st2 st3 -> extends st1 st3.
Proof.
  intros (l1 & H1 & H1') (l2 & H2 & H2'). exists (l1 ++ l2). split.
  - now rewrite H1, H2, app_assoc.
  - now rewrite H2', H1', rev_app_distr, app_assoc.
Qed.

Lemma extends_length st st' : extends st st' -> (length (rest st') <= length (rest st))%nat.
Proof. intros (l & H & _). rewrite H, length_app. lia. Qed.

Lemma extends_same st st' :
  extends st st' -> length (rest st') = length (rest st) ->
  rest st' = rest st /\ before st' = before st.
Proof.
  intros (l & H & H') Hlen. rewrite H, length_app in Hlen.
  destruct l; [now rewrite H, H'|simpl in Hlen; lia].
Qed.

Lemma extends_consumed st st' l :
  rest st = l ++ rest st' -> consumed st st' = l.
Proof.
  intros H. unfold consumed. rewrite H, length_app.
  replace (length l + length (rest st') - length (rest st'))%nat with (length l) by lia.
  now rewrite firstn_app, Nat.sub_diag, firstn_all, app_nil_r.
Qed.

Section Forward.

Variable fl : flags.

Lemma step_char_forward p : forward (step_char p).
Proof.
  intros st k res H. unfold step_char in H.
  destruct (rest st) as [|c t] eqn:E; [discriminate|].
  destruct (p c); [|discriminate].
  exists (advance c t st). split; [|exact H].
  exists [c]. now rewrite E.
Qed.

Lemma rep_loop_forward step k : forward step ->
  forall fuel min st res, rep_loop step k fuel min st = Some res ->
  exists st', extends st st' /\ k st' = Some res.
Proof.
  intros Hstep. induction fuel as [|fuel IH]; intros min st res H; [discriminate|].
  simpl in H. destruct min as [|min].
  - destruct (step st _) as [res'|] eqn:E.
    + injection H as ->. apply Hstep in E as (st1 & Hext & E).
      destruct (same_pos st st1); [discriminate|].
      apply IH in E as (st2 & Hext2 & E). exists st2. split; [|exact E].
      eapply extends_trans; eassumption.
    + exists st. split; [apply extends_refl|exact H].
  - apply Hstep in H as (st1 & Hext & H).
    apply IH in H as (st2 & Hext2 & H). exists st2. split; [|exact H].
    eapply extends_trans; eassumption.
Qed.

Lemma mt_forward r : forward (mt fl r).
Proof.
  unfold forward.
  induction r as [ | c | neg items | r1 IH1 r2 IH2 | r1 IH1 r2 IH2 | min r IH
                 | r IH | i r IH | | | ]; intros st k res H; simpl in H.
  - exists st. split; [apply extends_refl|exact H].
  - exact (step_char_forward _ st k res H).
  - exact (step_char_forward _ st k res H).
  - apply IH1 in H as (st1 & Hext & H). apply IH2 in H as (st2 & Hext2 & H).
    exists st2. split; [|exact H]. eapply extends_trans; eassumption.
  - destruct (mt fl r1 st k) as [res'|] eqn:E.
    + injection H as ->. exact (IH1 _ _ _ E).
    + exact (IH2 _ _ _ H).
  - exact (rep_loop_forward (mt fl r) k IH (S (min + length (rest st))) min st res H).
  - destruct (mt fl r st _) as [res'|] eqn:E.
    + injection H as ->. apply IH in E as (st1 & Hext & E).
      destruct (same_pos st st1); [discriminate|]. now exists st1.
    + exists st. split; [apply extends_refl|exact H].
  - apply IH in H as (st1 & Hext & H).
    exists (set_cap i (consumed st st1) st1). split; [|exact H].
    destruct Hext as (l & H1 & H2). now exists l.
  - destruct (at_bol fl st); [|discriminate].
    exists st. split; [apply extends_refl|exact H].
  - destruct (at_eol fl st); [|discriminate].
    exists st. split; [apply extends_refl|exact H].
  - destruct (at_word_boundary st); [|discriminate].
    exists st. split; [apply extends_refl|exact H].
Qed.

(** A match ends further in the same text. *)
Lemma match_at_forward r bef s st :
  match_at fl r bef s = Some st ->
  exists l, s = l ++ rest st /\ before st = rev l ++ bef.
Proof.
  intros H. unfold match_at in H.
  apply mt_forward in H as (st' & (l & H1 & H2) & H). injection H as ->.
  now exists l.
Qed.

(** *** The scan of [replace] *)

Variable r : regex.
Variable repl : mstate -> jsstring.

Lemma replace_loop_fuel : forall fuel1 fuel2 bef s,
  (length s < fuel1)%nat -> (length s < fuel2)%nat ->
  replace_loop fl r repl fuel1 bef s = replace_loop fl r repl fuel2 bef s.
Proof.
  induction fuel1 as [|fuel1 IH]; intros fuel2 bef s H1 H2; [lia|].
  destruct fuel2 as [|fuel2]; [lia|]. simpl.
  assert (Hskip :
    match s with [] => [] | c :: t => c :: replace_loop fl r repl fuel1 (c :: bef) t end
    = match s with [] => [] | c :: t => c :: replace_loop fl r repl fuel2 (c :: bef) t end).
  { destruct s as [|c t]; [reflexivity|]. simpl in H1, H2.
    f_equal. apply IH; lia. }
  destruct (match_at fl r bef s) as [st|] eqn:E; [|exact Hskip].
  destruct (Nat.eqb_spec (length (rest st)) (length s)) as [Hl|Hl].
  - now rewrite Hskip.
  - f_equal. apply match_at_forward in E as (l & E & _).
    assert (length (rest st) < length s)%nat.
    { rewrite E, length_app in *. lia. }
    apply IH; lia.
Qed.

Lemma replace_loop_S fuel bef s :
  replace_loop fl r repl (S fuel) bef s
  = match match_at fl r bef s with
    | Some st =>
      if Nat.eqb (length (rest st)) (length s)
      then repl st ++ match s with
                      | [] => []
                      | c :: t => c :: replace_loop fl r repl fuel (c :: bef) t
                      end
      else repl st ++ replace_loop fl r repl fuel (before st) (rest st)
    | None =>
      match s with
      | [] => []
      | c :: t => c :: replace_loop fl r repl fuel (c :: bef) t
      end
    end.
Proof. reflexivity. Qed.

Lemma replace_from_nil bef :
  match_at fl r bef [] = None -> replace_from fl r repl bef [] = [].
Proof. intros H. unfold replace_from. rewrite replace_loop_S. now rewrite H. Qed.

Lemma replace_from_skip bef c t :
  match_at fl r bef (c :: t) = None ->
  replace_from fl r repl bef (c :: t) = c :: replace_from fl r repl (c :: bef) t.
Proof.
  intros H. unfold replace_from. rewrite replace_loop_S, H. reflexivity.
Qed.

Lemma replace_from_match bef s st :
  match_at fl r bef s = Some st ->
  length (rest st) <> length s ->
  replace_from fl r repl bef s
  = repl st ++ replace_from fl r repl (before st) (rest st).
Proof.
  intros H Hl. unfold replace_from. rewrite replace_loop_S, H.
  destruct (Nat.eqb_spec (length (rest st)) (length s)); [contradiction|].
  f_equal. apply match_at_forward in H as (l & E & _).
  apply replace_loop_fuel; [|lia].
  rewrite E, length_app in *. lia.
Qed.

(** Text in which no match starts is copied. *)
Lemma replace_from_prefix pre : forall bef s,
  (forall p1 p2, pre = p1 ++ p2 -> p2 <> [] ->
     match_at fl r (rev p1 ++ bef) (p2 ++ s) = None) ->
  replace_from fl r repl bef (pre ++ s)
  = pre ++ replace_from fl r repl (rev pre ++ bef) s.
Proof.
  induction pre as [|c pre IH]; intros bef s H; [reflexivity|].
  simpl. rewrite replace_from_skip.
  - f_equal. rewrite IH.
    + now rewrite <- app_assoc.
    + intros p1 p2 E Hne. specialize (H (c :: p1) p2).
      simpl in H. rewrite <- app_assoc in H. apply H; [now rewrite E|exact Hne].
  - apply (H [] (c :: pre)); [reflexivity|discriminate].
Qed.

End Forward.

(** ** Greedy runs of a class *)

Lemma take_drop_while p (s : jsstring) : take_while p s ++ drop_while p s = s.
Proof.
  induction s as [|c t IH]; simpl; [reflexivity|].
  destruct (p c); simpl; [now rewrite IH|reflexivity].
Qed.

Lemma take_while_forallb p (s : jsstring) : forallb p (take_while p s) = true.
Proof.
  induction s as [|c t IH]; simpl; [reflexivity|].
  destruct (p c) eqn:E; simpl; [now rewrite E|reflexivity].
Qed.

Lemma drop_while_headed p (s : jsstring) : headed p (drop_while p s) = false.
Proof.
  induction s as [|c t IH]; simpl; [reflexivity|].
  destruct (p c) eqn:E; simpl; [exact IH|exact E].
Qed.

Lemma take_while_ext p q (s : jsstring) :
  (forall c, p c = q c) -> take_while p s = take_while q s.
Proof.
  intros H. induction s as [|c t IH]; simpl; [reflexivity|].
  rewrite H, IH. reflexivity.
Qed.

Lemma drop_while_ext p q (s : jsstring) :
  (forall c, p c = q c) -> drop_while p s = drop_while q s.
Proof.
  intros H. induction s as [|c t IH]; simpl; [reflexivity|].
  rewrite H, IH. reflexivity.
Qed.

Lemma take_while_app p (l r : jsstring) :
  forallb p l = true -> headed p r = false -> take_while p (l ++ r) = l.
Proof.
  intros Hl Hr. induction l as [|c l IH]; simpl in *.
  - destruct r as [|x r]; [reflexivity|]. simpl in *. now rewrite Hr.
  - apply andb_prop in Hl as [Hc Hl]. rewrite Hc. now rewrite IH.
Qed.

Lemma drop_while_app p (l r : jsstring) :
  forallb p l = true -> headed p r = false -> drop_while p (l ++ r) = r.
Proof.
  intros Hl Hr. induction l as [|c l IH]; simpl in *.
  - destruct r as [|x r]; [reflexivity|]. simpl in *. now rewrite Hr.
  - apply andb_prop in Hl as [Hc Hl]. rewrite Hc. now apply IH.
Qed.

Lemma eqb_succ_false n : Nat.eqb n (S n) = false.
Proof. apply Nat.eqb_neq. lia. Qed.

Lemma try_back_blocked p k : blocked p k ->
  forall l b c r, forallb p l = true ->
  try_back k b c l r = k (MState (rev l ++ b) r c).
Proof.
  intros Hk. induction l as [|x l IH]; intros b c r Hl; simpl in *; [reflexivity|].
  apply andb_prop in Hl as [Hx Hl]. rewrite (IH _ _ _ Hl).
  rewrite <- app_assoc. simpl.
  destruct (k (MState (rev l ++ x :: b) r c)) as [res|] eqn:E; [reflexivity|].
  apply Hk. exact Hx.
Qed.

(** The first attempt of a greedy run wins when it succeeds. *)
Lemma try_back_first k l : forall b c r res,
  k (MState (rev l ++ b) r c) = Some res -> try_back k b c l r = Some res.
Proof.
  induction l as [|x l IH]; intros b c r res H; simpl in *; [exact H|].
  rewrite <- app_assoc in H. simpl in H. now rewrite (IH _ _ _ _ H).
Qed.

Section ClassRuns.

Variable fl : flags.
Variables (neg : bool) (items : list cls_item).

Let P := cls_match fl neg items.

Lemma rep_loop_cls k : forall l b c r fuel,
  forallb P l = true -> headed P r = false ->
  (length (l ++ r) < fuel)%nat ->
  rep_loop (mt fl (Cls neg items)) k fuel 0 (MState b (l ++ r) c)
  = try_back k b c l r.
Proof.
  induction l as [|x l IH]; intros b c r fuel Hl Hr Hf;
    (destruct fuel as [|fuel]; [simpl in Hf; lia|]); simpl.
  - unfold step_char. simpl. destruct r as [|y r]; [reflexivity|].
    simpl in Hr. fold P. now rewrite Hr.
  - simpl in Hl. apply andb_prop in Hl as [Hx Hl].
    unfold step_char. simpl. fold P. rewrite Hx.
    unfold same_pos, advance. simpl. rewrite eqb_succ_false.
    rewrite IH; [reflexivity|exact Hl|exact Hr|simpl in Hf; lia].
Qed.

Lemma mt_star_cls b s c k :
  mt fl (Rep 0 (Cls neg items)) (MState b s c) k
  = try_back k b c (take_while P s) (drop_while P s).
Proof.
  change (mt fl (Rep 0 (Cls neg items)) (MState b s c) k)
    with (rep_loop (mt fl (Cls neg items)) k (S (0 + length s)) 0 (MState b s c)).
  rewrite <- (take_drop_while P s) at 2.
  apply rep_loop_cls.
  - apply take_while_forallb.
  - apply drop_while_headed.
  - rewrite take_drop_while. simpl. lia.
Qed.

Lemma mt_plus_cls b s c k :
  mt fl (Rep 1 (Cls neg items)) (MState b s c) k
  = match take_while P s with
    | [] => None
    | x :: l => try_back k (x :: b) c l (drop_while P s)
    end.
Proof.
  change (mt fl (Rep 1 (Cls neg items)) (MState b s c) k)
    with (step_char P (MState b s c)
            (fun st' => rep_loop (mt fl (Cls neg items)) k (1 + length s) 0 st')).
  destruct s as [|x t]; [reflexivity|].
  unfold step_char. cbn [rest take_while drop_while].
  destruct (P x) eqn:Hx; [|reflexivity].
  change (advance x t (MState b (x :: t) c)) with (MState (x :: b) t c).
  pose proof (rep_loop_cls k (take_while P t) (x :: b) c (drop_while P t)
                (1 + length (x :: t)) (take_while_forallb P t)
                (drop_while_headed P t)) as H.
  rewrite take_drop_while in H. apply H. simpl. lia.
Qed.

(** A run followed by a continuation that it blocks takes all it can. *)
Lemma mt_star_blocked p b s c k :
  (forall x, P x = p x) -> blocked p k ->
  mt fl (Rep 0 (Cls neg items)) (MState b s c) k
  = k (MState (rev (take_while p s) ++ b) (drop_while p s) c).
Proof.
  intros Hp Hk. rewrite mt_star_cls.
  rewrite (take_while_ext P p s Hp), (drop_while_ext P p s Hp).
  apply (try_back_blocked p k Hk). apply take_while_forallb.
Qed.

Lemma mt_plus_blocked p b s c k :
  (forall x, P x = p x) -> blocked p k ->
  mt fl (Rep 1 (Cls neg items)) (MState b s c) k
  = match take_while p s with
    | [] => None
    | _ => k (MState (rev (take_while p s) ++ b) (drop_while p s) c)
    end.
Proof.
  intros Hp Hk. rewrite mt_plus_cls.
  rewrite (take_while_ext P p s Hp), (drop_while_ext P p s Hp).
  pose proof (take_while_forallb p s) as Hall.
  destruct (take_while p s) as [|x l]; [reflexivity|].
  simpl in Hall. apply andb_prop in Hall as [_ Hall].
  rewrite (try_back_blocked p k Hk l _ _ _ Hall).
  simpl. now rewrite <- app_assoc.
Qed.

End ClassRuns.

(** ** Classes and literals when letter case is ignored *)

Ltac cases_on_comparisons :=
  repeat match goal with
  | |- context [N.leb ?a ?b] => destruct (N.leb_spec a b); try lia
  | |- context [N.eqb ?a ?b] => destruct (N.eqb_spec a b); try lia
  end.

Ltac list_norm := repeat (cbn [app]; rewrite <- app_assoc); cbn [app].

Ltac rev_norm :=
  repeat (progress (cbn [rev app]; rewrite ?rev_app_distr, <- ?app_assoc)).

Lemma is_space_range c : (33 <= c)%N -> (c <= 159)%N -> is_space c = false.
Proof. intros H1 H2. unfold is_space. cases_on_comparisons; reflexivity. Qed.

Lemma is_letter_range c :
  is_letter c = true <-> (65 <= c <= 90)%N \/ (97 <= c <= 122)%N.
Proof.
  unfold is_letter, is_upper, is_lower. split.
  - intros H. apply orb_prop in H as [H|H]; apply andb_prop in H as [H1 H2];
      apply N.leb_le in H1, H2; lia.
  - intros [[H1 H2]|[H1 H2]]; apply N.leb_le in H1, H2; rewrite H1, H2;
      [reflexivity|apply orb_true_r].
Qed.

Lemma letter_not_space c : is_letter c = true -> is_space c = false.
Proof. intros H. apply is_letter_range in H. apply is_space_range; lia. Qed.

Lemma swap_case_letter c : is_letter c = true -> is_letter (swap_case c) = true.
Proof.
  intros H. apply is_letter_range in H. apply is_letter_range.
  unfold swap_case, is_lower, is_upper. cases_on_comparisons; simpl; lia.
Qed.

Lemma swap_case_other c : is_letter c = false -> swap_case c = c.
Proof.
  unfold is_letter, swap_case. intros H. apply orb_false_elim in H as [-> ->].
  reflexivity.
Qed.

(** A set without letters is the same set when letter case is ignored. *)
Lemma cls_match_letter_free fl neg items c :
  (forall x, is_letter x = true -> class_mem items x = false) ->
  cls_match fl neg items c = xorb neg (class_mem items c).
Proof.
  intros H. unfold cls_match. destruct (ignoreCase fl); [|reflexivity].
  f_equal. destruct (is_letter c) eqn:E.
  - rewrite (H _ E), (H _ (swap_case_letter _ E)). reflexivity.
  - rewrite (swap_case_other _ E). apply orb_diag.
Qed.

Lemma letter_not_char a x : is_letter a = false -> is_letter x = true -> (x =? a) = false.
Proof. intros Ha Hx. apply N.eqb_neq. intros ->. congruence. Qed.

Lemma cls_space fl c : cls_match fl false [CSpace] c = is_space c.
Proof.
  rewrite cls_match_letter_free.
  - simpl. now rewrite orb_false_r.
  - intros x Hx. simpl. now rewrite (letter_not_space _ Hx).
Qed.

Lemma cls_not_rbrace fl c : cls_match fl true [CChar 125] c = not_rbrace c.
Proof.
  rewrite cls_match_letter_free.
  - unfold not_rbrace. simpl. now rewrite orb_false_r.
  - intros x Hx. simpl. now rewrite (letter_not_char 125 x eq_refl Hx).
Qed.

Lemma cls_no_brace fl c : cls_match fl true [CChar 123; CChar 125] c = no_brace_char c.
Proof.
  rewrite cls_match_letter_free.
  - unfold no_brace_char. simpl. now rewrite orb_false_r.
  - intros x Hx. simpl.
    now rewrite (letter_not_char 123 x eq_refl Hx), (letter_not_char 125 x eq_refl Hx).
Qed.

Lemma cls_tok fl c : cls_match fl true [CSpace; CChar 35] c = tok_char c.
Proof.
  rewrite cls_match_letter_free.
  - unfold tok_char. simpl. now rewrite orb_false_r.
  - intros x Hx. simpl.
    now rewrite (letter_not_space _ Hx), (letter_not_char 35 x eq_refl Hx).
Qed.

Lemma cls_word c : cls_match f_g false [CWord] c = is_word c.
Proof. unfold cls_match. simpl. now rewrite orb_false_r. Qed.

Lemma cls_not_comma c : cls_match f_g true [CChar 44] c = not_comma c.
Proof. unfold cls_match, not_comma. simpl. now rewrite orb_false_r. Qed.

(** A pattern character that is not a letter matches itself only. *)
Lemma chr_match_nonletter fl a c : is_letter a = false -> chr_match fl a c = (c =? a).
Proof.
  intros Ha. unfold chr_match. destruct (ignoreCase fl); [|reflexivity].
  unfold is_letter in Ha. apply orb_false_elim in Ha as [Hu Hl].
  unfold canonicalize. rewrite Hl.
  destruct (is_lower c) eqn:Hc; [|reflexivity].
  destruct (N.eqb_spec (c - 32) a) as [E|E].
  - exfalso. unfold is_lower, is_upper in *.
    apply andb_prop in Hc as [H1 H2]. apply N.leb_le in H1, H2.
    assert (Hu' : ((65 <=? a) && (a <=? 90))%N = true).
    { apply andb_true_intro. split; apply N.leb_le; lia. }
    congruence.
  - symmetry. apply N.eqb_neq. intros ->. congruence.
Qed.

(** A pattern character matches itself or a letter. *)
Lemma chr_match_cases fl a c :
  chr_match fl a c = true -> c = a \/ is_letter c = true.
Proof.
  unfold chr_match. destruct (ignoreCase fl).
  - unfold canonicalize. intros H. apply N.eqb_eq in H.
    destruct (is_lower c) eqn:Hc.
    + right. unfold is_letter. rewrite Hc. apply orb_true_r.
    + destruct (is_lower a) eqn:Ha; [|now left].
      right. apply is_letter_range. unfold is_lower in Ha.
      apply andb_prop in Ha as [H1 H2]. apply N.leb_le in H1, H2. lia.
  - intros H. apply N.eqb_eq in H. now left.
Qed.

Lemma space_blocks_chr fl a x :
  is_space a = false -> is_space x = true -> chr_match fl a x = false.
Proof.
  intros Ha Hx. destruct (chr_match fl a x) eqn:E; [|reflexivity].
  apply chr_match_cases in E as [->|E]; [congruence|].
  apply letter_not_space in E. congruence.
Qed.

(** *** Unfolding the matcher on one construct *)

Section Unfold.

Variable fl : flags.

Lemma mt_seq r1 r2 st k :
  mt fl (Seq r1 r2) st k = mt fl r1 st (fun st' => mt fl r2 st' k).
Proof. reflexivity. Qed.

Lemma mt_grp i r st k :
  mt fl (Grp i r) st k = mt fl r st (fun st' => k (set_cap i (consumed st st') st')).
Proof. reflexivity. Qed.

Lemma mt_chr a b s c k :
  mt fl (Chr a) (MState b s c) k
  = match s with
    | x :: t => if chr_match fl a x then k (MState (x :: b) t c) else None
    | [] => None
    end.
Proof. reflexivity. Qed.

Lemma mt_lit pat : forall b s c k,
  mt fl (lit_of pat) (MState b s c) k
  = match strip_lit fl pat s with
    | Some (m, r) => k (MState (rev m ++ b) r c)
    | None => None
    end.
Proof.
  induction pat as [|a pat IH]; intros b s c k; [reflexivity|].
  destruct pat as [|a' pat].
  - simpl lit_of. rewrite mt_chr. simpl.
    destruct s as [|x t]; [reflexivity|]. now destruct (chr_match fl a x).
  - change (lit_of (a :: a' :: pat)) with (Seq (Chr a) (lit_of (a' :: pat))).
    rewrite mt_seq, mt_chr.
    destruct s as [|x t]; [reflexivity|].
    change (strip_lit fl (a :: a' :: pat) (x :: t))
      with (if chr_match fl a x then
              match strip_lit fl (a' :: pat) t with
              | Some (m, r) => Some (x :: m, r)
              | None => None
              end
            else None).
    destruct (chr_match fl a x); [|reflexivity].
    rewrite IH. destruct (strip_lit fl (a' :: pat) t) as [[m r]|]; [|reflexivity].
    simpl. now rewrite <- app_assoc.
Qed.

Lemma strip_lit_app pat : forall s m r,
  strip_lit fl pat s = Some (m, r) -> s = m ++ r /\ length m = length pat.
Proof.
  induction pat as [|a pat IH]; intros s m r H; simpl in H.
  - injection H as <- <-. now split.
  - destruct s as [|x t]; [discriminate|].
    destruct (chr_match fl a x); [|discriminate].
    destruct (strip_lit fl pat t) as [[m' r']|] eqn:E; [|discriminate].
    injection H as <- <-. apply IH in E as [-> El]. simpl. now rewrite El.
Qed.

End Unfold.

(** ** Field assignments *)

Lemma field_at_app name s g1 content post :
  field_at name s = Some (g1, content, post) ->
  s = g1 ++ content ++ 125 :: post.
Proof.
  unfold field_at. intros H.
  destruct (strip_lit f_gi name s) as [[nm s1]|] eqn:E1; [|discriminate].
  apply strip_lit_app in E1 as [-> _].
  pose proof (take_drop_while is_space s1) as T1.
  destruct (drop_while is_space s1) as [|x s2]; [discriminate|].
  destruct (N.eqb_spec x 61) as [->|]; [|discriminate].
  pose proof (take_drop_while is_space s2) as T2.
  destruct (drop_while is_space s2) as [|y s3]; [discriminate|].
  destruct (N.eqb_spec y 123) as [->|]; [|discriminate].
  pose proof (take_drop_while not_rbrace s3) as T3.
  destruct (take_while not_rbrace s3) as [|c0 content0] eqn:E3; [discriminate|].
  destruct (drop_while not_rbrace s3) as [|z post0]; [discriminate|].
  destruct (N.eqb_spec z 125) as [->|]; [|discriminate].
  injection H as <- <- <-.
  transitivity (nm ++ (take_while is_space s1
                       ++ 61 :: (take_while is_space s2
                                 ++ 123 :: ((c0 :: content0) ++ 125 :: post0)))).
  - now rewrite T3, T2, T1.
  - list_norm. reflexivity.
Qed.

Lemma match_at_field name b s :
  match_at f_gi (Action.field_rx name) b s
  = match field_at name s with
    | Some (g1, content, post) =>
      Some (MState (125 :: rev content ++ rev g1 ++ b) post
              [(3%nat, [125]); (2%nat, content); (1%nat, g1)])
    | None => None
    end.
Proof.
  destruct (field_at name s) as [[[g1 content] post]|] eqn:F.
  - pose proof (field_at_app _ _ _ _ _ F) as Hs.
    unfold field_at in F. unfold match_at, Action.field_rx, space_rx. cbn [seqs].
    rewrite mt_seq, mt_grp, mt_seq, mt_lit.
    destruct (strip_lit f_gi name s) as [[nm s1]|] eqn:E1; [|discriminate].
    rewrite mt_seq, (mt_star_blocked f_gi false [CSpace] is_space);
      [|apply cls_space|].
    2:{ intros [b' [|x t] c'] H; [discriminate|]. simpl in H.
        rewrite mt_seq, mt_chr. now rewrite (space_blocks_chr _ 61 x eq_refl H). }
    destruct (drop_while is_space s1) as [|x s2] eqn:D1; [discriminate|].
    destruct (N.eqb_spec x 61) as [->|]; [|discriminate].
    rewrite mt_seq, mt_chr. cbv beta iota.
    rewrite (chr_match_nonletter f_gi 61 61 eq_refl). cbn [N.eqb Pos.eqb].
    rewrite mt_seq, (mt_star_blocked f_gi false [CSpace] is_space);
      [|apply cls_space|].
    2:{ intros [b' [|x t] c'] H; [discriminate|]. simpl in H.
        rewrite mt_chr. now rewrite (space_blocks_chr _ 123 x eq_refl H). }
    destruct (drop_while is_space s2) as [|y s3] eqn:D2; [discriminate|].
    destruct (N.eqb_spec y 123) as [->|]; [|discriminate].
    rewrite mt_chr. cbv beta iota.
    rewrite (chr_match_nonletter f_gi 123 123 eq_refl). cbn [N.eqb Pos.eqb].
    unfold set_cap; cbn [before rest caps].
    rewrite mt_seq, mt_grp, (mt_plus_blocked f_gi true [CChar 125] not_rbrace);
      [|apply cls_not_rbrace|].
    2:{ intros [b' [|x t] c'] H; [discriminate|]. simpl in H.
        rewrite mt_grp. unfold set_cap. cbn [rest before caps].
        rewrite mt_chr, (chr_match_nonletter f_gi 125 x eq_refl).
        unfold not_rbrace in H. now destruct (x =? 125). }
    destruct (take_while not_rbrace s3) as [|c0 content0] eqn:E3; [discriminate|].
    destruct (drop_while not_rbrace s3) as [|z post0] eqn:D3; [discriminate|].
    destruct (N.eqb_spec z 125) as [->|]; [|discriminate].
    injection F as <- <- <-.
    rewrite mt_grp. unfold set_cap. cbn [rest before caps].
    rewrite mt_chr, (chr_match_nonletter f_gi 125 125 eq_refl). cbn [N.eqb Pos.eqb].
    unfold set_cap. cbn [rest before caps].
    f_equal. f_equal.
    + rev_norm. reflexivity.
    + f_equal; [|f_equal].
      * f_equal. now apply extends_consumed.
      * f_equal. apply extends_consumed. cbn [rest]. rewrite <- E3, <- D3.
        symmetry. apply take_drop_while.
      * f_equal. f_equal. apply extends_consumed. cbn [rest].
        apply strip_lit_app in E1 as [-> _].
        rewrite <- (take_drop_while is_space s1) at 1. rewrite D1.
        rewrite <- (take_drop_while is_space s2) at 1. rewrite D2.
        list_norm. reflexivity.
  - unfold field_at in F. unfold match_at, Action.field_rx, space_rx. cbn [seqs].
    rewrite mt_seq, mt_grp, mt_seq, mt_lit.
    destruct (strip_lit f_gi name s) as [[nm s1]|] eqn:E1; [|reflexivity].
    rewrite mt_seq, (mt_star_blocked f_gi false [CSpace] is_space);
      [|apply cls_space|].
    2:{ intros [b' [|x t] c'] H; [discriminate|]. simpl in H.
        rewrite mt_seq, mt_chr. now rewrite (space_blocks_chr _ 61 x eq_refl H). }
    rewrite mt_seq, mt_chr. cbv beta iota.
    destruct (drop_while is_space s1) as [|x s2] eqn:D1; [reflexivity|].
    rewrite (chr_match_nonletter f_gi 61 x eq_refl).
    destruct (N.eqb_spec x 61) as [->|]; [|reflexivity].
    rewrite mt_seq, (mt_star_blocked f_gi false [CSpace] is_space);
      [|apply cls_space|].
    2:{ intros [b' [|x t] c'] H; [discriminate|]. simpl in H.
        rewrite mt_chr. now rewrite (space_blocks_chr _ 123 x eq_refl H). }
    rewrite mt_chr. cbv beta iota.
    destruct (drop_while is_space s2) as [|y s3] eqn:D2; [reflexivity|].
    rewrite (chr_match_nonletter f_gi 123 y eq_refl).
    destruct (N.eqb_spec y 123) as [->|]; [|reflexivity].
    unfold set_cap; cbn [before rest caps].
    rewrite mt_seq, mt_grp, (mt_plus_blocked f_gi true [CChar 125] not_rbrace);
      [|apply cls_not_rbrace|].
    2:{ intros [b' [|x t] c'] H; [discriminate|]. simpl in H.
        rewrite mt_grp. unfold set_cap. cbn [rest before caps].
        rewrite mt_chr, (chr_match_nonletter f_gi 125 x eq_refl).
        unfold not_rbrace in H. now destruct (x =? 125). }
    destruct (take_while not_rbrace s3) as [|c0 content0] eqn:E3; [reflexivity|].
    rewrite mt_grp. unfold set_cap. cbn [rest before caps].
    rewrite mt_chr.
    destruct (drop_while not_rbrace s3) as [|z post0] eqn:D3; [reflexivity|].
    rewrite (chr_match_nonletter f_gi 125 z eq_refl).
    destruct (N.eqb_spec z 125) as [->|]; [discriminate|reflexivity].
Qed.

Lemma strip_lit_ci pat : forall J r,
  ci_eq pat J = true -> strip_lit f_gi pat (J ++ r) = Some (J, r).
Proof.
  induction pat as [|a pat IH]; intros [|c J] r H; simpl in *;
    try discriminate; [reflexivity|].
  apply andb_prop in H as [Hc H]. rewrite Hc. now rewrite (IH _ _ H).
Qed.

Lemma strip_lit_ci_inv pat : forall s m r,
  strip_lit f_gi pat s = Some (m, r) -> ci_eq pat m = true.
Proof.
  induction pat as [|a pat IH]; intros s m r H; simpl in H.
  - now injection H as <- <-.
  - destruct s as [|x t]; [discriminate|].
    destruct (chr_match f_gi a x) eqn:Hx; [|discriminate].
    destruct (strip_lit f_gi pat t) as [[m' r']|] eqn:E; [|discriminate].
    injection H as <- <-. simpl. rewrite Hx. now apply (IH _ _ _ E).
Qed.

(** The fields that [field_at] reads are the texts of the form
    [name ws = ws { content }]. *)
Lemma field_at_complete name J ws1 ws2 content post :
  ci_eq name J = true ->
  forallb is_space ws1 = true -> forallb is_space ws2 = true ->
  content <> [] -> forallb not_rbrace content = true ->
  field_at name (J ++ ws1 ++ [61] ++ ws2 ++ [123] ++ content ++ [125] ++ post)
  = Some (J ++ ws1 ++ [61] ++ ws2 ++ [123], content, post).
Proof.
  intros HJ H1 H2 Hne Hc. unfold field_at.
  rewrite (strip_lit_ci _ _ _ HJ).
  rewrite (drop_while_app is_space ws1
             ([61] ++ ws2 ++ [123] ++ content ++ [125] ++ post) H1 eq_refl).
  rewrite (take_while_app is_space ws1
             ([61] ++ ws2 ++ [123] ++ content ++ [125] ++ post) H1 eq_refl).
  cbn [app N.eqb Pos.eqb].
  rewrite (drop_while_app is_space ws2 (123 :: content ++ 125 :: post) H2 eq_refl).
  rewrite (take_while_app is_space ws2 (123 :: content ++ 125 :: post) H2 eq_refl).
  cbn [app N.eqb Pos.eqb].
  rewrite (drop_while_app not_rbrace content (125 :: post) Hc eq_refl).
  rewrite (take_while_app not_rbrace content (125 :: post) Hc eq_refl).
  destruct content as [|c0 content]; [contradiction|]. reflexivity.
Qed.

Lemma field_at_sound name s g1 content post :
  field_at name s = Some (g1, content, post) ->
  exists J ws1 ws2,
    s = J ++ ws1 ++ [61] ++ ws2 ++ [123] ++ content ++ [125] ++ post
    /\ g1 = J ++ ws1 ++ [61] ++ ws2 ++ [123]
    /\ ci_eq name J = true
    /\ forallb is_space ws1 = true /\ forallb is_space ws2 = true
    /\ content <> [] /\ forallb not_rbrace content = true.
Proof.
  intros H. pose proof (field_at_app _ _ _ _ _ H) as Hs. unfold field_at in H.
  destruct (strip_lit f_gi name s) as [[nm s1]|] eqn:E1; [|discriminate].
  destruct (drop_while is_space s1) as [|x s2]; [discriminate|].
  destruct (x =? 61); [|discriminate].
  destruct (drop_while is_space s2) as [|y s3]; [discriminate|].
  destruct (y =? 123); [|discriminate].
  pose proof (take_while_forallb not_rbrace s3) as Hc.
  destruct (take_while not_rbrace s3) as [|c0 content0] eqn:E3; [discriminate|].
  destruct (drop_while not_rbrace s3) as [|z post0]; [discriminate|].
  destruct (z =? 125); [|discriminate].
  injection H as <- <- <-.
  exists nm, (take_while is_space s1), (take_while is_space s2).
  split; [rewrite Hs; list_norm; reflexivity|].
  split; [reflexivity|].
  split; [exact (strip_lit_ci_inv _ _ _ _ E1)|].
  split; [apply take_while_forallb|].
  split; [apply take_while_forallb|].
  split; [discriminate|exact Hc].
Qed.

Lemma no_field_in_spec name pre tail :
  no_field_in name pre tail = true ->
  forall p1 p2, pre = p1 ++ p2 -> p2 <> [] -> field_at name (p2 ++ tail) = None.
Proof.
  induction pre as [|c pre IH]; intros H p1 p2 E Hne.
  - destruct p1, p2; try discriminate. contradiction.
  - simpl in H.
    destruct (field_at name (c :: pre ++ tail)) eqn:F; [discriminate|].
    destruct p1 as [|c1 p1].
    + simpl in E. subst p2. exact F.
    + injection E as -> E. now apply (IH H p1 p2).
Qed.

(** *** Passes whose expression does not look behind *)

Section NoLookBehind.

Variable fl : flags.
Variable r : regex.
Variable repl : mstate -> jsstring.

Hypothesis match_indep : forall b b' s,
  match match_at fl r b s, match_at fl r b' s with
  | Some st, Some st' => rest st = rest st' /\ repl st = repl st'
  | None, None => True
  | _, _ => False
  end.

Lemma replace_loop_indep : forall fuel b b' s,
  replace_loop fl r repl fuel b s = replace_loop fl r repl fuel b' s.
Proof.
  induction fuel as [|fuel IH]; intros b b' s; [reflexivity|].
  rewrite !replace_loop_S. pose proof (match_indep b b' s) as H.
  destruct (match_at fl r b s) as [st|], (match_at fl r b' s) as [st'|];
    try contradiction.
  - destruct H as [Hr Hp]. rewrite Hr, Hp.
    destruct (Nat.eqb _ _).
    + f_equal. destruct s as [|c t]; [reflexivity|]. f_equal. apply IH.
    + f_equal. apply IH.
  - destruct s as [|c t]; [reflexivity|]. f_equal. apply IH.
Qed.

Lemma replace_from_indep b s :
  replace_from fl r repl b s = replace_all fl r repl s.
Proof. apply replace_loop_indep. Qed.

End NoLookBehind.

(** The pass of a field expression with a replacer [f] of the content. *)
Section FieldPass.

Variable name : jsstring.
Variable repl : mstate -> jsstring.
Variable f : jsstring -> jsstring -> jsstring.
Hypothesis repl_caps : forall b post g1 content,
  repl (MState b post [(3%nat, [125]); (2%nat, content); (1%nat, g1)]) = f g1 content.

Lemma field_match_indep b b' s :
  match match_at f_gi (Action.field_rx name) b s,
        match_at f_gi (Action.field_rx name) b' s with
  | Some st, Some st' => rest st = rest st' /\ repl st = repl st'
  | None, None => True
  | _, _ => False
  end.
Proof.
  rewrite !match_at_field.
  destruct (field_at name s) as [[[g1 content] post]|]; [|exact I].
  split; [reflexivity|]. now rewrite !repl_caps.
Qed.

Lemma field_pass_first pre tail g1 content post :
  no_field_in name pre tail = true ->
  field_at name tail = Some (g1, content, post) ->
  replace_all f_gi (Action.field_rx name) repl (pre ++ tail)
  = pre ++ f g1 content ++ replace_all f_gi (Action.field_rx name) repl post.
Proof.
  intros Hpre Hf. unfold replace_all.
  rewrite replace_from_prefix.
  - f_equal. pose proof (match_at_field name (rev pre ++ []) tail) as Hm.
    rewrite Hf in Hm. rewrite (replace_from_match _ _ _ _ _ _ Hm).
    + rewrite repl_caps. f_equal.
      apply (replace_from_indep f_gi _ repl field_match_indep).
    + cbn [rest]. apply field_at_app in Hf. rewrite Hf, !length_app. simpl. lia.
  - intros p1 p2 E Hne. rewrite match_at_field.
    now rewrite (no_field_in_spec _ _ _ Hpre p1 p2 E Hne).
Qed.

Lemma field_pass_none s :
  field_at name [] = None ->
  no_field_in name s [] = true ->
  replace_all f_gi (Action.field_rx name) repl s = s.
Proof.
  intros Hnil H. unfold replace_all.
  rewrite <- (app_nil_r s) at 1. rewrite replace_from_prefix.
  - rewrite replace_from_nil; [now rewrite app_nil_r|].
    rewrite match_at_field. now rewrite Hnil.
  - intros p1 p2 E Hne. rewrite match_at_field.
    now rewrite (no_field_in_spec _ _ _ H p1 p2 E Hne).
Qed.

End FieldPass.

(** ** The journal pass *)

Lemma rename_journal_field_rx bib :
  Action.rename_journal bib
  = replace_all f_gi (Action.field_rx (u "journal"))
      (fun m => u "organization = {" ++ cap 2 m ++ u "}") bib.
Proof. reflexivity. Qed.

(** C4, as amended.  Every field assignment [journal = {content}] met by
    the scan (the name in any letter case, white space allowed around [=],
    a content of one or more code units none of which is a closing brace)
    is rewritten to [organization = {content}], the content verbatim, and
    the text around it is copied; the pass takes the text only, so it does
    not depend on the type of the enclosing record: it renames the field of
    an [@article] as well. *)
Theorem journal_rename :
  (forall pre J ws1 ws2 content post : jsstring,
     ci_eq (u "journal") J = true ->
     forallb is_space ws1 = true -> forallb is_space ws2 = true ->
     content <> [] -> forallb not_rbrace content = true ->
     no_field_in (u "journal") pre
       (J ++ ws1 ++ [61] ++ ws2 ++ [123] ++ content ++ [125] ++ post) = true ->
     Action.rename_journal
       (pre ++ J ++ ws1 ++ [61] ++ ws2 ++ [123] ++ content ++ [125] ++ post)
     = pre ++ u "organization = {" ++ content ++ u "}" ++ Action.rename_journal post)
  /\ (forall s : jsstring,
        no_field_in (u "journal") s [] = true -> Action.rename_journal s = s)
  /\ (forall s g1 content post,
        field_at (u "journal") s = Some (g1, content, post) <->
        exists J ws1 ws2,
          s = J ++ ws1 ++ [61] ++ ws2 ++ [123] ++ content ++ [125] ++ post
          /\ g1 = J ++ ws1 ++ [61] ++ ws2 ++ [123]
          /\ ci_eq (u "journal") J = true
          /\ forallb is_space ws1 = true /\ forallb is_space ws2 = true
          /\ content <> [] /\ forallb not_rbrace content = true)
  /\ (forall ix bib,
        Action.rewrite ix bib
        = Action.cleanTypeField
            (Action.protectCapitalsInFields
               (Action.rename_journal (Action.rewrite_headers ix bib))))
  /\ Action.rewrite Action.empty_index
       (u "@article{K," ++ [LF] ++ u "  journal = {Nature}," ++ [LF] ++ u "}")
     = u "@article{K," ++ [LF] ++ u "  organization = {Nature}," ++ [LF] ++ u "}".
Proof.
  split; [|split; [|split; [|split]]].
  - intros pre J ws1 ws2 content post HJ H1 H2 Hne Hc Hpre.
    rewrite !rename_journal_field_rx.
    rewrite (field_pass_first (u "journal") _
               (fun _ content => u "organization = {" ++ content ++ u "}")
               (fun _ _ _ _ => eq_refl) pre _ _ content post Hpre
               (field_at_complete _ _ _ _ _ _ HJ H1 H2 Hne Hc)).
    list_norm. reflexivity.
  - intros s H. rewrite rename_journal_field_rx.
    apply (field_pass_none (u "journal")); [reflexivity|exact H].
  - intros s g1 content post. split.
    + apply field_at_sound.
    + intros (J & ws1 & ws2 & -> & -> & HJ & H1 & H2 & Hne & Hc).
      now apply field_at_complete.
  - reflexivity.
  - vm_compute. reflexivity.
Qed.

Lemma journal_rename_witness :
  Action.rename_journal
    (u "  " ++ u "Journal" ++ u " " ++ [61] ++ [] ++ [123] ++ u "Nature" ++ [125]
     ++ u "," ++ [LF])
  = u "  " ++ u "organization = {" ++ u "Nature" ++ u "}"
    ++ Action.rename_journal (u "," ++ [LF]).
Proof.
  apply (proj1 journal_rename (u "  ") (u "Journal") (u " ") [] (u "Nature")
           (u "," ++ [LF])); try reflexivity.
  discriminate.
Defined.

(** C4 fails as stated on an empty content: [journal = {}] is a field
    assignment of the form, with a content that holds no closing brace, and
    the pass leaves it as it is. *)
Lemma journal_empty_content_kept :
  Action.rename_journal (u "journal = {}") = u "journal = {}"
  /\ Action.rename_journal (u "journal = {}") <> u "organization = {}".
Proof. split; vm_compute; [reflexivity|discriminate]. Qed.

(** ** Acronym protection *)

(** C2 (code bug).  In a [title] field every run of two or more capitals
    is wrapped once; in a [booktitle] field it is wrapped twice, by the pass
    of [title], whose expression also matches inside the name [booktitle],
    and then by the pass of [booktitle]. *)
Theorem acronym_protection_booktitle :
  Action.protectCapitalsInFields (u "title = {The NASA Program}")
  = u "title = {The {{NASA}} Program}"
  /\ Action.protectCapitalsInFields (u "title = {A New Approach}")
     = u "title = {A New Approach}"
  /\ Action.protectCapitalsInFields (u "booktitle = {The NASA Program}")
     = u "booktitle = {The {{{{NASA}}}} Program}"
  /\ Action.protect_field (u "booktitle = {The NASA Program}") (u "title")
     = u "booktitle = {The {{NASA}} Program}".
Proof. repeat split; vm_compute; reflexivity. Qed.

(** ** The header pass *)

(** [typeMap] is an object literal: a hint that names a property inherited
    from [Object.prototype], such as ["constructor"], is not a key of the
    map, yet the lookup gives a value, and the header gets neither a type of
    the map nor the type the server emitted.  No type of the vocabulary of
    the entries is such a name. *)
Example header_type_inherited_property :
  typeHints (Action.build_index [entry_constructor]) !! u "K" = Some (u "constructor")
  /\ assoc (u "constructor") Action.typeMap = None
  /\ Action.rewrite_headers (Action.build_index [entry_constructor]) (u "@misc{K,")
     = u "@function Object() { [native code] }{K,"
  /\ Action.rewrite_headers (Action.build_index [entry_constructor]) (u "@misc{K,")
     <> u "@misc{K,".
Proof. repeat split; vm_compute; congruence. Qed.

(** ** A scan whose matches are read by a function *)

Lemma no_match_in_spec {A : Type} (spec : jsstring -> jsstring -> option A) pre :
  forall b tail, no_match_in spec b pre tail = true ->
  forall p1 p2, pre = p1 ++ p2 -> p2 <> [] -> spec (rev p1 ++ b) (p2 ++ tail) = None.
Proof.
  induction pre as [|c pre IH]; intros b tail H p1 p2 E Hne.
  - destruct p1, p2; try discriminate. contradiction.
  - simpl in H. destruct (spec b (c :: pre ++ tail)) eqn:F; [discriminate|].
    destruct p1 as [|c1 p1].
    + simpl in E. subst p2. exact F.
    + injection E as -> E. simpl. rewrite <- app_assoc. simpl.
      now apply (IH _ _ H p1 p2).
Qed.

(** Where a reader finds something in a text, it finds it first after a
    part of the text in which it finds nothing. *)
Lemma no_match_in_split {A : Type} (spec : jsstring -> jsstring -> option A) s :
  forall b, no_match_in spec b s [] = false ->
  exists pre tail a, s = pre ++ tail /\ no_match_in spec b pre tail = true
                     /\ spec (rev pre ++ b) tail = Some a.
Proof.
  induction s as [|c t IH]; intros b H; [discriminate|].
  cbn [no_match_in] in H. rewrite app_nil_r in H.
  destruct (spec b (c :: t)) as [a|] eqn:E.
  - exists [], (c :: t), a. now split.
  - apply IH in H as (pre & tail & a & -> & Hn & Hs).
    exists (c :: pre), tail, a. split; [reflexivity|]. split.
    + cbn [no_match_in]. cbn [app]. now rewrite E.
    + cbn [rev]. now rewrite <- app_assoc.
Qed.

Section ScanPass.

Variable fl : flags.
Variable r : regex.
Variable repl : mstate -> jsstring.
Variable A : Type.
Variable spec : jsstring -> jsstring -> option (A * jsstring).
Variable out : A -> jsstring.

Hypothesis match_spec : forall b s,
  match spec b s with
  | Some (a, post) =>
    exists st, match_at fl r b s = Some st /\ rest st = post /\ repl st = out a
               /\ (length post < length s)%nat
  | None => match_at fl r b s = None
  end.

Lemma scan_first b pre tail a post :
  no_match_in spec b pre tail = true ->
  spec (rev pre ++ b) tail = Some (a, post) ->
  exists m, tail = m ++ post /\ m <> []
    /\ replace_from fl r repl b (pre ++ tail)
       = pre ++ out a ++ replace_from fl r repl (rev (pre ++ m) ++ b) post.
Proof.
  intros Hpre Hs. pose proof (match_spec (rev pre ++ b) tail) as Hm.
  rewrite Hs in Hm. destruct Hm as (st & Hm & Hr & Ho & Hl).
  destruct (match_at_forward _ _ _ _ _ Hm) as (m & E & Hb).
  exists m. rewrite Hr in E. split; [exact E|]. split.
  - intros ->. simpl in E. rewrite <- E in Hl. lia.
  - rewrite replace_from_prefix.
    + f_equal. rewrite (replace_from_match _ _ _ _ _ _ Hm) by (rewrite Hr; lia).
      rewrite Ho, Hr, Hb. now rewrite rev_app_distr, <- app_assoc.
    + intros p1 p2 Ep Hne.
      pose proof (match_spec (rev p1 ++ b) (p2 ++ tail)) as Hn.
      now rewrite (no_match_in_spec spec pre b tail Hpre p1 p2 Ep Hne) in Hn.
Qed.

Lemma scan_none b s :
  no_match_in spec b s [] = true -> spec (rev s ++ b) [] = None ->
  replace_from fl r repl b s = s.
Proof.
  intros H Hnil. rewrite <- (app_nil_r s) at 1. rewrite replace_from_prefix.
  - rewrite replace_from_nil; [now rewrite app_nil_r|].
    pose proof (match_spec (rev s ++ b) []) as Hn. now rewrite Hnil in Hn.
  - intros p1 p2 Ep Hne.
    pose proof (match_spec (rev p1 ++ b) (p2 ++ [])) as Hn.
    now rewrite (no_match_in_spec spec s b [] H p1 p2 Ep Hne) in Hn.
Qed.

End ScanPass.

(** ** Record headers *)

Lemma header_at_app s ty key post :
  header_at s = Some (ty, key, post) ->
  s = 64 :: ty ++ 123 :: key ++ 44 :: post
  /\ ty <> [] /\ forallb is_word ty = true
  /\ key <> [] /\ forallb not_comma key = true.
Proof.
  unfold header_at. intros H. destruct s as [|x s1]; [discriminate|].
  destruct (N.eqb_spec x 64) as [->|]; [|discriminate].
  pose proof (take_drop_while is_word s1) as T1.
  pose proof (take_while_forallb is_word s1) as W1.
  destruct (take_while is_word s1) as [|t0 ty0] eqn:E1; [discriminate|].
  destruct (drop_while is_word s1) as [|y s2]; [discriminate|].
  destruct (N.eqb_spec y 123) as [->|]; [|discriminate].
  pose proof (take_drop_while not_comma s2) as T2.
  pose proof (take_while_forallb not_comma s2) as W2.
  destruct (take_while not_comma s2) as [|k0 key0] eqn:E2; [discriminate|].
  destruct (drop_while not_comma s2) as [|z post0]; [discriminate|].
  destruct (N.eqb_spec z 44) as [->|]; [|discriminate].
  injection H as <- <- <-.
  split; [now rewrite <- T1, <- T2|].
  repeat split; try discriminate; assumption.
Qed.

Lemma header_at_complete ty key post :
  ty <> [] -> forallb is_word ty = true ->
  key <> [] -> forallb not_comma key = true ->
  header_at (64 :: ty ++ 123 :: key ++ 44 :: post) = Some (ty, key, post).
Proof.
  intros Hty Hw Hkey Hc. unfold header_at. cbn [N.eqb Pos.eqb].
  rewrite (take_while_app is_word ty (123 :: key ++ 44 :: post) Hw eq_refl).
  rewrite (drop_while_app is_word ty (123 :: key ++ 44 :: post) Hw eq_refl).
  cbn [N.eqb Pos.eqb].
  rewrite (take_while_app not_comma key (44 :: post) Hc eq_refl).
  rewrite (drop_while_app not_comma key (44 :: post) Hc eq_refl).
  destruct ty; [contradiction|]. destruct key; [contradiction|]. reflexivity.
Qed.

Lemma match_at_header b s :
  match header_at s with
  | Some (ty, key, post) =>
    exists bf, match_at f_g Action.header_rx b s
               = Some (MState bf post [(2%nat, key); (1%nat, ty)])
  | None => match_at f_g Action.header_rx b s = None
  end.
Proof.
  unfold match_at, Action.header_rx, header_at. cbn [seqs].
  rewrite mt_seq, mt_chr. destruct s as [|x s1]; [reflexivity|].
  change (chr_match f_g 64 x) with (x =? 64).
  destruct (N.eqb_spec x 64) as [->|]; [|reflexivity].
  rewrite mt_seq, mt_grp, (mt_plus_blocked f_g false [CWord] is_word);
    [|apply cls_word|].
  2:{ intros [b' [|y t] c'] H; [discriminate|]. simpl in H.
      unfold set_cap; cbn [rest before caps]. rewrite mt_seq, mt_chr.
      change (chr_match f_g 123 y) with (y =? 123).
      destruct (N.eqb_spec y 123) as [->|]; [discriminate|reflexivity]. }
  destruct (take_while is_word s1) as [|t0 ty0] eqn:E1; [reflexivity|].
  unfold set_cap; cbn [rest before caps]. rewrite mt_seq, mt_chr.
  destruct (drop_while is_word s1) as [|y s2] eqn:D1; [reflexivity|].
  change (chr_match f_g 123 y) with (y =? 123).
  destruct (N.eqb_spec y 123) as [->|]; [|reflexivity].
  rewrite mt_seq, mt_grp, (mt_plus_blocked f_g true [CChar 44] not_comma);
    [|apply cls_not_comma|].
  2:{ intros [b' [|z t] c'] H; [discriminate|]. simpl in H.
      unfold set_cap; cbn [rest before caps]. rewrite mt_chr.
      change (chr_match f_g 44 z) with (z =? 44).
      unfold not_comma in H. now destruct (z =? 44). }
  destruct (take_while not_comma s2) as [|k0 key0] eqn:E2; [reflexivity|].
  unfold set_cap; cbn [rest before caps]. rewrite mt_chr.
  destruct (drop_while not_comma s2) as [|z post0] eqn:D2; [reflexivity|].
  change (chr_match f_g 44 z) with (z =? 44).
  destruct (N.eqb_spec z 44) as [->|]; [|reflexivity].
  eexists. f_equal. f_equal. f_equal; [|f_equal].
  - f_equal. apply extends_consumed. cbn [rest]. rewrite <- E2, <- D2.
    symmetry. apply take_drop_while.
  - f_equal. apply extends_consumed. cbn [rest].
    rewrite <- (take_drop_while is_word s1) at 1. now rewrite E1, D1.
Qed.

Lemma header_match_spec ix b s :
  match header_spec b s with
  | Some (a, post) =>
    exists st, match_at f_g Action.header_rx b s = Some st /\ rest st = post
               /\ Action.header_repl ix st = header_out ix a
               /\ (length post < length s)%nat
  | None => match_at f_g Action.header_rx b s = None
  end.
Proof.
  unfold header_spec. pose proof (match_at_header b s) as H.
  destruct (header_at s) as [[[ty key] post]|] eqn:E; [|exact H].
  destruct H as (bf & H). eexists. split; [exact H|].
  split; [reflexivity|]. split; [reflexivity|].
  apply header_at_app in E as (-> & _). simpl. rewrite !length_app. simpl.
  rewrite !length_app. simpl. lia.
Qed.

Lemma header_match_indep ix b b' s :
  match match_at f_g Action.header_rx b s, match_at f_g Action.header_rx b' s with
  | Some st, Some st' => rest st = rest st' /\ Action.header_repl ix st = Action.header_repl ix st'
  | None, None => True
  | _, _ => False
  end.
Proof.
  pose proof (match_at_header b s) as H. pose proof (match_at_header b' s) as H'.
  destruct (header_at s) as [[[ty key] post]|].
  - destruct H as (bf & ->), H' as (bf' & ->). now split.
  - now rewrite H, H'.
Qed.

(** The first header of a text is rewritten, the text before it is copied
    and the pass goes on after it. *)
Lemma rewrite_headers_first ix pre ty key post :
  ty <> [] -> forallb is_word ty = true ->
  key <> [] -> forallb not_comma key = true ->
  no_header_in pre (64 :: ty ++ 123 :: key ++ 44 :: post) = true ->
  Action.rewrite_headers ix (pre ++ 64 :: ty ++ 123 :: key ++ 44 :: post)
  = pre ++ header_out ix (ty, key) ++ Action.rewrite_headers ix post.
Proof.
  intros Hty Hw Hkey Hc Hpre. unfold Action.rewrite_headers, replace_all.
  destruct (scan_first f_g Action.header_rx (Action.header_repl ix) _
              header_spec (header_out ix) (header_match_spec ix)
              [] pre (64 :: ty ++ 123 :: key ++ 44 :: post) (ty, key) post Hpre)
    as (m & _ & _ & ->).
  - unfold header_spec. now rewrite header_at_complete.
  - f_equal. f_equal.
    apply (replace_from_indep f_g _ _ (header_match_indep ix)).
Qed.

Lemma rewrite_headers_none ix s :
  no_header_in s [] = true -> Action.rewrite_headers ix s = s.
Proof.
  intros H. unfold Action.rewrite_headers, replace_all.
  apply (scan_none f_g Action.header_rx (Action.header_repl ix) _
           header_spec (header_out ix) (header_match_spec ix)); [exact H|reflexivity].
Qed.

(** When the hint is not a name inherited from [Object.prototype], the
    type written is the value of [typeMap] for the hint, or the type of the
    server. *)
Lemma assoc_forallb k (l : list (jsstring * jsstring)) p v :
  forallb (fun kv => p (snd kv)) l = true -> assoc k l = Some v -> p v = true.
Proof.
  induction l as [|[k' v'] l IH]; simpl; [discriminate|].
  intros H E. apply andb_prop in H as [Hv H].
  destruct (jsstring_eqb k k'); [now injection E as <-|now apply IH].
Qed.

Lemma or_string_own ix ty k :
  match typeHints ix !! k with
  | Some h => inherited_name h = false
  | None => True
  end ->
  or_string (object_get Action.typeMap (Action.or_empty (typeHints ix !! k))) ty
  = mapped_type ix ty k.
Proof.
  unfold mapped_type. destruct (typeHints ix !! k) as [h|]; [|reflexivity].
  unfold Action.or_empty, inherited_name, object_get. intros H.
  destruct (assoc h Action.typeMap) as [v|] eqn:E.
  - unfold or_string. now rewrite (assoc_forallb h Action.typeMap truthy v eq_refl E).
  - destruct (assoc h object_prototype_functions); [discriminate|].
    now rewrite H.
Qed.

(** *** The header pass on the headers it meets *)

(** The pins of an index are not empty: the loop registers a pin only when
    it is. *)
Lemma index_step_pins_truthy ix it :
  (forall k p, pinnedMap ix !! k = Some p -> truthy p = true) ->
  forall k p, pinnedMap (Action.index_step ix it) !! k = Some p -> truthy p = true.
Proof.
  intros H k p. unfold Action.index_step.
  destruct (truthy (Action.item_key it)); cbn [negb pinnedMap]; [|apply H].
  destruct (Action.pinnedFromNote (note it)) as [q|]; [|apply H].
  destruct (truthy q) eqn:Hq; [|apply H].
  destruct (decide (Action.item_key it = k)) as [E|E].
  - rewrite E, lookup_insert_eq. now intros [= <-].
  - rewrite lookup_insert_ne by exact E. apply H.
Qed.

Lemma build_index_pins_truthy items k p :
  pinnedMap (Action.build_index items) !! k = Some p -> truthy p = true.
Proof.
  revert k p. unfold Action.build_index.
  induction items as [|it items IH] using rev_ind.
  - intros k p H. cbn in H. rewrite lookup_empty in H. discriminate.
  - rewrite fold_left_app. cbn [fold_left]. now apply index_step_pins_truthy.
Qed.

(** So the key written for a key that has a pin is the pin. *)
Lemma or_key_built items key :
  Action.or_key (pinnedMap (Action.build_index items) !! key) key
  = match pinnedMap (Action.build_index items) !! key with
    | Some p => p
    | None => key
    end.
Proof.
  destruct (pinnedMap (Action.build_index items) !! key) as [p|] eqn:E; [|reflexivity].
  unfold Action.or_key. now rewrite (build_index_pins_truthy items key p E).
Qed.

(** C1, as amended.  The header pass reads the text from left to right.  The
    first header it meets, [@type{key,] with a type of word characters and a
    key of one or more characters other than the comma, is written again
    with the pin of the key when the key has one and the key otherwise, and,
    when the hint of the key is not a name that an object literal inherits,
    with the value of [typeMap] for the hint when the key has a hint and the
    map a value for it, and the type of the server otherwise; the text
    before the header is copied and the pass goes on in the same way after
    the comma.  A text in which no header is met is left as it is, and every
    other text has a first header.  No name of [typeMap] is inherited, nor
    is ["song"], which has no value in the map. *)
Theorem key_and_type_rewrite :
  (forall (items : list CSLItem) (pre ty key post : jsstring),
     ty <> [] -> forallb is_word ty = true ->
     key <> [] -> forallb not_comma key = true ->
     no_header_in pre (64 :: ty ++ 123 :: key ++ 44 :: post) = true ->
     match typeHints (Action.build_index items) !! key with
     | Some h => inherited_name h = false
     | None => True
     end ->
     Action.rewrite_headers (Action.build_index items)
       (pre ++ 64 :: ty ++ 123 :: key ++ 44 :: post)
     = pre
       ++ 64 :: match typeHints (Action.build_index items) !! key with
                | Some h => match assoc h Action.typeMap with Some v => v | None => ty end
                | None => ty
                end
       ++ 123 :: match pinnedMap (Action.build_index items) !! key with
                 | Some p => p
                 | None => key
                 end
       ++ 44 :: Action.rewrite_headers (Action.build_index items) post)
  /\ (forall (ix : index) (s : jsstring),
        no_header_in s [] = true -> Action.rewrite_headers ix s = s)
  /\ (forall s : jsstring,
        no_header_in s [] = false ->
        exists pre ty key post,
          s = pre ++ 64 :: ty ++ 123 :: key ++ 44 :: post
          /\ ty <> [] /\ forallb is_word ty = true
          /\ key <> [] /\ forallb not_comma key = true
          /\ no_header_in pre (64 :: ty ++ 123 :: key ++ 44 :: post) = true)
  /\ (forall h v : jsstring,
        assoc h Action.typeMap = Some v -> inherited_name h = false)
  /\ inherited_name (u "song") = false /\ assoc (u "song") Action.typeMap = None.
Proof.
  split; [|split; [|split; [|split; [|split]]]].
  - intros items pre ty key post Hty Hw Hkey Hc Hno Hh.
    rewrite (rewrite_headers_first _ pre ty key post Hty Hw Hkey Hc Hno).
    unfold header_out. rewrite (or_string_own _ ty key Hh), or_key_built.
    change (u "@") with [64]. change (u "{") with [123]. change (u ",") with [44].
    unfold mapped_type. list_norm. reflexivity.
  - intros ix s. apply rewrite_headers_none.
  - intros s H. unfold no_header_in in H.
    apply no_match_in_split in H as (pre & tail & [[ty key] post] & -> & Hn & Hs).
    unfold header_spec in Hs.
    destruct (header_at tail) as [[[ty' key'] post']|] eqn:E; [|discriminate].
    injection Hs as -> -> ->.
    apply header_at_app in E as (-> & Hty & Hw & Hkey & Hc).
    exists pre, ty, key, post. now repeat split.
  - intros h v H. unfold inherited_name.
    assert (Hall : forallb (fun kv => negb (inherited_name (fst kv))) Action.typeMap = true)
      by (vm_compute; reflexivity).
    revert H Hall. induction Action.typeMap as [|[k w] l IH]; [discriminate|].
    cbn [assoc forallb fst]. intros H Hall. apply andb_prop in Hall as [Hk Hl].
    destruct (jsstring_eqb h k) eqn:E.
    + unfold jsstring_eqb in E. apply bool_decide_eq_true_1 in E. subst k.
      unfold inherited_name in Hk. now apply negb_true_iff in Hk.
    + now apply IH.
  - vm_compute. reflexivity.
  - vm_compute. reflexivity.
Qed.

Lemma key_and_type_rewrite_witness :
  Action.rewrite_headers (Action.build_index [entry_scenario])
    ((u "% library" ++ [LF]) ++ 64 :: u "webpage" ++ 123 :: u "KEY1" ++ 44 :: [LF]
     ++ u "  title = {T},")
  = (u "% library" ++ [LF]) ++ 64 :: u "online" ++ 123 :: u "Pinned1" ++ 44
    :: Action.rewrite_headers (Action.build_index [entry_scenario])
         ([LF] ++ u "  title = {T},").
Proof.
  apply (proj1 key_and_type_rewrite [entry_scenario] (u "% library" ++ [LF])
           (u "webpage") (u "KEY1") ([LF] ++ u "  title = {T},"));
    try discriminate; vm_compute; reflexivity.
Defined.

(** C1 fails as stated on a header that lies inside the key of an earlier
    match.  [@webpage{KEY1,] is a header, its key has a pin and its hint a
    type in [typeMap], and alone it is rewritten to [@online{Pinned1,]; after
    [@comment{note}] and a line break it is left as it is, because the key of
    the match that starts at [@comment] runs up to the first comma, over the
    closing brace, the line break and the header. *)
Lemma header_inside_a_key_kept :
  header_at (u "@webpage{KEY1,") = Some (u "webpage", u "KEY1", [])
  /\ pinnedMap (Action.build_index [entry_scenario]) !! u "KEY1" = Some (u "Pinned1")
  /\ typeHints (Action.build_index [entry_scenario]) !! u "KEY1" = Some (u "webpage")
  /\ assoc (u "webpage") Action.typeMap = Some (u "online")
  /\ Action.rewrite_headers (Action.build_index [entry_scenario]) (u "@webpage{KEY1,")
     = u "@online{Pinned1,"
  /\ header_at (u "@comment{note}" ++ [LF] ++ u "@webpage{KEY1,")
     = Some (u "comment", u "note}" ++ [LF] ++ u "@webpage{KEY1", [])
  /\ Action.rewrite_headers (Action.build_index [entry_scenario])
       (u "@comment{note}" ++ [LF] ++ u "@webpage{KEY1,")
     = u "@comment{note}" ++ [LF] ++ u "@webpage{KEY1,".
Proof. repeat split; vm_compute; reflexivity. Qed.

(** ** Pinned keys *)

Lemma mt_bol fl st k : mt fl Bol st k = if at_bol fl st then k st else None.
Proof. reflexivity. Qed.

Lemma mt_eol fl st k : mt fl Eol st k = if at_eol fl st then k st else None.
Proof. reflexivity. Qed.

Lemma line_terminator_space c : is_line_terminator c = true -> is_space c = true.
Proof.
  unfold is_line_terminator, is_space. intros H.
  repeat (apply orb_prop in H as [H|H]); apply N.eqb_eq in H; subst c; reflexivity.
Qed.

Lemma tok_char_not_space c : tok_char c = true -> is_space c = false.
Proof. unfold tok_char. now destruct (is_space c). Qed.

Lemma strip_lit_mi pat : forall s, strip_lit f_mi pat s = strip_lit f_gi pat s.
Proof.
  induction pat as [|a pat IH]; intros s; [reflexivity|].
  destruct s as [|x t]; [reflexivity|]. simpl. now rewrite IH.
Qed.

Lemma strip_lit_head_false fl a pat x t :
  chr_match fl a x = false -> strip_lit fl (a :: pat) (x :: t) = None.
Proof. intros H. simpl. now rewrite H. Qed.

Lemma try_back_eol_caps w : forall b c r st,
  try_back eol_cont b c w r = Some st -> caps st = c /\ exists bf rs, st = MState bf rs c.
Proof.
  induction w as [|x w IH]; intros b c r st H; simpl in H.
  - unfold eol_cont in H. rewrite mt_eol in H.
    destruct (at_eol f_mi _); [|discriminate]. injection H as <-. eauto.
  - destruct (try_back eol_cont (x :: b) c w r) as [res|] eqn:E.
    + injection H as <-. now apply IH in E.
    + unfold eol_cont in H. rewrite mt_eol in H.
      destruct (at_eol f_mi _); [|discriminate]. injection H as <-. eauto.
Qed.

Lemma try_back_eol_some w : forall b c r,
  ends_line w r = true -> try_back eol_cont b c w r <> None.
Proof.
  induction w as [|x w IH]; intros b c r H; simpl.
  - destruct r; [discriminate|discriminate H].
  - destruct (try_back eol_cont (x :: b) c w r) eqn:E; [discriminate|].
    unfold eol_cont. rewrite mt_eol. unfold at_eol. cbn [rest multiline f_mi andb].
    destruct (is_line_terminator x) eqn:Hx; [discriminate|].
    exfalso. apply (IH (x :: b) c r); [|exact E].
    destruct r; [reflexivity|]. simpl in H. now rewrite Hx in H.
Qed.

Lemma try_back_eol_none w : forall b c r,
  ends_line w r = false -> headed is_space r = false ->
  try_back eol_cont b c w r = None.
Proof.
  induction w as [|x w IH]; intros b c r H Hr; simpl.
  - unfold eol_cont. rewrite mt_eol. unfold at_eol. cbn [rest multiline f_mi andb].
    destruct r as [|y r]; [discriminate|]. simpl in Hr.
    destruct (is_line_terminator y) eqn:Hy; [|reflexivity].
    apply line_terminator_space in Hy. congruence.
  - destruct r as [|y r]; [discriminate|]. simpl in H.
    apply orb_false_elim in H as [Hx H].
    rewrite IH; [|exact H|exact Hr].
    unfold eol_cont. rewrite mt_eol. unfold at_eol. cbn [rest multiline f_mi andb].
    now rewrite Hx.
Qed.

Lemma match_at_pinned b s :
  match pin_spec b s with
  | Some tok => exists st, match_at f_mi Action.pinned_rx b s = Some st /\ cap 1 st = tok
  | None => match_at f_mi Action.pinned_rx b s = None
  end.
Proof.
  unfold pin_spec, match_at, Action.pinned_rx, space_rx, lit. cbn [seqs].
  rewrite mt_seq, mt_bol.
  change (at_bol f_mi (MState b s [])) with (bol b).
  destruct (bol b); [|reflexivity].
  unfold pin_at.
  rewrite mt_seq, (mt_star_blocked f_mi false [CSpace] is_space);
    [|apply cls_space|].
  2:{ intros [b' [|x t] c'] H; [discriminate|]. simpl in H.
      rewrite mt_seq, mt_lit.
      change (u "Citation Key:") with (67 :: u "itation Key:").
      now rewrite (strip_lit_head_false _ _ _ _ _ (space_blocks_chr f_mi 67 x eq_refl H)). }
  rewrite mt_seq, mt_lit.
  destruct (strip_lit f_mi (u "Citation Key:") (drop_while is_space s))
    as [[lbl s2]|]; [|reflexivity].
  rewrite mt_seq, (mt_star_blocked f_mi false [CSpace] is_space);
    [|apply cls_space|].
  2:{ intros [b' [|x t] c'] H; [discriminate|]. simpl in H.
      rewrite mt_seq, mt_grp, mt_plus_cls. cbn [take_while].
      rewrite cls_tok. unfold tok_char. now rewrite H. }
  rewrite mt_seq, mt_grp, (mt_plus_blocked f_mi true [CSpace; CChar 35] tok_char);
    [|apply cls_tok|].
  2:{ intros [b' [|x t] c'] H; [discriminate|]. simpl in H.
      unfold set_cap; cbn [rest before caps].
      rewrite mt_seq, mt_star_cls. cbn [take_while drop_while].
      rewrite cls_space, (tok_char_not_space _ H). cbn [try_back].
      rewrite mt_eol. unfold at_eol. cbn [rest multiline f_mi andb].
      destruct (is_line_terminator x) eqn:Hx; [|reflexivity].
      apply line_terminator_space in Hx. apply tok_char_not_space in H. congruence. }
  destruct (take_while tok_char (drop_while is_space s2)) as [|t0 tok0] eqn:E;
    [reflexivity|].
  unfold set_cap; cbn [rest before caps].
  rewrite mt_seq, mt_star_cls.
  rewrite (take_while_ext _ is_space _ (cls_space f_mi)),
          (drop_while_ext _ is_space _ (cls_space f_mi)).
  change (fun st' : mstate => mt f_mi Eol st' Some) with eol_cont.
  set (s4 := drop_while tok_char (drop_while is_space s2)).
  destruct (ends_line (take_while is_space s4) (drop_while is_space s4)) eqn:L.
  - pose proof (try_back_eol_some _ (rev (t0 :: tok0) ++ rev (take_while is_space s2)
                  ++ rev lbl ++ rev (take_while is_space s) ++ b)
                  [(1%nat, consumed
                      (MState (rev (take_while is_space s2) ++ rev lbl
                               ++ rev (take_while is_space s) ++ b)
                         (drop_while is_space s2) [])
                      (MState (rev (t0 :: tok0) ++ rev (take_while is_space s2)
                               ++ rev lbl ++ rev (take_while is_space s) ++ b)
                         s4 []))]
                  _ L) as Hsome.
    match goal with
    | |- context [try_back eol_cont ?b0 ?c0 ?w0 ?r0] =>
      destruct (try_back eol_cont b0 c0 w0 r0) as [st|] eqn:T
    end.
    + exists st. split; [reflexivity|].
      apply try_back_eol_caps in T as [Hc _]. unfold cap. rewrite Hc. simpl.
      rewrite <- E. apply extends_consumed. cbn [rest]. unfold s4.
      symmetry. apply take_drop_while.
    + exfalso. revert T. rev_norm. intros T.
      apply Hsome. revert T. rev_norm. tauto.
  - apply try_back_eol_none; [exact L|apply drop_while_headed].
Qed.

Lemma match_first_pinned s : forall b,
  match match_first f_mi Action.pinned_rx b s with
  | Some m => Some (cap 1 m)
  | None => None
  end = first_match pin_spec b s.
Proof.
  induction s as [|c t IH]; intros b; simpl;
    pose proof (match_at_pinned b) as H.
  - specialize (H []). destruct (pin_spec b []) as [tok|].
    + destruct H as (st & -> & <-). reflexivity.
    + now rewrite H.
  - specialize (H (c :: t)). destruct (pin_spec b (c :: t)) as [tok|].
    + destruct H as (st & -> & <-). reflexivity.
    + rewrite H. apply IH.
Qed.

Lemma pinnedFromNote_first_match note :
  Action.pinnedFromNote (Some note) = first_match pin_spec [] note.
Proof.
  unfold Action.pinnedFromNote. destruct note as [|c t]; [reflexivity|].
  cbn [truthy]. apply match_first_pinned.
Qed.

Lemma first_match_here {A : Type} (spec : jsstring -> jsstring -> option A) b s a :
  spec b s = Some a -> first_match spec b s = Some a.
Proof. intros H. destruct s; simpl; now rewrite H. Qed.

Lemma first_match_prefix {A : Type} (spec : jsstring -> jsstring -> option A) pre :
  forall b tail, no_match_in spec b pre tail = true ->
  first_match spec b (pre ++ tail) = first_match spec (rev pre ++ b) tail.
Proof.
  induction pre as [|c pre IH]; intros b tail H; [reflexivity|].
  simpl in *. destruct (spec b (c :: pre ++ tail)); [discriminate|].
  rewrite (IH _ _ H). now rewrite <- app_assoc.
Qed.

Lemma first_match_sound {A : Type} (spec : jsstring -> jsstring -> option A) s :
  forall b a, first_match spec b s = Some a ->
  exists pre tail, s = pre ++ tail /\ spec (rev pre ++ b) tail = Some a
                   /\ no_match_in spec b pre tail = true.
Proof.
  induction s as [|c t IH]; intros b a H; simpl in H.
  - destruct (spec b []) eqn:E; [|discriminate]. injection H as ->.
    now exists [], [].
  - destruct (spec b (c :: t)) eqn:E.
    + injection H as ->. now exists [], (c :: t).
    + apply IH in H as (pre & tail & -> & Hs & Hn).
      exists (c :: pre), tail. split; [reflexivity|]. split.
      * simpl. now rewrite <- app_assoc.
      * simpl. now rewrite E.
Qed.

Lemma first_match_none {A : Type} (spec : jsstring -> jsstring -> option A) s :
  forall b, no_match_in spec b s [] = true -> spec (rev s ++ b) [] = None ->
  first_match spec b s = None.
Proof.
  intros b H Hnil. rewrite <- (app_nil_r s) at 1.
  rewrite (first_match_prefix spec s b [] H). simpl. now rewrite Hnil.
Qed.

Lemma take_while_app_all p (l r : jsstring) :
  forallb p l = true -> take_while p (l ++ r) = l ++ take_while p r.
Proof.
  induction l as [|x l IH]; simpl; [reflexivity|].
  intros H. apply andb_prop in H as [Hx H]. now rewrite Hx, IH.
Qed.

Lemma drop_while_app_all p (l r : jsstring) :
  forallb p l = true -> drop_while p (l ++ r) = drop_while p r.
Proof.
  induction l as [|x l IH]; simpl; [reflexivity|].
  intros H. apply andb_prop in H as [Hx H]. now rewrite Hx, IH.
Qed.

Lemma existsb_split (p : char -> bool) (l : jsstring) :
  existsb p l = true ->
  exists l1 x l2, l = l1 ++ x :: l2 /\ p x = true.
Proof.
  induction l as [|c l IH]; simpl; [discriminate|].
  destruct (p c) eqn:E.
  - intros _. now exists [], c, l.
  - simpl. intros H. apply IH in H as (l1 & x & l2 & -> & Hx).
    now exists (c :: l1), x, l2.
Qed.

Lemma ci_eq_head a pat lbl r :
  ci_eq (a :: pat) lbl = true -> is_space a = false ->
  headed is_space (lbl ++ r) = false.
Proof.
  destruct lbl as [|x lbl]; simpl; [discriminate|].
  intros H Ha. apply andb_prop in H as [H _].
  destruct (is_space x) eqn:Hx; [|reflexivity].
  now rewrite (space_blocks_chr f_gi a x Ha Hx) in H.
Qed.

(** What [pin_at] reads: white space, the label, white space, the token,
    white space, and then the end of the text or a line terminator. *)
Lemma pin_at_complete ws1 lbl ws2 tok ws3 post :
  forallb is_space ws1 = true -> ci_eq (u "Citation Key:") lbl = true ->
  forallb is_space ws2 = true ->
  tok <> [] -> forallb tok_char tok = true ->
  forallb is_space ws3 = true -> line_end post = true ->
  pin_at (ws1 ++ lbl ++ ws2 ++ tok ++ ws3 ++ post) = Some tok.
Proof.
  intros H1 Hl H2 Hne Ht H3 Hp. unfold pin_at.
  assert (Hhead : headed tok_char (ws3 ++ post) = false).
  { destruct ws3 as [|x ws3]; simpl.
    - destruct post as [|y post]; [reflexivity|]. simpl in *.
      apply line_terminator_space in Hp. unfold tok_char. now rewrite Hp.
    - simpl in H3. apply andb_prop in H3 as [Hx _]. unfold tok_char. now rewrite Hx. }
  rewrite (drop_while_app is_space ws1 _ H1
             (ci_eq_head 67 (u "itation Key:") lbl _ Hl eq_refl)).
  rewrite strip_lit_mi, (strip_lit_ci _ _ _ Hl).
  assert (Htok : headed is_space (tok ++ ws3 ++ post) = false).
  { destruct tok as [|x tok]; [contradiction|]. simpl in *.
    apply andb_prop in Ht as [Hx _]. now apply tok_char_not_space. }
  cbv zeta.
  rewrite (drop_while_app is_space ws2 _ H2 Htok).
  rewrite (take_while_app tok_char tok _ Ht Hhead).
  rewrite (drop_while_app tok_char tok _ Ht Hhead).
  rewrite (take_while_app_all is_space ws3 post H3).
  rewrite (drop_while_app_all is_space ws3 post H3).
  assert (L : ends_line (ws3 ++ take_while is_space post) (drop_while is_space post) = true).
  { destruct post as [|y post]; [reflexivity|]. simpl in Hp.
    simpl. rewrite (line_terminator_space _ Hp).
    unfold ends_line. destruct (drop_while is_space post); [reflexivity|].
    rewrite existsb_app. simpl. rewrite Hp. now rewrite orb_true_r. }
  rewrite L. destruct tok; [contradiction|reflexivity].
Qed.

Lemma pin_at_sound s tok :
  pin_at s = Some tok ->
  exists ws1 lbl ws2 ws3 post,
    s = ws1 ++ lbl ++ ws2 ++ tok ++ ws3 ++ post
    /\ forallb is_space ws1 = true /\ ci_eq (u "Citation Key:") lbl = true
    /\ forallb is_space ws2 = true
    /\ tok <> [] /\ forallb tok_char tok = true
    /\ forallb is_space ws3 = true /\ line_end post = true.
Proof.
  unfold pin_at. intros H.
  pose proof (take_drop_while is_space s) as T1.
  destruct (strip_lit f_mi (u "Citation Key:") (drop_while is_space s))
    as [[lbl s2]|] eqn:E1; [|discriminate].
  rewrite strip_lit_mi in E1.
  pose proof (strip_lit_ci_inv _ _ _ _ E1) as Hl.
  apply strip_lit_app in E1 as [E1 _].
  pose proof (take_drop_while is_space s2) as T2.
  set (s3 := drop_while is_space s2) in *.
  pose proof (take_drop_while tok_char s3) as T3.
  pose proof (take_while_forallb tok_char s3) as Ht.
  destruct (take_while tok_char s3) as [|t0 tok0] eqn:E3; [discriminate|].
  cbv zeta in H.
  set (s4 := drop_while tok_char s3) in *.
  pose proof (take_drop_while is_space s4) as T4.
  pose proof (take_while_forallb is_space s4) as Hw.
  destruct (ends_line (take_while is_space s4) (drop_while is_space s4)) eqn:L;
    [|discriminate].
  injection H as <-.
  assert (Hs : s = take_while is_space s ++ lbl ++ take_while is_space s2
                   ++ (t0 :: tok0) ++ s4).
  { rewrite <- T1 at 1. rewrite E1. rewrite <- T2 at 1. now rewrite <- T3 at 1. }
  unfold ends_line in L. destruct (drop_while is_space s4) as [|y r] eqn:D4.
  - exists (take_while is_space s), lbl, (take_while is_space s2),
      (take_while is_space s4), [].
    split; [rewrite app_nil_r; rewrite <- T4 in Hs at 1; now rewrite app_nil_r in Hs|].
    repeat split; try assumption; try apply take_while_forallb; discriminate.
  - apply existsb_split in L as (w1 & x & w2 & Ew & Hx).
    exists (take_while is_space s), lbl, (take_while is_space s2), w1,
      (x :: w2 ++ y :: r).
    split.
    { rewrite Hs at 1. rewrite <- T4 at 1. rewrite Ew. now rewrite <- app_assoc. }
    rewrite Ew in Hw. rewrite forallb_app in Hw. apply andb_prop in Hw as [Hw1 _].
    repeat split; try assumption; try apply take_while_forallb; discriminate.
Qed.

Lemma pin_spec_nil b : pin_spec b [] = None.
Proof. unfold pin_spec. now destruct (bol b). Qed.

Lemma pinnedFromNote_sound note tok :
  Action.pinnedFromNote (Some note) = Some tok ->
  exists pre ws1 lbl ws2 ws3 post,
    note = pre ++ ws1 ++ lbl ++ ws2 ++ tok ++ ws3 ++ post
    /\ line_start pre = true
    /\ forallb is_space ws1 = true /\ ci_eq (u "Citation Key:") lbl = true
    /\ forallb is_space ws2 = true
    /\ tok <> [] /\ forallb tok_char tok = true
    /\ forallb is_space ws3 = true /\ line_end post = true.
Proof.
  rewrite pinnedFromNote_first_match. intros H.
  apply first_match_sound in H as (pre & tail & -> & H & _).
  unfold pin_spec in H. rewrite app_nil_r in H.
  destruct (bol (rev pre)) eqn:B; [|discriminate].
  apply pin_at_sound in H as (ws1 & lbl & ws2 & ws3 & post & -> & H).
  exists pre, ws1, lbl, ws2, ws3, post. split; [reflexivity|]. split; [exact B|exact H].
Qed.

Lemma pinnedFromNote_nonempty o p : Action.pinnedFromNote o = Some p -> truthy p = true.
Proof.
  destruct o as [note|]; [|discriminate]. intros H.
  apply pinnedFromNote_sound in H as (? & ? & ? & ? & ? & ? & _ & _ & _ & _ & _ & H & _).
  now apply truthy_true.
Qed.

Lemma build_index_snoc items it :
  Action.build_index (items ++ [it]) = Action.index_step (Action.build_index items) it.
Proof. unfold Action.build_index. now rewrite fold_left_app. Qed.

(** C10, as amended.  [pinnedFromNote] returns a key only when the note
    holds, from the start of a line, optional white space, the label
    [Citation Key:] in any letter case, optional white space, a token of one
    or more code units none of which is white space or [#], optional white
    space and then the end of a line.  White space includes line
    terminators, so the label and the token need not be on one line.  The
    notes [Citation Key: Smith2020 extra] and [Citation Key: Smith#2020]
    give no key. *)
Theorem pinned_token_restriction :
  (forall note tok : jsstring,
     Action.pinnedFromNote (Some note) = Some tok ->
     exists pre ws1 lbl ws2 ws3 post,
       note = pre ++ ws1 ++ lbl ++ ws2 ++ tok ++ ws3 ++ post
       /\ line_start pre = true
       /\ forallb is_space ws1 = true /\ ci_eq (u "Citation Key:") lbl = true
       /\ forallb is_space ws2 = true
       /\ tok <> [] /\ forallb tok_char tok = true
       /\ forallb is_space ws3 = true /\ line_end post = true)
  /\ Action.pinnedFromNote (Some (u "Citation Key: Smith2020 extra")) = None
  /\ Action.pinnedFromNote (Some (u "Citation Key: Smith#2020")) = None.
Proof.
  split; [exact pinnedFromNote_sound|]. split; vm_compute; reflexivity.
Qed.

Lemma pinned_token_restriction_witness :
  exists pre ws1 lbl ws2 ws3 post,
    u "  citation key: Smith2020 " ++ [LF] ++ u "Other text"
    = pre ++ ws1 ++ lbl ++ ws2 ++ u "Smith2020" ++ ws3 ++ post
    /\ line_start pre = true
    /\ forallb is_space ws1 = true /\ ci_eq (u "Citation Key:") lbl = true
    /\ forallb is_space ws2 = true
    /\ u "Smith2020" <> [] /\ forallb tok_char (u "Smith2020") = true
    /\ forallb is_space ws3 = true /\ line_end post = true.
Proof.
  apply (proj1 pinned_token_restriction). vm_compute. reflexivity.
Defined.

(** C10 fails as stated: the note below has two lines, [Citation Key:] and
    [Smith2020]; on neither of them is the label followed by a token, yet
    [pinnedFromNote] returns the key [Smith2020]. *)
Lemma pinned_token_on_next_line :
  lines note_label_alone = [u "Citation Key:"; u "Smith2020"]
  /\ List.map pin_at (lines note_label_alone) = [None; None]
  /\ Action.pinnedFromNote (Some note_label_alone) = Some (u "Smith2020").
Proof. repeat split; vm_compute; reflexivity. Qed.

(** *** Entries anywhere in the list *)

Lemma build_index_app items1 items2 :
  Action.build_index (items1 ++ items2)
  = fold_left Action.index_step items2 (Action.build_index items1).
Proof. unfold Action.build_index. apply fold_left_app. Qed.

(** The pins after a step are a function of the pins before it. *)
Lemma index_step_pins ix ix' it :
  pinnedMap ix = pinnedMap ix' ->
  pinnedMap (Action.index_step ix it) = pinnedMap (Action.index_step ix' it).
Proof.
  intros E. unfold Action.index_step.
  destruct (truthy (Action.item_key it)); cbn [negb pinnedMap]; [|exact E].
  now rewrite E.
Qed.

Lemma fold_index_pins items : forall ix ix',
  pinnedMap ix = pinnedMap ix' ->
  pinnedMap (fold_left Action.index_step items ix)
  = pinnedMap (fold_left Action.index_step items ix').
Proof.
  induction items as [|it items IH]; intros ix ix' E; [exact E|].
  cbn [fold_left]. apply IH. now apply index_step_pins.
Qed.

(** An entry without a pin leaves the pins as they are. *)
Lemma index_step_no_pin ix it :
  Action.pinnedFromNote (note it) = None ->
  pinnedMap (Action.index_step ix it) = pinnedMap ix.
Proof.
  intros H. unfold Action.index_step.
  destruct (truthy (Action.item_key it)); cbn [negb pinnedMap]; [|reflexivity].
  now rewrite H.
Qed.

(** A pin stays under its key while no entry with that key brings another. *)
Lemma fold_index_pin_kept k p items : forall ix,
  pinnedMap ix !! k = Some p ->
  (forall it, In it items -> Action.item_key it = k ->
              Action.pinnedFromNote (note it) = None) ->
  pinnedMap (fold_left Action.index_step items ix) !! k = Some p.
Proof.
  induction items as [|it items IH]; intros ix Hp Hno; [exact Hp|].
  cbn [fold_left]. apply IH.
  - unfold Action.index_step.
    destruct (truthy (Action.item_key it)); cbn [negb pinnedMap]; [|exact Hp].
    destruct (Action.pinnedFromNote (note it)) as [q|] eqn:Hq; [|exact Hp].
    destruct (truthy q); [|exact Hp].
    rewrite lookup_insert_ne; [exact Hp|].
    intros E. specialize (Hno it (or_introl eq_refl) E). congruence.
  - intros it' Hin. apply Hno. now right.
Qed.

(** A key that has a pin has, after more entries, the pin of the last of
    them that brings one, or the pin it had. *)
Lemma fold_index_pin_from k items : forall ix p,
  pinnedMap ix !! k = Some p ->
  pinnedMap (fold_left Action.index_step items ix) !! k = Some p
  \/ exists it q, In it items /\ Action.item_key it = k
                  /\ Action.pinnedFromNote (note it) = Some q
                  /\ pinnedMap (fold_left Action.index_step items ix) !! k = Some q.
Proof.
  induction items as [|it items IH] using rev_ind; intros ix p Hp; [now left|].
  rewrite fold_left_app. cbn [fold_left].
  set (ix1 := fold_left Action.index_step items ix).
  assert (Hkeep : pinnedMap ix1 !! k = Some p
                  \/ exists it0 q, In it0 (items ++ [it]) /\ Action.item_key it0 = k
                       /\ Action.pinnedFromNote (note it0) = Some q
                       /\ pinnedMap ix1 !! k = Some q).
  { destruct (IH ix p Hp) as [H|(it0 & q & Hin & Hk & Hq & H)]; [now left|].
    right. exists it0, q. split; [apply in_or_app; now left|now repeat split]. }
  unfold Action.index_step.
  destruct (truthy (Action.item_key it)); cbn [negb pinnedMap]; [|exact Hkeep].
  destruct (Action.pinnedFromNote (note it)) as [q|] eqn:Hq; [|exact Hkeep].
  rewrite (pinnedFromNote_nonempty _ _ Hq).
  destruct (decide (Action.item_key it = k)) as [E|E].
  - right. exists it, q. split; [apply in_or_app; right; now left|].
    split; [exact E|]. split; [exact Hq|]. rewrite E. apply lookup_insert_eq.
  - rewrite lookup_insert_ne by exact E. exact Hkeep.
Qed.

Lemma build_index_pin_here before it p :
  Action.item_key it <> [] -> Action.pinnedFromNote (note it) = Some p ->
  pinnedMap (Action.build_index (before ++ [it])) !! Action.item_key it = Some p.
Proof.
  intros Hk Hp. rewrite build_index_snoc. unfold Action.index_step.
  apply truthy_true in Hk. rewrite Hk. cbn [negb pinnedMap].
  rewrite Hp, (pinnedFromNote_nonempty _ _ Hp). apply lookup_insert_eq.
Qed.

Lemma cons_middle_app {A : Type} (l1 : list A) x l2 : l1 ++ x :: l2 = (l1 ++ [x]) ++ l2.
Proof. now rewrite <- app_assoc. Qed.

(** C6, as amended.  The pin of an entry is the token of the leftmost match
    in its note of: the start of a line, white space, the label
    [Citation Key:] in any letter case, white space, a token without white
    space or [#], white space, the end of a line, where white space may
    hold line terminators.  For an entry with a non-empty item key, wherever
    it is in the list, that token is registered in [pinnedMap] under the
    key: it is what the index holds for the key when no later entry with the
    same key has a token, and otherwise the index holds the token of one of
    those later entries.  An entry whose note is absent or has no match
    registers nothing: the pins are those of the list without it.  And a key
    without a pin is kept by the header pass. *)
Theorem pinned_key_extraction :
  Action.pinnedFromNote (Some (u "Citation Key: Smith2020" ++ [LF] ++ u "Other text"))
  = Some (u "Smith2020")
  /\ (forall pre ws1 lbl ws2 tok ws3 post : jsstring,
        line_start pre = true ->
        forallb is_space ws1 = true -> ci_eq (u "Citation Key:") lbl = true ->
        forallb is_space ws2 = true ->
        tok <> [] -> forallb tok_char tok = true ->
        forallb is_space ws3 = true -> line_end post = true ->
        no_match_in pin_spec [] pre (ws1 ++ lbl ++ ws2 ++ tok ++ ws3 ++ post) = true ->
        Action.pinnedFromNote (Some (pre ++ ws1 ++ lbl ++ ws2 ++ tok ++ ws3 ++ post))
        = Some tok)
  /\ (forall s tok : jsstring,
        pin_at s = Some tok <->
        exists ws1 lbl ws2 ws3 post,
          s = ws1 ++ lbl ++ ws2 ++ tok ++ ws3 ++ post
          /\ forallb is_space ws1 = true /\ ci_eq (u "Citation Key:") lbl = true
          /\ forallb is_space ws2 = true
          /\ tok <> [] /\ forallb tok_char tok = true
          /\ forallb is_space ws3 = true /\ line_end post = true)
  /\ (forall (before : list CSLItem) it (after : list CSLItem) p,
        Action.item_key it <> [] ->
        Action.pinnedFromNote (note it) = Some p ->
        (forall it', In it' after -> Action.item_key it' = Action.item_key it ->
                     Action.pinnedFromNote (note it') = None) ->
        pinnedMap (Action.build_index (before ++ it :: after)) !! Action.item_key it
        = Some p)
  /\ (forall (before : list CSLItem) it (after : list CSLItem) p,
        Action.item_key it <> [] ->
        Action.pinnedFromNote (note it) = Some p ->
        exists it' q,
          In it' (it :: after) /\ Action.item_key it' = Action.item_key it
          /\ Action.pinnedFromNote (note it') = Some q
          /\ pinnedMap (Action.build_index (before ++ it :: after)) !! Action.item_key it
             = Some q)
  /\ (forall (before : list CSLItem) it (after : list CSLItem),
        Action.pinnedFromNote (note it) = None ->
        pinnedMap (Action.build_index (before ++ it :: after))
        = pinnedMap (Action.build_index (before ++ after)))
  /\ Action.pinnedFromNote None = None
  /\ (forall note : jsstring,
        no_match_in pin_spec [] note [] = true ->
        Action.pinnedFromNote (Some note) = None)
  /\ (forall ix pre ty key post,
        pinnedMap ix !! key = None ->
        ty <> [] -> forallb is_word ty = true ->
        key <> [] -> forallb not_comma key = true ->
        no_header_in pre (64 :: ty ++ 123 :: key ++ 44 :: post) = true ->
        exists ty',
          Action.rewrite_headers ix (pre ++ 64 :: ty ++ 123 :: key ++ 44 :: post)
          = pre ++ 64 :: ty' ++ 123 :: key ++ 44 :: Action.rewrite_headers ix post).
Proof.
  split; [vm_compute; reflexivity|].
  split; [|split; [|split; [|split; [|split; [|split; [|split]]]]]].
  - intros pre ws1 lbl ws2 tok ws3 post Hpre H1 Hl H2 Hne Ht H3 Hp Hno.
    rewrite pinnedFromNote_first_match, (first_match_prefix _ _ _ _ Hno).
    apply first_match_here. unfold pin_spec. rewrite app_nil_r.
    unfold line_start in Hpre. rewrite Hpre. now apply pin_at_complete.
  - intros s tok. split; [apply pin_at_sound|].
    intros (ws1 & lbl & ws2 & ws3 & post & -> & H1 & Hl & H2 & Hne & Ht & H3 & Hp).
    now apply pin_at_complete.
  - intros before it after p Hk Hp Hno.
    rewrite cons_middle_app, build_index_app.
    apply fold_index_pin_kept; [now apply build_index_pin_here|exact Hno].
  - intros before it after p Hk Hp.
    rewrite cons_middle_app, build_index_app.
    destruct (fold_index_pin_from (Action.item_key it) after
                (Action.build_index (before ++ [it])) p
                (build_index_pin_here before it p Hk Hp))
      as [H|(it' & q & Hin & Hk' & Hq & H)].
    + exists it, p. split; [now left|]. now repeat split.
    + exists it', q. split; [now right|]. now repeat split.
  - intros before it after Hp.
    rewrite cons_middle_app, (build_index_app (before ++ [it])),
      (build_index_app before after).
    apply fold_index_pins. rewrite build_index_snoc. now apply index_step_no_pin.
  - reflexivity.
  - intros note Hno. rewrite pinnedFromNote_first_match.
    apply first_match_none; [exact Hno|apply pin_spec_nil].
  - intros ix pre ty key post Hpin Hty Hw Hkey Hc Hno.
    rewrite (rewrite_headers_first ix pre ty key post Hty Hw Hkey Hc Hno).
    unfold header_out. rewrite Hpin. cbn [Action.or_key].
    exists (or_string
              (object_get Action.typeMap (Action.or_empty (typeHints ix !! key))) ty).
    change (u "@") with [64]. change (u "{") with [123]. change (u ",") with [44].
    list_norm. reflexivity.
Qed.

Lemma pinned_key_extraction_witness :
  Action.pinnedFromNote
    (Some (u "Title note" ++ [LF] ++ u " " ++ u "CITATION KEY:" ++ u " " ++ u "Smith2020"
           ++ [] ++ [LF] ++ u "Other text"))
  = Some (u "Smith2020")
  /\ pinnedMap (Action.build_index
                  ([entry_scenario] ++ entry_first :: [entry_second; entry_scenario]))
     !! Action.item_key entry_first
     = Some (u "First").
Proof.
  destruct pinned_key_extraction as (_ & Hfirst & _ & Hreg & _).
  split.
  - apply (Hfirst (u "Title note" ++ [LF]) (u " ") (u "CITATION KEY:") (u " ")
             (u "Smith2020") [] ([LF] ++ u "Other text"));
      try reflexivity. discriminate.
  - apply Hreg; [discriminate|reflexivity|].
    intros it' [<-|[<-|[]]]; [reflexivity|discriminate].
Defined.

(** C6 fails as stated: the only line of the note below that has the form
    [Citation Key: <token>] is the third, with the token [Smith2020], and
    the key registered for the entry is [foo], read across the line break
    after the label of the first line. *)
Lemma pinned_key_not_of_its_line :
  lines note_three_lines = [u "Citation Key:"; u "foo"; u "Citation Key: Smith2020"]
  /\ List.map pin_at (lines note_three_lines) = [None; None; Some (u "Smith2020")]
  /\ Action.pinnedFromNote (Some note_three_lines) = Some (u "foo")
  /\ pinnedMap (Action.build_index [entry_three_lines]) !! u "K" = Some (u "foo").
Proof. repeat split; vm_compute; reflexivity. Qed.

(** ** The type field *)

(** *** The cleaning of the value *)

Lemma match_at_brace b s :
  match_at f_g (Cls false [CChar 123; CChar 125]) b s
  = match s with
    | x :: t => if no_brace_char x then None else Some (MState (x :: b) t [])
    | [] => None
    end.
Proof.
  unfold match_at. simpl. unfold step_char. simpl.
  destruct s as [|x t]; [reflexivity|].
  unfold cls_match, no_brace_char. simpl. rewrite orb_false_r.
  now destruct ((x =? 123) || (x =? 125)).
Qed.

Lemma strip_braces_replace s : forall b,
  replace_from f_g (Cls false [CChar 123; CChar 125]) (fun _ => []) b s
  = strip_braces s.
Proof.
  induction s as [|x t IH]; intros b.
  - apply replace_from_nil. now rewrite match_at_brace.
  - pose proof (match_at_brace b (x :: t)) as H. simpl. cbv beta iota in H.
    destruct (no_brace_char x) eqn:E.
    + rewrite (replace_from_skip _ _ _ _ _ _ H). now rewrite IH.
    + rewrite (replace_from_match _ _ _ _ _ _ H) by (simpl; lia).
      simpl. apply IH.
Qed.

Lemma match_at_spaces b s :
  match_at f_g (Rep 1 space_rx) b s
  = match take_while is_space s with
    | [] => None
    | w => Some (MState (rev w ++ b) (drop_while is_space s) [])
    end.
Proof.
  unfold match_at, space_rx. rewrite mt_plus_cls.
  rewrite (take_while_ext _ is_space _ (cls_space f_g)),
          (drop_while_ext _ is_space _ (cls_space f_g)).
  destruct (take_while is_space s) as [|x l]; [reflexivity|].
  rewrite (try_back_first Some l (x :: b) [] _ _ eq_refl).
  simpl. now rewrite <- app_assoc.
Qed.

Lemma collapse_after_space s :
  collapse_from true s = collapse_from false (drop_while is_space s).
Proof.
  induction s as [|x t IH]; simpl; [reflexivity|].
  destruct (is_space x) eqn:E; [exact IH|]. simpl. now rewrite E.
Qed.

Lemma collapse_ws_replace n : forall s b, (length s <= n)%nat ->
  replace_from f_g (Rep 1 space_rx) (fun _ => u " ") b s = collapse_ws s.
Proof.
  induction n as [|n IH]; intros s b Hn.
  - destruct s; [|simpl in Hn; lia].
    apply replace_from_nil. now rewrite match_at_spaces.
  - destruct s as [|x t].
    + apply replace_from_nil. now rewrite match_at_spaces.
    + pose proof (match_at_spaces b (x :: t)) as H. simpl in H.
      unfold collapse_ws. simpl. destruct (is_space x) eqn:E.
      * rewrite (replace_from_match _ _ _ _ _ _ H).
        -- cbn [rest]. rewrite collapse_after_space.
           change (u " ") with [32]. simpl. f_equal. apply IH.
           pose proof (take_drop_while is_space t) as T.
           apply (f_equal (@length N)) in T. rewrite length_app in T.
           simpl in Hn. lia.
        -- cbn [rest]. pose proof (take_drop_while is_space t) as T.
           apply (f_equal (@length N)) in T. rewrite length_app in T.
           simpl. lia.
      * rewrite (replace_from_skip _ _ _ _ _ _ H). f_equal. apply IH.
        simpl in Hn. lia.
Qed.

(** The value is cleaned as the claim says. *)
Lemma clean_content_value content : Action.clean_content content = clean_value content.
Proof.
  unfold Action.clean_content, clean_value, replace_all.
  rewrite strip_braces_replace.
  now rewrite (collapse_ws_replace (length (strip_braces content))).
Qed.

(** *** Values with one level of braces *)

Lemma one_level_inside t :
  one_level_from true t = true ->
  exists inner l, t = inner ++ 125 :: l
    /\ forallb no_brace_char inner = true /\ one_level_from false l = true.
Proof.
  induction t as [|x t IH]; simpl; [discriminate|].
  destruct (N.eqb_spec x 123) as [->|H123]; [discriminate|].
  destruct (N.eqb_spec x 125) as [->|H125].
  - intros H. now exists [], t.
  - intros H. apply IH in H as (inner & l & -> & Hi & Hl).
    exists (x :: inner), l. split; [reflexivity|]. split; [|exact Hl].
    simpl. rewrite Hi. unfold no_brace_char.
    apply N.eqb_neq in H123, H125. now rewrite H123, H125.
Qed.

Lemma scan_content_complete m : forall content,
  (length content <= m)%nat -> one_level content = true ->
  forall n post, (length (content ++ 125%N :: post) <= n)%nat ->
  scan_content n (content ++ 125 :: post) = (content, 125 :: post).
Proof.
  unfold one_level.
  induction m as [|m IH]; intros content Hm Hc n post Hn.
  - destruct content; [|simpl in Hm; lia].
    destruct n; [simpl in Hn; lia|]. reflexivity.
  - destruct n as [|n]; [rewrite length_app in Hn; simpl in Hn; lia|].
    destruct content as [|x t]; [reflexivity|].
    simpl in Hc. cbn [app scan_content].
    destruct (N.eqb_spec x 123) as [->|H123].
    + change (no_brace_char 123) with false. cbv iota.
      apply one_level_inside in Hc as (inner & l & -> & Hi & Hl).
      rewrite <- app_assoc. cbn [app].
      rewrite (drop_while_app no_brace_char inner (125 :: l ++ 125 :: post) Hi eq_refl).
      rewrite (take_while_app no_brace_char inner (125 :: l ++ 125 :: post) Hi eq_refl).
      cbn [N.eqb Pos.eqb].
      rewrite (IH l); [reflexivity| |exact Hl|].
      * simpl in Hm. rewrite length_app in Hm. simpl in Hm. lia.
      * simpl in Hn. rewrite !length_app in Hn. simpl in Hn.
        rewrite length_app. simpl. lia.
    + destruct (N.eqb_spec x 125) as [->|H125]; [discriminate|].
      assert (Hx : no_brace_char x = true).
      { unfold no_brace_char. apply N.eqb_neq in H123, H125. now rewrite H123, H125. }
      rewrite Hx. rewrite (IH t); [reflexivity| |exact Hc|].
      * simpl in Hm. lia.
      * simpl in Hn. lia.
Qed.

(** *** The expression of the type field *)

Lemma mt_alt fl r1 r2 st k :
  mt fl (Alt r1 r2) st k
  = match mt fl r1 st k with Some res => Some res | None => mt fl r2 st k end.
Proof. reflexivity. Qed.

Lemma mt_cls fl neg items b s c k :
  mt fl (Cls neg items) (MState b s c) k
  = match s with
    | x :: t => if cls_match fl neg items x then k (MState (x :: b) t c) else None
    | [] => None
    end.
Proof. reflexivity. Qed.

Lemma mt_opt fl r st k :
  mt fl (Opt r) st k
  = match mt fl r st (fun st' => if same_pos st st' then None else k st') with
    | Some res => Some res
    | None => k st
    end.
Proof. reflexivity. Qed.

Lemma no_brace_not_rbrace x : no_brace_char x = true -> not_rbrace x = true.
Proof.
  unfold no_brace_char, not_rbrace. destruct (x =? 123), (x =? 125); auto.
Qed.

Lemma mt_item b s c k :
  mt f_mi item_rx (MState b s c) k
  = match s with
    | [] => None
    | x :: t =>
      if no_brace_char x then k (MState (x :: b) t c)
      else if x =? 123 then
        match drop_while no_brace_char t with
        | y :: t' =>
          if y =? 125
          then k (MState (125 :: rev (take_while no_brace_char t) ++ 123 :: b) t' c)
          else None
        | [] => None
        end
      else None
    end.
Proof.
  unfold item_rx, Action.no_brace. cbn [seqs]. rewrite mt_alt, mt_cls, mt_seq, mt_chr.
  destruct s as [|x t]; [reflexivity|].
  rewrite cls_no_brace, (chr_match_nonletter f_mi 123 x eq_refl).
  destruct (no_brace_char x) eqn:E.
  - unfold no_brace_char in E. destruct (x =? 123); [discriminate|].
    now destruct (k _).
  - destruct (N.eqb_spec x 123) as [->|]; [|reflexivity].
    rewrite mt_seq, (mt_star_blocked f_mi true [CChar 123; CChar 125] no_brace_char);
      [|apply cls_no_brace|].
    2:{ intros [b' [|y t'] c'] H; [discriminate|]. simpl in H.
        rewrite mt_chr, (chr_match_nonletter f_mi 125 y eq_refl).
        apply no_brace_not_rbrace in H. unfold not_rbrace in H.
        now destruct (y =? 125). }
    rewrite mt_chr. destruct (drop_while no_brace_char t) as [|y t']; [reflexivity|].
    rewrite (chr_match_nonletter f_mi 125 y eq_refl).
    now destruct (N.eqb_spec y 125) as [->|].
Qed.

Lemma scan_content_app n : forall s,
  s = fst (scan_content n s) ++ snd (scan_content n s).
Proof.
  induction n as [|n IH]; intros s; [reflexivity|].
  destruct s as [|x t]; [reflexivity|]. cbn [scan_content].
  destruct (no_brace_char x).
  - specialize (IH t). destruct (scan_content n t) as [c r]. simpl in *. now f_equal.
  - destruct (N.eqb_spec x 123) as [->|]; [|reflexivity].
    pose proof (take_drop_while no_brace_char t) as T.
    destruct (drop_while no_brace_char t) as [|y t']; [reflexivity|].
    destruct (N.eqb_spec y 125) as [->|]; [|reflexivity].
    specialize (IH t'). destruct (scan_content n t') as [c r]. simpl in *.
    f_equal. rewrite <- T at 1. rewrite <- app_assoc. simpl. now f_equal; f_equal.
Qed.

(** The greedy sequence of items, before a continuation that wants a
    closing brace, takes all the items it can. *)
Lemma rep_content k : blocked not_rbrace k ->
  forall n s b c fuel, (length s <= n)%nat -> (length s < fuel)%nat ->
  rep_loop (mt f_mi item_rx) k fuel 0 (MState b s c)
  = k (MState (rev (fst (scan_content n s)) ++ b) (snd (scan_content n s)) c).
Proof.
  intros Hk. induction n as [|n IH]; intros s b c fuel Hn Hf;
    (destruct fuel as [|fuel]; [lia|]); cbn [rep_loop].
  - destruct s; [|simpl in Hn; lia]. now rewrite mt_item.
  - rewrite mt_item. destruct s as [|x t]; [reflexivity|]. cbn [scan_content].
    destruct (no_brace_char x) eqn:E.
    + unfold same_pos. cbn [rest length]. rewrite eqb_succ_false.
      rewrite (IH t (x :: b) c fuel) by (simpl in *; lia).
      destruct (scan_content n t) as [c1 r1]. cbn [fst snd rev].
      rewrite <- app_assoc. cbn [app].
      destruct (k (MState (rev c1 ++ x :: b) r1 c)); [reflexivity|].
      apply Hk. simpl. now apply no_brace_not_rbrace.
    + destruct (N.eqb_spec x 123) as [->|H123].
      * pose proof (take_drop_while no_brace_char t) as T.
        destruct (drop_while no_brace_char t) as [|y t'] eqn:D; [reflexivity|].
        destruct (N.eqb_spec y 125) as [->|]; [|reflexivity].
        assert (Hlen : (length t' < length t)%nat).
        { apply (f_equal (@length N)) in T. rewrite length_app in T. simpl in T. lia. }
        unfold same_pos. cbn [rest length].
        destruct (Nat.eqb_spec (length t') (S (length t))) as [Hbad|_]; [lia|].
        rewrite (IH t' _ c fuel) by (simpl in *; lia).
        destruct (scan_content n t') as [c1 r1]. cbn [fst snd].
        replace (rev (123 :: take_while no_brace_char t ++ 125 :: c1) ++ b)
          with (rev c1 ++ 125 :: rev (take_while no_brace_char t) ++ 123 :: b).
        2:{ cbn [rev]. rewrite rev_app_distr. cbn [rev].
            now rewrite <- !app_assoc. }
        destruct (k (MState _ r1 c)); [reflexivity|].
        apply Hk. reflexivity.
      * reflexivity.
Qed.

Lemma mt_rep0 fl r b s c k :
  mt fl (Rep 0 r) (MState b s c) k = rep_loop (mt fl r) k (S (length s)) 0 (MState b s c).
Proof. reflexivity. Qed.

Lemma type_rx_body : Action.type_rx = Seq (Grp 1 (Alt Bol (Chr 10))) type_body_rx.
Proof. reflexivity. Qed.

(** The end of the expression: white space and an optional comma. *)
Lemma mt_tail st0 b s c :
  exists bf,
    mt f_mi (Seq (Rep 0 space_rx) (Opt (Chr 44))) (MState b s c)
      (fun st' => Some (set_cap 4 (consumed st0 st') st'))
    = match drop_while is_space s with
      | x :: post =>
        if x =? 44
        then Some (MState bf post
                     ((4%nat, consumed st0 (MState bf post c)) :: c))
        else Some (MState bf (x :: post)
                     ((4%nat, consumed st0 (MState bf (x :: post) c)) :: c))
      | [] => Some (MState bf [] ((4%nat, consumed st0 (MState bf [] c)) :: c))
      end.
Proof.
  unfold space_rx. rewrite mt_seq, mt_star_cls.
  rewrite (take_while_ext _ is_space _ (cls_space f_mi)),
          (drop_while_ext _ is_space _ (cls_space f_mi)).
  destruct (drop_while is_space s) as [|x post] eqn:D.
  - eexists. apply try_back_first. rewrite mt_opt, mt_chr. reflexivity.
  - destruct (N.eqb_spec x 44) as [->|Hx].
    + eexists. apply try_back_first. rewrite mt_opt, mt_chr.
      rewrite (chr_match_nonletter f_mi 44 44 eq_refl). cbn [N.eqb Pos.eqb].
      unfold same_pos. cbn [rest length]. rewrite eqb_succ_false. reflexivity.
    + eexists. apply try_back_first. rewrite mt_opt, mt_chr.
      rewrite (chr_match_nonletter f_mi 44 x eq_refl).
      apply N.eqb_neq in Hx. rewrite Hx. reflexivity.
Qed.

Lemma type_body_app s ind content tail post :
  type_body s = Some (ind, content, tail, post) ->
  exists mid, s = ind ++ mid ++ content ++ 125 :: tail ++ post
    /\ ind = take_while is_space s.
Proof.
  unfold type_body. intros H.
  pose proof (take_drop_while is_space s) as T0.
  destruct (strip_lit f_mi (u "type") (drop_while is_space s)) as [[nm s1]|] eqn:E1;
    [|discriminate].
  apply strip_lit_app in E1 as [E1 _].
  pose proof (take_drop_while is_space s1) as T1.
  destruct (drop_while is_space s1) as [|x s2]; [discriminate|].
  destruct (N.eqb_spec x 61) as [->|]; [|discriminate].
  pose proof (take_drop_while is_space s2) as T2.
  destruct (drop_while is_space s2) as [|y s3]; [discriminate|].
  destruct (N.eqb_spec y 123) as [->|]; [|discriminate].
  pose proof (scan_content_app (length s3) s3) as T3.
  destruct (snd (scan_content (length s3) s3)) as [|z s5]; [discriminate|].
  destruct (N.eqb_spec z 125) as [->|]; [|discriminate].
  pose proof (take_drop_while is_space s5) as T5.
  exists (nm ++ take_while is_space s1 ++ 61 :: take_while is_space s2 ++ [123]).
  assert (Hs : forall tl p, s5 = tl ++ p ->
    s = take_while is_space s
        ++ (nm ++ take_while is_space s1 ++ 61 :: take_while is_space s2 ++ [123])
        ++ fst (scan_content (length s3) s3) ++ 125 :: tl ++ p).
  { intros tl p ->. rewrite <- T0 at 1. rewrite E1. rewrite <- T1 at 1.
    rewrite <- T2 at 1. rewrite T3 at 1. list_norm. reflexivity. }
  destruct (drop_while is_space s5) as [|c p].
  - injection H as <- <- <- <-. split; [|reflexivity].
    apply Hs. now rewrite app_nil_r in *.
  - destruct (c =? 44) eqn:Ec.
    + apply N.eqb_eq in Ec. subst c. injection H as <- <- <- <-.
      split; [|reflexivity]. apply Hs. rewrite <- T5 at 1. now rewrite <- app_assoc.
    + injection H as <- <- <- <-. split; [|reflexivity]. apply Hs. now rewrite T5.
Qed.

Lemma mt_type_body b s c0 :
  match type_body s with
  | Some (ind, content, tail, post) =>
    exists bf, mt f_mi type_body_rx (MState b s c0) Some
               = Some (MState bf post
                         ((4%nat, tail) :: (3%nat, content) :: (2%nat, ind) :: c0))
  | None => mt f_mi type_body_rx (MState b s c0) Some = None
  end.
Proof.
  unfold type_body_rx, type_body, space_rx, lit. cbn [seqs].
  rewrite mt_seq, mt_grp, (mt_star_blocked f_mi false [CSpace] is_space);
    [|apply cls_space|].
  2:{ intros [b' [|x t] c'] H; [discriminate|]. simpl in H.
      unfold set_cap; cbn [rest before caps]. rewrite mt_seq, mt_lit.
      change (u "type") with (116 :: u "ype").
      now rewrite (strip_lit_head_false _ _ _ _ _ (space_blocks_chr f_mi 116 x eq_refl H)). }
  unfold set_cap; cbn [rest before caps].
  rewrite (extends_consumed (MState b s c0) _ (take_while is_space s))
    by (cbn [rest]; symmetry; apply take_drop_while).
  rewrite mt_seq, mt_lit.
  destruct (strip_lit f_mi (u "type") (drop_while is_space s)) as [[nm s1]|];
    [|reflexivity].
  rewrite mt_seq, (mt_star_blocked f_mi false [CSpace] is_space);
    [|apply cls_space|].
  2:{ intros [b' [|x t] c'] H; [discriminate|]. simpl in H.
      rewrite mt_seq, mt_chr. now rewrite (space_blocks_chr _ 61 x eq_refl H). }
  rewrite mt_seq, mt_chr.
  destruct (drop_while is_space s1) as [|x s2]; [reflexivity|].
  rewrite (chr_match_nonletter f_mi 61 x eq_refl).
  destruct (N.eqb_spec x 61) as [->|]; [|reflexivity].
  rewrite mt_seq, (mt_star_blocked f_mi false [CSpace] is_space);
    [|apply cls_space|].
  2:{ intros [b' [|x t] c'] H; [discriminate|]. simpl in H.
      rewrite mt_seq, mt_chr. now rewrite (space_blocks_chr _ 123 x eq_refl H). }
  rewrite mt_seq, mt_chr.
  destruct (drop_while is_space s2) as [|y s3]; [reflexivity|].
  rewrite (chr_match_nonletter f_mi 123 y eq_refl).
  destruct (N.eqb_spec y 123) as [->|]; [|reflexivity].
  rewrite mt_seq, mt_grp, mt_rep0.
  rewrite (rep_content _) with (n := length s3); [|..|apply Nat.le_refl|apply Nat.lt_succ_diag_r].
  2:{ intros [b' [|x t] c'] H; [discriminate|]. simpl in H.
      unfold set_cap; cbn [rest before caps]. rewrite mt_seq, mt_chr.
      rewrite (chr_match_nonletter f_mi 125 x eq_refl).
      unfold not_rbrace in H. now destruct (x =? 125). }
  unfold set_cap; cbn [rest before caps].
  rewrite (extends_consumed _ _ (fst (scan_content (length s3) s3)))
    by (cbn [rest]; apply scan_content_app).
  rewrite mt_seq, mt_chr.
  destruct (snd (scan_content (length s3) s3)) as [|z s5]; [reflexivity|].
  rewrite (chr_match_nonletter f_mi 125 z eq_refl).
  destruct (N.eqb_spec z 125) as [->|]; [|reflexivity].
  rewrite mt_grp.
  assert (Htail : exists bf,
    mt f_mi (Seq (Rep 0 (Cls false [CSpace])) (Opt (Chr 44)))
      (MState (125 :: rev (fst (scan_content (length s3) s3)) ++ 123
               :: rev (take_while is_space s2) ++ 61
               :: rev (take_while is_space s1) ++ rev nm
               ++ rev (take_while is_space s) ++ b) s5
         ((3%nat, fst (scan_content (length s3) s3))
          :: (2%nat, take_while is_space s) :: c0))
      (fun st' => Some (set_cap 4
         (consumed
            (MState (125 :: rev (fst (scan_content (length s3) s3)) ++ 123
                     :: rev (take_while is_space s2) ++ 61
                     :: rev (take_while is_space s1) ++ rev nm
                     ++ rev (take_while is_space s) ++ b) s5
               ((3%nat, fst (scan_content (length s3) s3))
                :: (2%nat, take_while is_space s) :: c0)) st') st'))
    = match drop_while is_space s5 with
      | x :: post =>
        if x =? 44
        then Some (MState bf post
               ((4%nat, take_while is_space s5 ++ [44])
                :: (3%nat, fst (scan_content (length s3) s3))
                :: (2%nat, take_while is_space s) :: c0))
        else Some (MState bf (x :: post)
               ((4%nat, take_while is_space s5)
                :: (3%nat, fst (scan_content (length s3) s3))
                :: (2%nat, take_while is_space s) :: c0))
      | [] => Some (MState bf []
               ((4%nat, take_while is_space s5)
                :: (3%nat, fst (scan_content (length s3) s3))
                :: (2%nat, take_while is_space s) :: c0))
      end).
  { match goal with
    | |- context [mt f_mi _ (MState ?b0 ?s0 ?c1)
                    (fun st' => Some (set_cap 4 (consumed ?st0 st') st'))] =>
      destruct (mt_tail st0 b0 s0 c1) as (bf & Hm)
    end.
    exists bf. unfold space_rx in Hm. rewrite Hm.
    pose proof (take_drop_while is_space s5) as T5.
    destruct (drop_while is_space s5) as [|c p].
    - f_equal. f_equal. f_equal. f_equal. apply extends_consumed. cbn [rest].
      now rewrite app_nil_r in *.
    - destruct (N.eqb_spec c 44) as [->|Hc].
      + f_equal. f_equal. f_equal. f_equal. apply extends_consumed. cbn [rest].
        rewrite <- T5 at 1. now rewrite <- app_assoc.
      + f_equal. f_equal. f_equal. f_equal. apply extends_consumed. cbn [rest].
        now rewrite T5. }
  destruct Htail as (bf & ->).
  destruct (drop_while is_space s5) as [|c p]; [now exists bf|].
  destruct (c =? 44); now exists bf.
Qed.

Lemma type_body_lf t :
  type_body (10 :: t)
  = match type_body t with
    | Some (ind, content, tail, post) => Some (10 :: ind, content, tail, post)
    | None => None
    end.
Proof.
  unfold type_body. cbn [drop_while take_while].
  change (is_space 10) with true. cbv iota.
  destruct (strip_lit f_mi (u "type") (drop_while is_space t)) as [[nm s1]|];
    [|reflexivity].
  destruct (drop_while is_space s1) as [|x s2]; [reflexivity|].
  destruct (x =? 61); [|reflexivity].
  destruct (drop_while is_space s2) as [|y s3]; [reflexivity|].
  destruct (y =? 123); [|reflexivity].
  destruct (snd (scan_content (length s3) s3)) as [|z s5]; [reflexivity|].
  destruct (z =? 125); [|reflexivity].
  destruct (drop_while is_space s5) as [|c p]; [reflexivity|].
  now destruct (c =? 44).
Qed.

Lemma consumed_refl st : consumed st st = [].
Proof. unfold consumed. now rewrite Nat.sub_diag. Qed.

Lemma type_repl_caps bf post tail content ind g1 :
  type_repl (MState bf post
               [(4%nat, tail); (3%nat, content); (2%nat, ind); (1%nat, g1)])
  = g1 ++ ind ++ u "type = {" ++ clean_value content ++ u "}" ++ tail.
Proof. unfold type_repl. now rewrite clean_content_value. Qed.

Lemma type_match_spec b s :
  match type_spec b s with
  | Some (a, post) =>
    exists st, match_at f_mi Action.type_rx b s = Some st /\ rest st = post
               /\ type_repl st = type_out a /\ (length post < length s)%nat
  | None => match_at f_mi Action.type_rx b s = None
  end.
Proof.
  rewrite type_rx_body. unfold match_at, type_spec.
  rewrite mt_seq, mt_grp, mt_alt, mt_bol.
  change (at_bol f_mi (MState b s [])) with (bol b).
  rewrite consumed_refl. unfold set_cap. cbn [rest before caps].
  rewrite mt_chr.
  assert (Hlen : forall ind content tail post,
            type_body s = Some (ind, content, tail, post) ->
            (length post < length s)%nat).
  { intros ind content tail post H.
    apply type_body_app in H as (mid & -> & _).
    rewrite !length_app. simpl. rewrite !length_app. lia. }
  destruct (bol b).
  - cbn [orb]. pose proof (mt_type_body b s [(1%nat, [])]) as H.
    destruct (type_body s) as [[[[ind content] tail] post]|] eqn:E.
    + destruct H as (bf & ->). eexists. split; [reflexivity|].
      split; [reflexivity|]. split; [apply type_repl_caps|]. now apply (Hlen _ _ _ _ eq_refl).
    + rewrite H. destruct s as [|x t]; [reflexivity|].
      rewrite (chr_match_nonletter f_mi 10 x eq_refl).
      destruct (N.eqb_spec x 10) as [->|]; [|reflexivity].
      cbn [rest before caps]. rewrite type_body_lf in E.
      pose proof (mt_type_body (10 :: b) t
                    [(1%nat, consumed (MState b (10 :: t) []) (MState (10 :: b) t []))]) as H'.
      destruct (type_body t) as [[[[ind content] tail] post]|]; [discriminate|exact H'].
  - cbn [orb]. destruct s as [|x t]; [reflexivity|]. cbn [headed].
    rewrite (chr_match_nonletter f_mi 10 x eq_refl).
    destruct (N.eqb_spec x 10) as [->|]; [|reflexivity].
    cbn [rest before caps].
    rewrite (extends_consumed (MState b (10 :: t) []) (MState (10 :: b) t []) [10] eq_refl).
    pose proof (mt_type_body (10 :: b) t [(1%nat, [10])]) as H.
    specialize (Hlen). rewrite type_body_lf in *.
    destruct (type_body t) as [[[[ind content] tail] post]|] eqn:E; [|exact H].
    destruct H as (bf & ->). eexists. split; [reflexivity|].
    split; [reflexivity|]. split; [apply type_repl_caps|]. now apply (Hlen _ _ _ _ eq_refl).
Qed.

Lemma type_body_complete ind T ws1 ws2 content ws3 comma post :
  forallb is_space ind = true -> ci_eq (u "type") T = true ->
  forallb is_space ws1 = true -> forallb is_space ws2 = true ->
  one_level content = true ->
  forallb is_space ws3 = true -> tail_ok comma post = true ->
  type_body (ind ++ T ++ ws1 ++ [61] ++ ws2 ++ [123] ++ content ++ [125]
             ++ ws3 ++ comma ++ post)
  = Some (ind, content, ws3 ++ comma, post).
Proof.
  intros Hi HT H1 H2 Hc H3 Ht. unfold type_body.
  rewrite (drop_while_app is_space ind _ Hi (ci_eq_head 116 (u "ype") T _ HT eq_refl)).
  rewrite (take_while_app is_space ind _ Hi (ci_eq_head 116 (u "ype") T _ HT eq_refl)).
  rewrite strip_lit_mi, (strip_lit_ci _ _ _ HT).
  rewrite (drop_while_app is_space ws1
             ([61] ++ ws2 ++ [123] ++ content ++ [125] ++ ws3 ++ comma ++ post)
             H1 eq_refl).
  cbn [app N.eqb Pos.eqb].
  rewrite (drop_while_app is_space ws2
             (123 :: content ++ 125 :: ws3 ++ comma ++ post) H2 eq_refl).
  cbn [app N.eqb Pos.eqb].
  rewrite (scan_content_complete (length content) content (Nat.le_refl _) Hc
             _ (ws3 ++ comma ++ post) (Nat.le_refl _)).
  cbn [fst snd N.eqb Pos.eqb].
  unfold tail_ok in Ht. destruct comma as [|c [|c' comma]]; [| |discriminate].
  - cbn [app] in *. apply negb_true_iff in Ht.
    assert (Hp : headed is_space post = false).
    { destruct post as [|y p]; [reflexivity|]. simpl in *.
      now apply orb_false_elim in Ht as [-> _]. }
    rewrite (drop_while_app is_space ws3 post H3 Hp).
    rewrite (take_while_app is_space ws3 post H3 Hp).
    rewrite app_nil_r.
    destruct post as [|y p]; [reflexivity|]. simpl in Ht.
    now apply orb_false_elim in Ht as [_ ->].
  - apply N.eqb_eq in Ht. subst c. cbn [app].
    rewrite (drop_while_app is_space ws3 (44 :: post) H3 eq_refl).
    rewrite (take_while_app is_space ws3 (44 :: post) H3 eq_refl).
    reflexivity.
Qed.

Lemma one_level_inner inner c :
  forallb no_brace_char inner = true ->
  one_level_from true (inner ++ 125 :: c) = one_level_from false c.
Proof.
  induction inner as [|x inner IH]; intros H; [reflexivity|].
  simpl in *. apply andb_prop in H as [Hx H]. unfold no_brace_char in Hx.
  destruct (x =? 123); [discriminate|]. destruct (x =? 125); [discriminate|].
  now apply IH.
Qed.

Lemma scan_content_one_level n : forall s, one_level (fst (scan_content n s)) = true.
Proof.
  unfold one_level. induction n as [|n IH]; intros s; [reflexivity|].
  destruct s as [|x t]; [reflexivity|]. cbn [scan_content].
  destruct (no_brace_char x) eqn:E.
  - specialize (IH t). destruct (scan_content n t) as [c r]. simpl in *.
    unfold no_brace_char in E.
    destruct (x =? 123); [discriminate|]. now destruct (x =? 125).
  - destruct (N.eqb_spec x 123) as [->|]; [|reflexivity].
    destruct (drop_while no_brace_char t) as [|y t']; [reflexivity|].
    destruct (N.eqb_spec y 125) as [->|]; [|reflexivity].
    specialize (IH t'). destruct (scan_content n t') as [c r]. cbn [fst] in *.
    change (one_level_from false (123 :: take_while no_brace_char t ++ 125 :: c))
      with (one_level_from true (take_while no_brace_char t ++ 125 :: c)).
    rewrite one_level_inner; [exact IH|apply take_while_forallb].
Qed.

Lemma type_body_sound s ind content tail post :
  type_body s = Some (ind, content, tail, post) ->
  exists T ws1 ws2 ws3 comma,
    s = ind ++ T ++ ws1 ++ [61] ++ ws2 ++ [123] ++ content ++ [125]
        ++ ws3 ++ comma ++ post
    /\ tail = ws3 ++ comma
    /\ forallb is_space ind = true /\ ci_eq (u "type") T = true
    /\ forallb is_space ws1 = true /\ forallb is_space ws2 = true
    /\ one_level content = true
    /\ forallb is_space ws3 = true /\ tail_ok comma post = true.
Proof.
  unfold type_body. intros H.
  pose proof (take_drop_while is_space s) as T0.
  destruct (strip_lit f_mi (u "type") (drop_while is_space s)) as [[nm s1]|] eqn:E1;
    [|discriminate].
  rewrite strip_lit_mi in E1. pose proof (strip_lit_ci_inv _ _ _ _ E1) as HT.
  apply strip_lit_app in E1 as [E1 _].
  pose proof (take_drop_while is_space s1) as T1.
  destruct (drop_while is_space s1) as [|x s2]; [discriminate|].
  destruct (N.eqb_spec x 61) as [->|]; [|discriminate].
  pose proof (take_drop_while is_space s2) as T2.
  destruct (drop_while is_space s2) as [|y s3]; [discriminate|].
  destruct (N.eqb_spec y 123) as [->|]; [|discriminate].
  pose proof (scan_content_app (length s3) s3) as T3.
  pose proof (scan_content_one_level (length s3) s3) as Hc.
  destruct (snd (scan_content (length s3) s3)) as [|z s5]; [discriminate|].
  destruct (N.eqb_spec z 125) as [->|]; [|discriminate].
  pose proof (take_drop_while is_space s5) as T5.
  pose proof (drop_while_headed is_space s5) as H5.
  assert (Hs : forall cm p, s5 = take_while is_space s5 ++ cm ++ p ->
    s = take_while is_space s ++ nm ++ take_while is_space s1 ++ [61]
        ++ take_while is_space s2 ++ [123]
        ++ fst (scan_content (length s3) s3) ++ [125]
        ++ take_while is_space s5 ++ cm ++ p).
  { intros cm p E5. rewrite <- E5. rewrite <- T0 at 1. rewrite E1. rewrite <- T1 at 1.
    rewrite <- T2 at 1. rewrite T3 at 1. list_norm. reflexivity. }
  exists nm, (take_while is_space s1), (take_while is_space s2), (take_while is_space s5).
  destruct (drop_while is_space s5) as [|c p].
  - injection H as <- <- <- <-. exists [].
    split; [apply Hs; now rewrite app_nil_r in *|].
    split; [now rewrite app_nil_r|].
    repeat split; try apply take_while_forallb; assumption.
  - destruct (c =? 44) eqn:Ec.
    + apply N.eqb_eq in Ec. subst c. injection H as <- <- <- <-. exists [44].
      split; [apply Hs; now rewrite <- T5 at 1|]. split; [reflexivity|].
      repeat split; try apply take_while_forallb; assumption.
    + injection H as <- <- <- <-. exists [].
      split; [apply Hs; now rewrite <- T5 at 1|]. split; [now rewrite app_nil_r|].
      repeat split; try apply take_while_forallb; try assumption.
      simpl. simpl in H5. now rewrite H5, Ec.
Qed.

Lemma headed_lf_indent ind T r :
  ci_eq (u "type") T = true ->
  headed (fun c => c =? 10) (ind ++ T ++ r) = headed (fun c => c =? 10) ind.
Proof.
  intros HT. destruct ind as [|x ind]; [|reflexivity].
  destruct T as [|x T]; [discriminate|]. simpl in *.
  apply andb_prop in HT as [Hx _].
  apply chr_match_cases in Hx as [->|Hx]; [reflexivity|].
  apply N.eqb_neq. intros ->. discriminate.
Qed.

Lemma cleanTypeField_type_repl bib :
  Action.cleanTypeField bib = clean_type_after [] bib.
Proof. reflexivity. Qed.

(** C5, as amended.  [cleanTypeField] reads the text from left to right.
    Wherever its scan stands, [read] being the text read so far, the next
    type field it meets at the start of a line (the indentation, the name
    [type] in any letter case, white space, [=], white space, and between
    braces a value with at most one level of braces, then white space and a
    comma if there is one) is written again as the indentation, [type = {],
    the value without its braces, every run of white space made one space,
    trimmed, [}], and the white space and comma that followed; the text
    before the field is copied and the scan goes on after the field.  Where
    the scan meets no field the text is copied, and these two cases are the
    only ones.  [  type = {Policy {Contribution}},] becomes
    [  type = {Policy Contribution},]. *)
Theorem type_field_cleanup :
  (forall bib : jsstring, Action.cleanTypeField bib = clean_type_after [] bib)
  /\ (forall read pre ind T ws1 ws2 content ws3 comma post : jsstring,
        forallb is_space ind = true -> ci_eq (u "type") T = true ->
        forallb is_space ws1 = true -> forallb is_space ws2 = true ->
        one_level content = true ->
        forallb is_space ws3 = true -> tail_ok comma post = true ->
        line_start (read ++ pre) || headed (fun c => c =? 10) ind = true ->
        no_match_in type_spec (rev read) pre
          (ind ++ T ++ ws1 ++ [61] ++ ws2 ++ [123] ++ content ++ [125]
           ++ ws3 ++ comma ++ post) = true ->
        clean_type_after read
          (pre ++ ind ++ T ++ ws1 ++ [61] ++ ws2 ++ [123] ++ content ++ [125]
           ++ ws3 ++ comma ++ post)
        = pre ++ ind ++ u "type = {" ++ clean_value content ++ u "}" ++ ws3 ++ comma
          ++ clean_type_after
               (read ++ pre ++ ind ++ T ++ ws1 ++ [61] ++ ws2 ++ [123] ++ content
                ++ [125] ++ ws3 ++ comma)
               post)
  /\ (forall read s : jsstring,
        no_match_in type_spec (rev read) s [] = true -> clean_type_after read s = s)
  /\ (forall read s : jsstring,
        no_match_in type_spec (rev read) s [] = false ->
        exists pre ind T ws1 ws2 content ws3 comma post,
          s = pre ++ ind ++ T ++ ws1 ++ [61] ++ ws2 ++ [123] ++ content ++ [125]
              ++ ws3 ++ comma ++ post
          /\ forallb is_space ind = true /\ ci_eq (u "type") T = true
          /\ forallb is_space ws1 = true /\ forallb is_space ws2 = true
          /\ one_level content = true
          /\ forallb is_space ws3 = true /\ tail_ok comma post = true
          /\ line_start (read ++ pre) || headed (fun c => c =? 10) ind = true
          /\ no_match_in type_spec (rev read) pre
               (ind ++ T ++ ws1 ++ [61] ++ ws2 ++ [123] ++ content ++ [125]
                ++ ws3 ++ comma ++ post) = true)
  /\ Action.cleanTypeField (u "  type = {Policy {Contribution}},")
     = u "  type = {Policy Contribution},"
  /\ (forall s ind content tail post,
        type_body s = Some (ind, content, tail, post) <->
        exists T ws1 ws2 ws3 comma,
          s = ind ++ T ++ ws1 ++ [61] ++ ws2 ++ [123] ++ content ++ [125]
              ++ ws3 ++ comma ++ post
          /\ tail = ws3 ++ comma
          /\ forallb is_space ind = true /\ ci_eq (u "type") T = true
          /\ forallb is_space ws1 = true /\ forallb is_space ws2 = true
          /\ one_level content = true
          /\ forallb is_space ws3 = true /\ tail_ok comma post = true).
Proof.
  split; [reflexivity|]. split; [|split; [|split; [|split]]].
  - intros read pre ind T ws1 ws2 content ws3 comma post Hi HT H1 H2 Hc H3 Ht Hl Hno.
    unfold clean_type_after.
    pose (field := ind ++ T ++ ws1 ++ [61] ++ ws2 ++ [123] ++ content ++ [125]
                   ++ ws3 ++ comma).
    assert (Ef : ind ++ T ++ ws1 ++ [61] ++ ws2 ++ [123] ++ content ++ [125]
                 ++ ws3 ++ comma ++ post = field ++ post).
    { unfold field. list_norm. reflexivity. }
    change (read ++ pre ++ ind ++ T ++ ws1 ++ [61] ++ ws2 ++ [123] ++ content ++ [125]
            ++ ws3 ++ comma) with (read ++ pre ++ field).
    rewrite Ef in *.
    destruct (scan_first f_mi Action.type_rx type_repl _ type_spec type_out
                type_match_spec (rev read) pre (field ++ post)
                (ind, content, ws3 ++ comma) post Hno)
      as (m & Em & _ & E).
    + unfold type_spec. rewrite <- Ef.
      rewrite headed_lf_indent by exact HT.
      unfold line_start in Hl. rewrite rev_app_distr in Hl. rewrite Hl.
      now rewrite (type_body_complete _ _ _ _ _ _ _ _ Hi HT H1 H2 Hc H3 Ht).
    + apply app_inv_tail in Em. subst m. rewrite E.
      rewrite !rev_app_distr, <- !app_assoc.
      unfold type_out. list_norm. reflexivity.
  - intros read s H. unfold clean_type_after.
    apply (scan_none f_mi Action.type_rx type_repl _ type_spec type_out type_match_spec);
      [exact H|]. unfold type_spec. now destruct (bol _ || _).
  - intros read s H.
    apply no_match_in_split in H as (pre & tail & [[[ind content] tl] post] & -> & Hn & Hs).
    unfold type_spec in Hs.
    destruct (bol (rev pre ++ rev read) || headed (fun c => c =? 10) tail) eqn:Hb;
      [|discriminate].
    destruct (type_body tail) as [[[[ind' content'] tl'] post']|] eqn:Hbody; [|discriminate].
    injection Hs as -> -> -> ->.
    apply type_body_sound in Hbody
      as (T & ws1 & ws2 & ws3 & comma & E & -> & Hi & HT & H1 & H2 & Hc & H3 & Ht).
    exists pre, ind, T, ws1, ws2, content, ws3, comma, post.
    rewrite <- E. split; [reflexivity|].
    repeat (split; [assumption|]). split; [|exact Hn].
    unfold line_start. rewrite rev_app_distr.
    rewrite E in Hb. now rewrite headed_lf_indent in Hb by exact HT.
  - vm_compute. reflexivity.
  - intros s ind content tail post. split; [apply type_body_sound|].
    intros (T & ws1 & ws2 & ws3 & comma & -> & -> & Hi & HT & H1 & H2 & Hc & H3 & Ht).
    now apply type_body_complete.
Qed.

Lemma type_field_cleanup_witness :
  clean_type_after (u "@report{K," ++ [LF] ++ u "  type = {A},")
    (([LF] ++ u "  title = {T},") ++ ([LF] ++ u "  ") ++ u "Type" ++ u " " ++ [61] ++ []
     ++ [123] ++ u "Policy  {Contribution}" ++ [125] ++ [] ++ [44] ++ [LF] ++ u "}")
  = ([LF] ++ u "  title = {T},") ++ ([LF] ++ u "  ") ++ u "type = {"
    ++ clean_value (u "Policy  {Contribution}") ++ u "}" ++ [] ++ [44]
    ++ clean_type_after
         ((u "@report{K," ++ [LF] ++ u "  type = {A},") ++ ([LF] ++ u "  title = {T},")
          ++ ([LF] ++ u "  ") ++ u "Type" ++ u " " ++ [61] ++ [] ++ [123]
          ++ u "Policy  {Contribution}" ++ [125] ++ [] ++ [44])
         ([LF] ++ u "}").
Proof.
  destruct type_field_cleanup as (_ & Hfield & _).
  apply (Hfield (u "@report{K," ++ [LF] ++ u "  type = {A},") ([LF] ++ u "  title = {T},")
           ([LF] ++ u "  ") (u "Type") (u " ") [] (u "Policy  {Contribution}") [] [44]
           ([LF] ++ u "}"));
    vm_compute; reflexivity.
Defined.

(** C5 fails as stated on a type field that follows, after white space
    only, a type field without a comma: the white space after the first
    field, the line break and the indentation included, belongs to the
    match of the first field, so the second field, which is at the start of
    its line and whose value would be cleaned to [b c], is left as it is. *)
Lemma type_field_after_type_field :
  Action.cleanTypeField (u "type = {a}" ++ [LF] ++ u "  type = {b  c}")
  = u "type = {a}" ++ [LF] ++ u "  type = {b  c}"
  /\ type_body (u "  type = {b  c}") = Some (u "  ", u "b  c", [], [])
  /\ clean_value (u "b  c") = u "b c"
  /\ Action.cleanTypeField (u "  type = {b  c}") = u "  type = {b c}".
Proof. repeat split; vm_compute; reflexivity. Qed.


(** The headers that [header_at] reads are the texts [@type{key,]. *)
Lemma header_at_iff s ty key post :
  header_at s = Some (ty, key, post) <->
  s = 64 :: ty ++ 123 :: key ++ 44 :: post
  /\ ty <> [] /\ forallb is_word ty = true
  /\ key <> [] /\ forallb not_comma key = true.
Proof.
  split; [apply header_at_app|].
  intros (-> & Hty & Hw & Hkey & Hc). now apply header_at_complete.
Qed.

(** ** The whole run on the scenario of the specification *)

Example end_to_end_scenario :
  Action.run
    (fun _ => {| ok := true; body := JArray [entry_scenario]; total_results := Some (u "1") |})
    (fun _ => Some raw_scenario) 3
  = Done final_scenario.
Proof. vm_compute. reflexivity. Qed.

Example rewrite_scenario :
  Action.rewrite (Action.build_index [entry_scenario]) raw_scenario
  = u "@online{Pinned1," ++ [LF] ++ u "  title = {An {{HTML}} Guide}," ++ [LF]
    ++ u "  organization = {Web}," ++ [LF] ++ u "}".
Proof. vm_compute. reflexivity. Qed.

(** ** The effects of the programs *)

Lemma bind_ret {A B : Type} (a : A) (f : A -> io B) : bind (ret a) f = f a.
Proof. unfold bind, ret. destruct (f a). reflexivity. Qed.

Lemma bind_emit {B : Type} (e : event) (k : unit -> io B) :
  bind (emit e) k = (e :: fst (k tt), snd (k tt)).
Proof. unfold bind, emit. destruct (k tt). reflexivity. Qed.

Lemma bind_await {A B : Type} (r : answer A) (k : A -> io B) :
  bind (await r) k
  = match r with Fulfilled a => k a | Rejected e => ([], Throw e) end.
Proof. destruct r; simpl; [destruct (k a)|]; reflexivity. Qed.

Lemma bind_assoc {A B C : Type} (m : io A) (f : A -> io B) (g : B -> io C) :
  bind (bind m f) g = bind m (fun a => bind (f a) g).
Proof.
  destruct m as [tr [a|e|c|]]; simpl; try reflexivity.
  destruct (f a) as [tr1 [b|e|c|]]; simpl; try reflexivity.
  destruct (g b) as [tr2 r]. now rewrite app_assoc.
Qed.

Section Traces.

Variable p : platform.

#[local] Arguments u : simpl never.
#[local] Arguments number_to_string : simpl never.

Lemma stops_ret {A : Type} (a : A) : stops_at p (ret a).
Proof. reflexivity. Qed.

Lemma stops_say c m : stops_at p (emit (Say c m)).
Proof. reflexivity. Qed.

Lemma stops_bind {A B : Type} (m : io A) (f : A -> io B) :
  stops_at p m -> (forall a, stops_at p (f a)) -> stops_at p (bind m f).
Proof.
  intros Hm Hf. destruct m as [tr [a|e|c|]]; simpl in *; try assumption.
  specialize (Hf a). destruct (f a) as [tr' [b|e|c|]]; simpl in *.
  - rewrite forallb_app, Hm, Hf. reflexivity.
  - destruct Hf as (tr0 & url & hs & -> & H0 & He).
    exists (tr ++ tr0), url, hs. rewrite forallb_app, Hm, H0, app_assoc. auto.
  - assumption.
  - rewrite forallb_app, Hm, Hf. reflexivity.
Qed.

Lemma failure_message_ok url hs res :
  fetch p url hs = Fulfilled res -> res_ok res = true ->
  failure_message url (fetch p url hs) = None.
Proof. intros -> H. cbn. now rewrite H. Qed.

Lemma failure_message_status url hs res :
  fetch p url hs = Fulfilled res -> res_ok res = false ->
  failure_message url (fetch p url hs) = Some (http_error res url).
Proof. intros -> H. cbn. now rewrite H. Qed.

Lemma failure_message_rejected url hs e :
  fetch p url hs = Rejected e ->
  failure_message url (fetch p url hs) = Some e.
Proof. now intros ->. Qed.

Lemma stops_throw {A : Type} url hs e :
  (forall e', failure_message url (fetch p url hs) = Some e' -> e' = e) ->
  stops_at p (A := A) ([Fetch url hs], Throw e).
Proof. intros H. exists [], url, hs. auto. Qed.

Lemma stops_fetchJSON url k : stops_at p (ActionIO.fetchJSON p url k).
Proof.
  unfold ActionIO.fetchJSON. fold (json_headers k). rewrite bind_emit, bind_await.
  destruct (fetch p url (json_headers k)) as [res|e] eqn:Hf; cbn [fst snd].
  - destruct (res_ok res) eqn:Hok; cbn [negb].
    + rewrite bind_await. destruct (res_json res) as [j|e]; cbn [fst snd ret].
      * cbn [stops_at forallb settled]. now rewrite (failure_message_ok _ _ _ Hf Hok).
      * apply stops_throw. intros e'. now rewrite (failure_message_ok _ _ _ Hf Hok).
    + apply stops_throw. intros e'. rewrite (failure_message_status _ _ _ Hf Hok).
      unfold http_error. congruence.
  - apply stops_throw. intros e'. rewrite (failure_message_rejected _ _ _ Hf). congruence.
Qed.

Lemma stops_fetchText url k : stops_at p (ActionIO.fetchText p url k).
Proof.
  unfold ActionIO.fetchText. fold (text_headers k). rewrite bind_emit, bind_await.
  destruct (fetch p url (text_headers k)) as [res|e] eqn:Hf; cbn [fst snd].
  - destruct (res_ok res) eqn:Hok; cbn [negb].
    + rewrite bind_await. destruct (res_text res) as [j|e]; cbn [fst snd ret].
      * cbn [stops_at forallb settled]. now rewrite (failure_message_ok _ _ _ Hf Hok).
      * apply stops_throw. intros e'. now rewrite (failure_message_ok _ _ _ Hf Hok).
    + apply stops_throw. intros e'. rewrite (failure_message_status _ _ _ Hf Hok).
      unfold http_error. congruence.
  - apply stops_throw. intros e'. rewrite (failure_message_rejected _ _ _ Hf). congruence.
Qed.

Lemma stops_fetch_loop B C K : forall fuel start all,
  stops_at p (ActionIO.fetch_loop p B C K fuel start all).
Proof.
  induction fuel as [|fuel IH]; intros start all; [reflexivity|].
  cbn [ActionIO.fetch_loop]. apply stops_bind; [apply stops_fetchJSON|].
  intros [body headers]. apply stops_bind; [apply stops_say|]. intros _.
  destruct (_ || _); [apply stops_ret|apply IH].
Qed.

Lemma stops_bib_loop B K keys : forall fuel i bib,
  stops_at p (ActionIO.bib_loop p B K keys fuel i bib).
Proof.
  induction fuel as [|fuel IH]; intros i bib; cbn [ActionIO.bib_loop].
  - destruct (i <? length keys)%nat; reflexivity.
  - destruct (i <? length keys)%nat; [|reflexivity].
    apply stops_bind; [|intros part; apply IH].
    unfold ActionIO.fetchBibForKeys. apply stops_bind; [apply stops_fetchText|].
    intros r. apply stops_ret.
Qed.

End Traces.

Section ActionRun.

Variable p : platform.
Variable getInput : jsstring -> bool -> answer jsstring.

#[local] Arguments u : simpl never.
#[local] Arguments number_to_string : simpl never.

Lemma settled_fetch tr url hs :
  forallb (settled p) tr = true -> In (Fetch url hs) tr ->
  failure_message url (fetch p url hs) = None.
Proof.
  intros H Hin. rewrite forallb_forall in H. specialize (H _ Hin). cbn in H.
  now destruct (failure_message url (fetch p url hs)).
Qed.

Lemma run_inputs fuel :
  ActionIO.run p getInput fuel
  = match getInput (u "api-key") true, getInput (u "library-id") true,
          getInput (u "coll-key") true, getInput (u "is-group") false,
          getInput (u "out-bib-path") false with
    | Fulfilled k, Fulfilled l, Fulfilled c, Fulfilled g, Fulfilled o =>
      catch (action_calls p k l c g o fuel)
        (fun message => emit (Say CoreSetFailed (Text message)))
    | Rejected e, _, _, _, _
    | Fulfilled _, Rejected e, _, _, _
    | Fulfilled _, Fulfilled _, Rejected e, _, _
    | Fulfilled _, Fulfilled _, Fulfilled _, Rejected e, _
    | Fulfilled _, Fulfilled _, Fulfilled _, Fulfilled _, Rejected e =>
      ([Say CoreSetFailed (Text e)], Ok tt)
    end.
Proof.
  unfold ActionIO.run.
  destruct (getInput (u "api-key") true) as [k|e]; [|reflexivity].
  rewrite bind_await.
  destruct (getInput (u "library-id") true) as [l|e]; [|reflexivity].
  rewrite bind_await.
  destruct (getInput (u "coll-key") true) as [c|e]; [|reflexivity].
  rewrite bind_await.
  destruct (getInput (u "is-group") false) as [g|e]; [|reflexivity].
  rewrite bind_await.
  destruct (getInput (u "out-bib-path") false) as [o|e]; [|reflexivity].
  rewrite bind_await. reflexivity.
Qed.

End ActionRun.

Section Linking.

Variable p : platform.
Variables B C K : jsstring.

#[local] Arguments u : simpl never.
#[local] Arguments number_to_string : simpl never.

Lemma fetchJSON_cases url :
  ActionIO.fetchJSON p url K
  = match fetch p url (json_headers K) with
    | Fulfilled res =>
      if res_ok res then
        match res_json res with
        | Fulfilled j => ([Fetch url (json_headers K)], Ok (j, res_headers res))
        | Rejected e => ([Fetch url (json_headers K)], Throw e)
        end
      else ([Fetch url (json_headers K)], Throw (http_error res url))
    | Rejected e => ([Fetch url (json_headers K)], Throw e)
    end.
Proof.
  unfold ActionIO.fetchJSON. fold (json_headers K). rewrite bind_emit, bind_await.
  destruct (fetch p url (json_headers K)) as [res|e]; [|reflexivity].
  destruct (res_ok res); [|reflexivity]. cbn [negb]. rewrite bind_await.
  destruct (res_json res); reflexivity.
Qed.

Lemma fetchText_cases url :
  ActionIO.fetchText p url K
  = match fetch p url (text_headers K) with
    | Fulfilled res =>
      if res_ok res then
        match res_text res with
        | Fulfilled t => ([Fetch url (text_headers K)], Ok (t, res_headers res))
        | Rejected e => ([Fetch url (text_headers K)], Throw e)
        end
      else ([Fetch url (text_headers K)], Throw (http_error res url))
    | Rejected e => ([Fetch url (text_headers K)], Throw e)
    end.
Proof.
  unfold ActionIO.fetchText. fold (text_headers K). rewrite bind_emit, bind_await.
  destruct (fetch p url (text_headers K)) as [res|e]; [|reflexivity].
  destruct (res_ok res); [|reflexivity]. cbn [negb]. rewrite bind_await.
  destruct (res_text res); reflexivity.
Qed.

Lemma fetch_loop_link : forall fuel start all log,
  match ActionIO.fetch_loop p B C K fuel start all with
  | (tr, Ok all') =>
    exists starts,
      Action.fetch_loop (server_of p B C K) fuel start all log = Done (all', log ++ starts)
      /\ tr = flat_map (page_events CoreInfo p B C K) starts
  | (_, Throw _) => Action.fetch_loop (server_of p B C K) fuel start all log = HttpError
  | (_, Diverge) => Action.fetch_loop (server_of p B C K) fuel start all log = OutOfFuel
  | (_, Exit _) => False
  end.
Proof.
  induction fuel as [|fuel IH]; intros start all log; [reflexivity|].
  cbn [ActionIO.fetch_loop Action.fetch_loop].
  change (((B ++ u "/collections/" ++ C ++ u "/items")
           ++ u "?format=csljson&recursive=1&top=1&limit=100&start="
           ++ number_to_string start)) with (page_url B C start).
  rewrite fetchJSON_cases.
  assert (Hev : page_events CoreInfo p B C K start
                = [ Fetch (page_url B C start) (json_headers K);
                    Say CoreInfo
                      (Fetched (length (page_of (server_of p B C K) start)) start
                         (total_text (server_of p B C K) start)) ]) by reflexivity.
  unfold page_of, total_text, page_of in Hev.
  remember (server_of p B C K start) as sv eqn:Hsv. unfold server_of in Hsv.
  destruct (fetch p (page_url B C start) (json_headers K)) as [res|e];
    [|subst sv; reflexivity].
  destruct (res_json res) as [j|e].
  2:{ subst sv. cbn. now destruct (res_ok res). }
  subst sv. cbn [ok body total_results] in *.
  destruct (res_ok res) eqn:Hok; [|reflexivity]. cbn [negb].
  unfold bind at 1. rewrite bind_emit.
  set (page := Action.normalizeItems j) in *.
  set (total := parseInt _) in *.
  destruct ((length page <? 100)%nat || ge_number (length (all ++ page)) total) eqn:Hstop.
  - cbn [ret fst snd app]. exists [start]. split; [reflexivity|].
    cbn [flat_map]. rewrite Hev. reflexivity.
  - specialize (IH (start + length page)%nat (all ++ page) (log ++ [start])).
    destruct (ActionIO.fetch_loop p B C K fuel (start + length page) (all ++ page))
      as [tr [all'|e|c|]]; cbn [fst snd app]; try exact IH.
    destruct IH as (starts & IH & ->). exists (start :: starts). split.
    + rewrite IH. now rewrite <- app_assoc.
    + cbn [flat_map]. rewrite Hev. reflexivity.
Qed.

Lemma bib_loop_link keys : forall fuel i bib,
  match ActionIO.bib_loop p B K keys fuel i bib with
  | (tr, Ok bib') =>
    Action.bib_loop (fetchBib_of p B K) keys fuel i bib = Done bib'
    /\ tr = List.map (batch_event B K keys) (chunk_starts fuel i (length keys))
  | (_, Throw _) => Action.bib_loop (fetchBib_of p B K) keys fuel i bib = HttpError
  | (_, Diverge) => Action.bib_loop (fetchBib_of p B K) keys fuel i bib = OutOfFuel
  | (_, Exit _) => False
  end.
Proof.
  induction fuel as [|fuel IH]; intros i bib;
    cbn [ActionIO.bib_loop Action.bib_loop chunk_starts].
  - destruct (i <? length keys)%nat; cbn; auto.
  - destruct (i <? length keys)%nat; [|cbn; auto].
    unfold ActionIO.fetchBibForKeys.
    change (B ++ u "/items?format=bibtex&itemKey=" ++ join (slice i (i + 50) keys))
      with (bib_url B (slice i (i + 50) keys)).
    rewrite fetchText_cases.
    remember (fetchBib_of p B K (slice i (i + 50) keys)) as fb eqn:Hfb.
    unfold fetchBib_of in Hfb.
    destruct (fetch p (bib_url B (slice i (i + 50) keys)) (text_headers K)) as [res|e];
      [|subst fb; reflexivity].
    destruct (res_ok res); [|subst fb; reflexivity].
    destruct (res_text res) as [t|e]; subst fb; [|reflexivity].
    cbn [bind ret fst app].
    specialize (IH (i + 50)%nat (Action.append_part bib t)).
    destruct (ActionIO.bib_loop p B K keys fuel (i + 50) (Action.append_part bib t))
      as [tr [bib'|e|c|]]; try exact IH.
    destruct IH as [IH ->]. split; [exact IH|reflexivity].
Qed.

End Linking.

Section ActionCalls.

Variable p : platform.

#[local] Arguments u : simpl never.
#[local] Arguments number_to_string : simpl never.

Lemma write_calls_cases path text last :
  write_calls p path text last
  = match mkdir p (dirname p path) with
    | Rejected e => ([Mkdir (dirname p path)], Throw e)
    | Fulfilled _ =>
      match writeFile p path text with
      | Rejected e => ([Mkdir (dirname p path); WriteFile path text], Throw e)
      | Fulfilled _ => ([Mkdir (dirname p path); WriteFile path text; last], Ok tt)
      end
    end.
Proof.
  unfold write_calls. rewrite bind_emit, bind_await.
  destruct (mkdir p (dirname p path)); [|reflexivity].
  rewrite bind_emit, bind_await.
  destruct (writeFile p path text); reflexivity.
Qed.

Lemma bib_loop_enough_fuel fetchBib keys : forall fuel i bib,
  (length keys <= i + 50 * fuel)%nat ->
  Action.bib_loop fetchBib keys fuel i bib <> OutOfFuel.
Proof.
  induction fuel as [|fuel IH]; intros i bib Hf; cbn [Action.bib_loop].
  - destruct (Nat.ltb_spec i (length keys)); [lia|discriminate].
  - destruct (Nat.ltb_spec i (length keys)); [|discriminate].
    destruct (fetchBib _); [|discriminate]. apply IH. lia.
Qed.

Lemma action_calls_shape k l c g o fuel :
  let m := action_calls p k l c g o fuel in
  let path := or_text o (u "references.bib") in
  let pure := Action.run (server_of p (base_url g l) c k)
                (fetchBib_of p (base_url g l) k) fuel in
  (exists tr ix text,
     forallb (settled p) tr = true
     /\ m = bind (tr, Ok tt)
              (fun _ => write_calls p path text
                          (Say CoreInfo (Text (wrote_message path ix))))
     /\ pure = Done text)
  \/ (stops_at p m
      /\ (forall a, snd m <> Ok a)
      /\ (forall text, pure <> Done text)
      /\ (snd m = Diverge ->
          Action.fetchAllParentsCSL (server_of p (base_url g l) c k) fuel = OutOfFuel)).
Proof.
  intros m path pure. subst m pure. unfold action_calls, Action.run.
  unfold ActionIO.fetchAllParentsCSL, Action.fetchAllParentsCSL.
  pose proof (stops_fetch_loop p (base_url g l) c k fuel 0 []) as H1.
  pose proof (fetch_loop_link p (base_url g l) c k fuel 0 [] []) as L1.
  destruct (ActionIO.fetch_loop p (base_url g l) c k fuel 0 []) as [tr1 [items|e|code|]];
    try contradiction.
  2,3: right; rewrite L1; cbn; split; [exact H1|]; repeat split; congruence.
  destruct L1 as (starts & L1 & Htr1). rewrite L1. cbn [bind_outcome app bind].
  set (ix := Action.build_index items).
  match goal with
  | |- context [bind (if ?b then ?x else ?y)] =>
    assert (Hw : exists w, (if b then x else y) = (w, Ok tt)
                           /\ forallb (settled p) w = true)
      by (destruct b; eexists; split; reflexivity)
  end.
  destruct Hw as (w & -> & Hw).
  pose proof (stops_bib_loop p (base_url g l) k (itemKeys ix) (length (itemKeys ix)) 0 [])
    as H2.
  pose proof (bib_loop_link p (base_url g l) k (itemKeys ix) (length (itemKeys ix)) 0 [])
    as L2.
  cbn [bind].
  destruct (ActionIO.bib_loop p (base_url g l) k (itemKeys ix) (length (itemKeys ix)) 0 [])
    as [tr2 [bib|e|code|]]; try contradiction; cbn [bind snd].
  - destruct L2 as [L2 _]. rewrite L2. cbn [bind_outcome]. left.
    exists (tr1 ++ w ++ tr2), ix, (Action.rewrite ix bib).
    cbn in H1, H2. rewrite !forallb_app, H1, Hw, H2.
    split; [reflexivity|]. split; [|reflexivity].
    destruct (write_calls _ _ _ _) as [tr3 r3]. now rewrite !app_assoc.
  - right. rewrite L2. cbn [bind_outcome snd]. split; [|repeat split; congruence].
    destruct H2 as (tr0 & url & hs & -> & H2 & He).
    exists (tr1 ++ w ++ tr0), url, hs. cbn in H1.
    rewrite !forallb_app, H1, Hw, H2, !app_assoc. auto.
  - exfalso. revert L2. apply bib_loop_enough_fuel. lia.
Qed.

Lemma bind_settled_write tr path text c m :
  exists tail r,
    bind (tr, Ok tt) (fun _ => write_calls p path text (Say c m)) = (tr ++ tail, r)
    /\ (forall url hs, ~ In (Fetch url hs) tail)
    /\ (forall path' data, In (WriteFile path' data) tail -> path' = path /\ data = text)
    /\ (forall d, In (Mkdir d) tail -> d = dirname p path)
    /\ (mkdir p (dirname p path) = Fulfilled tt -> In (WriteFile path text) tail)
    /\ (r = Ok tt \/ exists e, r = Throw e).
Proof.
  rewrite write_calls_cases.
  destruct (mkdir p (dirname p path)) as [[]|e].
  - destruct (writeFile p path text) as [[]|e]; cbn [bind]; eexists; eexists;
      (split; [reflexivity|]); cbn [In]; repeat split;
      try (intros; intuition congruence); eauto.
  - cbn [bind]. eexists; eexists; (split; [reflexivity|]); cbn [In]; repeat split;
      try (intros; intuition congruence); eauto.
Qed.

End ActionCalls.

(** X1.  A request of the action that fails ends the run: if one of the requests
    made is rejected, or answered with a status that is not a success, it is
    the last request, every call before it is a message or a request that
    succeeded, no call is made to the file system, and the run ends with
    [core.setFailed] of the message of the exception ([HTTP <status> for
    <url>] for a status). *)
Theorem failed_request_ends_run p getInput fuel url hs e :
  In (Fetch url hs) (fst (ActionIO.run p getInput fuel)) ->
  failure_message url (fetch p url hs) = Some e ->
  exists tr0,
    ActionIO.run p getInput fuel
    = (tr0 ++ [Fetch url hs; Say CoreSetFailed (Text e)], Ok tt)
    /\ forallb (settled p) tr0 = true.
Proof.
  rewrite run_inputs.
  destruct (getInput (u "api-key") true) as [k|e0];
    [|cbn; intuition discriminate].
  destruct (getInput (u "library-id") true) as [l|e0];
    [|cbn; intuition discriminate].
  destruct (getInput (u "coll-key") true) as [c|e0];
    [|cbn; intuition discriminate].
  destruct (getInput (u "is-group") false) as [g|e0];
    [|cbn; intuition discriminate].
  destruct (getInput (u "out-bib-path") false) as [o|e0];
    [|cbn; intuition discriminate].
  intros Hin Hfail.
  destruct (action_calls_shape p k l c g o fuel)
    as [(tr & ix & text & Htr & Hm & _)|(Hstop & Hnok & _)].
  - exfalso. rewrite Hm in Hin.
    destruct (bind_settled_write p tr (or_text o (u "references.bib")) text
                CoreInfo (Text (wrote_message (or_text o (u "references.bib")) ix)))
      as (tail & r & E & Hnf & _ & _ & _ & Hr).
    rewrite E in Hin.
    assert (Hin' : In (Fetch url hs) (tr ++ tail)).
    { destruct Hr as [->|[e1 ->]]; cbn [catch emit fst] in Hin; [exact Hin|].
      apply in_app_or in Hin. destruct Hin as [Hin|Hin]; [exact Hin|].
      cbn [In] in Hin. intuition discriminate. }
    apply in_app_or in Hin'. destruct Hin' as [Hin'|Hin'].
    + rewrite (settled_fetch p _ _ _ Htr Hin') in Hfail. discriminate.
    + exact (Hnf _ _ Hin').
  - destruct (action_calls p k l c g o fuel) as [trm [a|e1|code|]];
      cbn [stops_at] in Hstop.
    + exfalso. exact (Hnok a eq_refl).
    + destruct Hstop as (tr0 & url' & hs' & -> & H0 & He).
      cbn [catch emit fst] in Hin |- *.
      rewrite <- app_assoc in Hin. apply in_app_or in Hin. destruct Hin as [Hin|Hin].
      * rewrite (settled_fetch p _ _ _ H0 Hin) in Hfail. discriminate.
      * cbn [In app] in Hin. destruct Hin as [Hin|[Hin|[]]]; [|discriminate].
        injection Hin as -> ->. rewrite (He _ Hfail).
        exists tr0. rewrite <- app_assoc. split; [reflexivity|exact H0].
    + contradiction.
    + exfalso. cbn [catch fst] in Hin.
      rewrite (settled_fetch p _ _ _ Hstop Hin) in Hfail. discriminate.
Qed.

(** X2.  The file the action writes holds the text of the pipeline: whatever the
    platform answers, every call to [fs.writeFile] is made with the path of
    the input [out-bib-path] ([references.bib] when it is empty) and with
    the text that [run] computes from the pages and the batches the platform
    serves; the directory created is the directory of that path; and when
    the pipeline gives a text and the directory can be created, the call is
    made. *)
Theorem written_file_is_pipeline_text p getInput fuel k l c g o :
  getInput (u "api-key") true = Fulfilled k ->
  getInput (u "library-id") true = Fulfilled l ->
  getInput (u "coll-key") true = Fulfilled c ->
  getInput (u "is-group") false = Fulfilled g ->
  getInput (u "out-bib-path") false = Fulfilled o ->
  let path := or_text o (u "references.bib") in
  let pure := Action.run (server_of p (base_url g l) c k)
                (fetchBib_of p (base_url g l) k) fuel in
  let trace := fst (ActionIO.run p getInput fuel) in
  (forall path' data, In (WriteFile path' data) trace -> path' = path /\ pure = Done data)
  /\ (forall d, In (Mkdir d) trace -> d = dirname p path)
  /\ (forall data, pure = Done data -> mkdir p (dirname p path) = Fulfilled tt ->
      In (WriteFile path data) trace).
Proof.
  intros Hk Hl Hc Hg Ho path pure trace. subst trace.
  rewrite run_inputs, Hk, Hl, Hc, Hg, Ho.
  destruct (action_calls_shape p k l c g o fuel)
    as [(tr & ix & text & Htr & Hm & Hp)|(Hstop & Hnok & Hnp & _)].
  - rewrite Hm. fold path pure in Hp |- *.
    destruct (bind_settled_write p tr path text CoreInfo (Text (wrote_message path ix)))
      as (tail & r & E & _ & Hw & Hd & Hin & Hr).
    rewrite E.
    assert (Ht : forall e, In e tr -> is_file_call e = false).
    { intros e He. rewrite forallb_forall in Htr. specialize (Htr _ He).
      now destruct e. }
    assert (Hfst : forall e, is_file_call e = true ->
              In e (fst (catch (tr ++ tail, r)
                           (fun message => emit (Say CoreSetFailed (Text message))))) ->
              In e tail).
    { intros e He Hi. destruct Hr as [->|[e1 ->]]; cbn [catch emit fst] in Hi.
      - apply in_app_or in Hi. destruct Hi as [Hi|Hi]; [|exact Hi].
        rewrite (Ht _ Hi) in He. discriminate.
      - rewrite <- app_assoc in Hi. apply in_app_or in Hi. destruct Hi as [Hi|Hi].
        + rewrite (Ht _ Hi) in He. discriminate.
        + apply in_app_or in Hi. destruct Hi as [Hi|Hi]; [exact Hi|].
          cbn [In] in Hi. destruct Hi as [<-|[]]. discriminate. }
    split; [|split].
    + intros path' data Hi. apply Hfst in Hi; [|reflexivity].
      destruct (Hw _ _ Hi) as [-> ->]. now split.
    + intros d Hi. apply Hfst in Hi; [|reflexivity]. now apply Hd.
    + intros data Hdata Hmk. rewrite Hp in Hdata. injection Hdata as <-.
      specialize (Hin Hmk).
      destruct Hr as [->|[e1 ->]]; cbn [catch emit fst].
      * apply in_or_app. now right.
      * rewrite <- app_assoc. apply in_or_app. right. apply in_or_app. now left.
  - fold pure in Hnp.
    assert (Hno : forall e, is_file_call e = true ->
              ~ In e (fst (catch (action_calls p k l c g o fuel)
                             (fun message => emit (Say CoreSetFailed (Text message)))))).
    { intros e He Hi.
      assert (Hs : forall tr, forallb (settled p) tr = true -> ~ In e tr).
      { intros tr Htr Hin. rewrite forallb_forall in Htr. specialize (Htr _ Hin).
        destruct e; discriminate. }
      destruct (action_calls p k l c g o fuel) as [trm [a|e1|code|]];
        cbn [stops_at] in Hstop; cbn [catch emit fst] in Hi.
      - exact (Hnok a eq_refl).
      - destruct Hstop as (tr0 & url & hs & -> & H0 & _).
        rewrite <- app_assoc in Hi. apply in_app_or in Hi. destruct Hi as [Hi|Hi].
        + exact (Hs _ H0 Hi).
        + cbn [In app] in Hi. destruct Hi as [<-|[<-|[]]]; discriminate.
      - contradiction.
      - exact (Hs _ Hstop Hi). }
    split; [|split].
    + intros path' data Hi. exfalso. exact (Hno (WriteFile path' data) eq_refl Hi).
    + intros d Hi. exfalso. exact (Hno (Mkdir d) eq_refl Hi).
    + intros data Hdata. exfalso. exact (Hnp _ Hdata).
Qed.

(** X3.  The action lets no exception escape and never exits: a run returns, or
    it does not finish, and then the pagination loop is the one that goes
    on: with the inputs read, the loop over the pages has used up the fuel. *)
Theorem run_catches_every_exception p getInput fuel :
  snd (ActionIO.run p getInput fuel) = Ok tt
  \/ (snd (ActionIO.run p getInput fuel) = Diverge
      /\ exists k l c g,
           getInput (u "api-key") true = Fulfilled k
           /\ getInput (u "library-id") true = Fulfilled l
           /\ getInput (u "coll-key") true = Fulfilled c
           /\ getInput (u "is-group") false = Fulfilled g
           /\ Action.fetchAllParentsCSL (server_of p (base_url g l) c k) fuel
              = OutOfFuel).
Proof.
  rewrite run_inputs.
  destruct (getInput (u "api-key") true) as [k|e0]; [|now left].
  destruct (getInput (u "library-id") true) as [l|e0]; [|now left].
  destruct (getInput (u "coll-key") true) as [c|e0]; [|now left].
  destruct (getInput (u "is-group") false) as [g|e0]; [|now left].
  destruct (getInput (u "out-bib-path") false) as [o|e0]; [|now left].
  destruct (action_calls_shape p k l c g o fuel)
    as [(tr & ix & text & Htr & Hm & _)|(Hstop & Hnok & _ & Hdiv)].
  - left. rewrite Hm.
    destruct (bind_settled_write p tr (or_text o (u "references.bib")) text
                CoreInfo (Text (wrote_message (or_text o (u "references.bib")) ix)))
      as (tail & r & E & _ & _ & _ & _ & Hr).
    rewrite E. destruct Hr as [->|[e1 ->]]; reflexivity.
  - destruct (action_calls p k l c g o fuel) as [trm [a|e1|code|]];
      cbn [stops_at] in Hstop.
    + left. now destruct a.
    + now left.
    + contradiction.
    + right. split; [reflexivity|]. exists k, l, c, g. repeat split.
      now apply Hdiv.
Qed.

(** X4.  When reading an input throws, the action makes no request and no call
    to the file system: its only call is [core.setFailed] of the message of
    that exception, which is the exception of the first input, in the order
    in which [run] reads them, whose reading throws. *)
Theorem rejected_input_ends_run p getInput fuel before name required after e :
  action_inputs = before ++ (name, required) :: after ->
  (forall n r, In (n, r) before -> exists v, getInput n r = Fulfilled v) ->
  getInput name required = Rejected e ->
  ActionIO.run p getInput fuel = ([Say CoreSetFailed (Text e)], Ok tt).
Proof.
  intros Hsplit Hbefore Hrej. rewrite run_inputs. unfold action_inputs in Hsplit.
  destruct before as [|b1 before]; cbn [app] in Hsplit.
  { injection Hsplit as <- <- _. now rewrite Hrej. }
  injection Hsplit as <- Hsplit.
  destruct (Hbefore _ _ (or_introl eq_refl)) as (k & ->).
  destruct before as [|b2 before]; cbn [app] in Hsplit.
  { injection Hsplit as <- <- _. now rewrite Hrej. }
  injection Hsplit as <- Hsplit.
  destruct (Hbefore _ _ (or_intror (or_introl eq_refl))) as (l & ->).
  destruct before as [|b3 before]; cbn [app] in Hsplit.
  { injection Hsplit as <- <- _. now rewrite Hrej. }
  injection Hsplit as <- Hsplit.
  destruct (Hbefore _ _ (or_intror (or_intror (or_introl eq_refl)))) as (c & ->).
  destruct before as [|b4 before]; cbn [app] in Hsplit.
  { injection Hsplit as <- <- _. now rewrite Hrej. }
  injection Hsplit as <- Hsplit.
  destruct (Hbefore _ _ (or_intror (or_intror (or_intror (or_introl eq_refl)))))
    as (g & ->).
  destruct before as [|b5 before]; cbn [app] in Hsplit.
  { injection Hsplit as <- <- _. now rewrite Hrej. }
  injection Hsplit as _ Hsplit. now destruct before.
Qed.

Lemma run_calls_of_loops p getInput fuel k l c g o items log bib :
  getInput (u "api-key") true = Fulfilled k ->
  getInput (u "library-id") true = Fulfilled l ->
  getInput (u "coll-key") true = Fulfilled c ->
  getInput (u "is-group") false = Fulfilled g ->
  getInput (u "out-bib-path") false = Fulfilled o ->
  Action.fetchAllParentsCSL (server_of p (base_url g l) c k) fuel = Done (items, log) ->
  Action.bib_loop (fetchBib_of p (base_url g l) k)
    (itemKeys (Action.build_index items))
    (length (itemKeys (Action.build_index items))) 0 [] = Done bib ->
  ActionIO.run p getInput fuel
  = catch
      (bind (flat_map (page_events CoreInfo p (base_url g l) c k) log
             ++ no_items_warning CoreWarning
                  (u "No parent items found. Check API key permissions and collection key.")
                  (Action.build_index items)
             ++ List.map (batch_event (base_url g l) k (itemKeys (Action.build_index items)))
                  (chunk_starts (length (itemKeys (Action.build_index items))) 0
                     (length (itemKeys (Action.build_index items)))),
             Ok tt)
         (fun _ =>
            write_calls p (or_text o (u "references.bib"))
              (Action.rewrite (Action.build_index items) bib)
              (Say CoreInfo
                 (Text (wrote_message (or_text o (u "references.bib"))
                          (Action.build_index items))))))
      (fun message => emit (Say CoreSetFailed (Text message))).
Proof.
  intros Hk Hl Hc Hg Ho Hpages Hbib.
  rewrite run_inputs, Hk, Hl, Hc, Hg, Ho. f_equal.
  unfold action_calls, ActionIO.fetchAllParentsCSL.
  unfold Action.fetchAllParentsCSL in Hpages.
  pose proof (fetch_loop_link p (base_url g l) c k fuel 0 [] []) as L1.
  destruct (ActionIO.fetch_loop p (base_url g l) c k fuel 0 []) as [tr1 [items'|e|code|]];
    try congruence; try contradiction.
  destruct L1 as (starts & L1 & ->). rewrite L1 in Hpages. injection Hpages as -> ->.
  cbn [bind app]. unfold no_items_warning.
  pose proof (bib_loop_link p (base_url g l) k (itemKeys (Action.build_index items))
                (length (itemKeys (Action.build_index items))) 0 []) as L2.
  destruct (ActionIO.bib_loop p (base_url g l) k (itemKeys (Action.build_index items))
              (length (itemKeys (Action.build_index items))) 0 [])
    as [tr2 [bib'|e|code|]]; try congruence; try contradiction.
  destruct L2 as [L2 ->]. rewrite L2 in Hbib. injection Hbib as ->.
  destruct (length (itemKeys (Action.build_index items)) =? 0)%nat;
    cbn [bind emit ret app]; destruct (write_calls _ _ _ _) as [tr3 r3];
    now rewrite <- ?app_assoc.
Qed.



Lemma failed_request_ends_run_witness :
  exists tr0,
    ActionIO.run forbidden_platform scenario_inputs 1
    = (tr0 ++ [ Fetch (page_url (base_url (u "true") (u "42")) (u "COLL") 0)
                  (json_headers (u "secret"));
                Say CoreSetFailed
                  (Text (u "HTTP 403 for https://api.zotero.org/groups/42/collections/COLL/items?format=csljson&recursive=1&top=1&limit=100&start=0")) ],
       Ok tt)
    /\ forallb (settled forbidden_platform) tr0 = true.
Proof.
  apply (failed_request_ends_run forbidden_platform scenario_inputs 1
           (page_url (base_url (u "true") (u "42")) (u "COLL") 0)
           (json_headers (u "secret"))).
  - vm_compute. left. reflexivity.
  - vm_compute. reflexivity.
Defined.

Lemma written_file_is_pipeline_text_witness :
  In (WriteFile (u "references.bib") final_scenario)
     (fst (ActionIO.run scenario_platform scenario_inputs 1)).
Proof.
  apply (written_file_is_pipeline_text scenario_platform scenario_inputs 1
           (u "secret") (u "42") (u "COLL") (u "true") []);
    vm_compute; reflexivity.
Defined.

Lemma rejected_input_ends_run_witness :
  ActionIO.run scenario_platform key_only_inputs 1
  = ([Say CoreSetFailed (Text (u "Input required and not supplied: library-id"))], Ok tt).
Proof.
  apply (rejected_input_ends_run scenario_platform key_only_inputs 1
           [(u "api-key", true)] (u "library-id") true
           [(u "coll-key", true); (u "is-group", false); (u "out-bib-path", false)]).
  - reflexivity.
  - intros n r [[= <- <-]|[]]. now exists (u "secret").
  - reflexivity.
Defined.

(** X6.  A collection without entries: when the first page is empty, the action
    requests that page only, warns that no parent item was found, requests
    no batch, and still creates the directory and writes the output file,
    with the empty text. *)
Theorem empty_collection_writes_empty_file p getInput fuel k l c g o res j :
  getInput (u "api-key") true = Fulfilled k ->
  getInput (u "library-id") true = Fulfilled l ->
  getInput (u "coll-key") true = Fulfilled c ->
  getInput (u "is-group") false = Fulfilled g ->
  getInput (u "out-bib-path") false = Fulfilled o ->
  fetch p (page_url (base_url g l) c 0) (json_headers k) = Fulfilled res ->
  res_ok res = true -> res_json res = Fulfilled j -> Action.normalizeItems j = [] ->
  mkdir p (dirname p (or_text o (u "references.bib"))) = Fulfilled tt ->
  writeFile p (or_text o (u "references.bib")) [] = Fulfilled tt ->
  exists total,
    ActionIO.run p getInput (S fuel)
    = ([ Fetch (page_url (base_url g l) c 0) (json_headers k);
         Say CoreInfo (Fetched 0 0 total);
         Say CoreWarning
           (Text (u "No parent items found. Check API key permissions and collection key."));
         Mkdir (dirname p (or_text o (u "references.bib")));
         WriteFile (or_text o (u "references.bib")) [];
         Say CoreInfo
           (Text (u "Wrote " ++ or_text o (u "references.bib")
                  ++ u " with 0 entries (pinned: 0)")) ],
       Ok tt).
Proof.
  intros Hk Hl Hc Hg Ho Hf Hok Hj Hn Hmk Hwr.
  assert (Hsv : server_of p (base_url g l) c k 0
                = {| ok := true; body := j;
                     total_results := res_headers res (u "Total-Results") |}).
  { unfold server_of. now rewrite Hf, Hj, Hok. }
  assert (Hpages : Action.fetchAllParentsCSL (server_of p (base_url g l) c k) (S fuel)
                   = Done ([], [0%nat])).
  { unfold Action.fetchAllParentsCSL. cbn [Action.fetch_loop]. rewrite Hsv.
    cbn [ok body total_results negb]. rewrite Hn. reflexivity. }
  rewrite (run_calls_of_loops p getInput (S fuel) k l c g o [] [0%nat] []
             Hk Hl Hc Hg Ho Hpages eq_refl).
  change (Action.rewrite (Action.build_index []) []) with ([] : list N).
  rewrite write_calls_cases, Hmk, Hwr.
  exists (total_text (server_of p (base_url g l) c k) 0).
  cbn [flat_map page_events app]. unfold page_of. rewrite Hsv. cbn [body]. rewrite Hn.
  reflexivity.
Qed.

Lemma empty_collection_writes_empty_file_witness :
  exists total,
    ActionIO.run empty_platform scenario_inputs 1
    = ([ Fetch (page_url (base_url (u "true") (u "42")) (u "COLL") 0)
           (json_headers (u "secret"));
         Say CoreInfo (Fetched 0 0 total);
         Say CoreWarning
           (Text (u "No parent items found. Check API key permissions and collection key."));
         Mkdir (dirname empty_platform (or_text [] (u "references.bib")));
         WriteFile (or_text [] (u "references.bib")) [];
         Say CoreInfo
           (Text (u "Wrote " ++ or_text [] (u "references.bib")
                  ++ u " with 0 entries (pinned: 0)")) ],
       Ok tt).
Proof.
  apply (empty_collection_writes_empty_file empty_platform scenario_inputs 0
           (u "secret") (u "42") (u "COLL") (u "true") []
           {| res_ok := true; res_status := 200;
              res_json := Fulfilled (JArray []);
              res_text := Fulfilled [];
              res_headers := fun _ => Some (u "0") |} (JArray []));
    reflexivity.
Defined.

(** ** The script *)

Lemma ends_with_app {A : Type} (l1 l2 : list A) x :
  (exists tr, l2 = tr ++ [x]) -> exists tr, l1 ++ l2 = tr ++ [x].
Proof. intros [tr ->]. exists (l1 ++ tr). now rewrite app_assoc. Qed.

Lemma ends_with_cons {A : Type} (y : A) (l : list A) x :
  (exists tr, l = tr ++ [x]) -> exists tr, y :: l = tr ++ [x].
Proof. intros [tr ->]. now exists (y :: tr). Qed.

Lemma ends_with_one {A : Type} (x : A) : exists tr, [x] = tr ++ [x].
Proof. now exists []. Qed.

Ltac ends_with_last :=
  repeat first [apply ends_with_one | apply ends_with_app | apply ends_with_cons].

Lemma relabel_bind {A B : Type} (m : io A) (k : A -> io B) :
  relabel (bind m k) = bind (relabel m) (fun a => relabel (k a)).
Proof.
  destruct m as [tr [a|e|c|]]; try reflexivity.
  unfold relabel. cbn [bind fst snd]. destruct (k a) as [tr' r]. cbn [fst snd].
  now rewrite List.map_app.
Qed.

Lemma bind_ext {A B : Type} (m : io A) (f g : A -> io B) :
  (forall a, f a = g a) -> bind m f = bind m g.
Proof. intros H. destruct m as [tr [a|e|c|]]; cbn [bind]; now rewrite ?H. Qed.

Section ScriptRun.

Variable p : platform.
Variable env : jsstring -> option jsstring.

#[local] Arguments u : simpl never.
#[local] Arguments number_to_string : simpl never.

Lemma relabel_fetchJSON url K :
  relabel (ActionIO.fetchJSON p url K) = ActionIO.fetchJSON p url K.
Proof.
  rewrite fetchJSON_cases.
  destruct (fetch p url (json_headers K)) as [res|e]; [|reflexivity].
  destruct (res_ok res); [|reflexivity]. destruct (res_json res); reflexivity.
Qed.

Lemma relabel_fetchText url K :
  relabel (ActionIO.fetchText p url K) = ActionIO.fetchText p url K.
Proof.
  rewrite fetchText_cases.
  destruct (fetch p url (text_headers K)) as [res|e]; [|reflexivity].
  destruct (res_ok res); [|reflexivity]. destruct (res_text res); reflexivity.
Qed.

Lemma script_fetch_loop : forall fuel start all,
  ScriptIO.fetch_loop p env fuel start all
  = relabel (ActionIO.fetch_loop p (ScriptIO.BASE_URL env)
               (template (ScriptIO.COLL_KEY env)) (template (ScriptIO.API_KEY env))
               fuel start all).
Proof.
  induction fuel as [|fuel IH]; intros start all; [reflexivity|].
  cbn [ScriptIO.fetch_loop ActionIO.fetch_loop].
  rewrite relabel_bind, relabel_fetchJSON.
  change (ScriptIO.fetchJSON p env) with
    (fun url => ActionIO.fetchJSON p url (template (ScriptIO.API_KEY env))).
  cbv beta. apply bind_ext. intros [body headers].
  rewrite relabel_bind. apply bind_ext. intros _.
  change Script.normalizeItems with Action.normalizeItems.
  destruct (_ || _); [reflexivity|apply IH].
Qed.

Lemma script_bib_loop keys : forall fuel i bib,
  ScriptIO.bib_loop p env keys fuel i bib
  = ActionIO.bib_loop p (ScriptIO.BASE_URL env) (template (ScriptIO.API_KEY env))
      keys fuel i bib.
Proof.
  induction fuel as [|fuel IH]; intros i bib; [reflexivity|].
  cbn [ScriptIO.bib_loop ActionIO.bib_loop].
  destruct (i <? length keys)%nat; [|reflexivity].
  apply bind_ext. intros part. apply IH.
Qed.

End ScriptRun.

Lemma calls_relabel tr : List.filter is_call (List.map to_console tr) = List.filter is_call tr.
Proof.
  induction tr as [|e tr IH]; [reflexivity|].
  cbn [List.map List.filter]. rewrite IH. now destruct e as [| [] | |].
Qed.

Lemma or_text_template a d :
  or_text (template (or_undefined a (Some d))) d = template (or_undefined a (Some d)).
Proof.
  unfold or_text, or_undefined, template.
  destruct a as [s|]; [|now destruct (truthy d)].
  destruct (truthy s) eqn:Hs; [now rewrite Hs|now destruct (truthy d)].
Qed.

Lemma script_base_url env g :
  or_text g (u "false") = ScriptIO.IS_GROUP env ->
  ScriptIO.BASE_URL env = base_url g (template (ScriptIO.LIBRARY_ID env)).
Proof.
  intros E. unfold ScriptIO.BASE_URL, ScriptIO.LIBRARY_TYPE, ScriptIO.isGroup, base_url.
  now rewrite E.
Qed.

Lemma script_out_path env :
  or_text (ScriptIO.OUT_BIB_PATH env) (u "references.bib") = ScriptIO.OUT_BIB_PATH env.
Proof. unfold ScriptIO.OUT_BIB_PATH. apply or_text_template. Qed.





(** X7.  The script makes the calls of the action.  When the inputs of the
    action are the values of the variables of the script, the two programs
    make the same requests and the same calls to the file system, in the
    same order; the script ends with an exception exactly when the last
    call of the action is [core.setFailed] of its message, the script
    returns exactly when the last call of the action is the message of the
    end, and one does not finish exactly when the other does not. *)
Theorem script_makes_the_calls_of_the_action p env getInput fuel g o :
  not_value (ScriptIO.API_KEY env) = false ->
  not_value (ScriptIO.LIBRARY_ID env) = false ->
  not_value (ScriptIO.COLL_KEY env) = false ->
  getInput (u "api-key") true = Fulfilled (template (ScriptIO.API_KEY env)) ->
  getInput (u "library-id") true = Fulfilled (template (ScriptIO.LIBRARY_ID env)) ->
  getInput (u "coll-key") true = Fulfilled (template (ScriptIO.COLL_KEY env)) ->
  getInput (u "is-group") false = Fulfilled g ->
  or_text g (u "false") = ScriptIO.IS_GROUP env ->
  getInput (u "out-bib-path") false = Fulfilled o ->
  or_text o (u "references.bib") = ScriptIO.OUT_BIB_PATH env ->
  List.filter is_call (fst (ScriptIO.run p env fuel))
  = List.filter is_call (fst (ActionIO.run p getInput fuel))
  /\ match snd (ScriptIO.run p env fuel) with
     | Ok _ =>
       snd (ActionIO.run p getInput fuel) = Ok tt
       /\ exists m tr, fst (ActionIO.run p getInput fuel) = tr ++ [Say CoreInfo (Text m)]
     | Throw e =>
       snd (ActionIO.run p getInput fuel) = Ok tt
       /\ exists tr, fst (ActionIO.run p getInput fuel) = tr ++ [Say CoreSetFailed (Text e)]
     | Diverge => snd (ActionIO.run p getInput fuel) = Diverge
     | Exit _ => False
     end.
Proof.
  intros Hk Hl Hc Ik Il Ic Ig Eg Io Eo.
  rewrite run_inputs, Ik, Il, Ic, Ig, Io.
  unfold ScriptIO.run. rewrite Hk, Hl, Hc. cbn [orb].
  unfold action_calls, ScriptIO.fetchAllParentsCSL, ActionIO.fetchAllParentsCSL.
  rewrite script_fetch_loop, <- (script_base_url env g Eg), Eo.
  match goal with
  | |- context [bind (relabel ?m) ?f] =>
    rewrite (bind_ext (relabel m) f
               (fun items =>
                  let ix := Action.build_index items in
                  bind (if (length (itemKeys ix) =? 0)%nat
                        then emit (Say ConsoleWarn
                                     (Text (u "No parent items found. Check API key group permissions and the collection key.")))
                        else ret tt) (fun _ =>
                  bind (ActionIO.bib_loop p (ScriptIO.BASE_URL env)
                          (template (ScriptIO.API_KEY env)) (itemKeys ix)
                          (length (itemKeys ix)) 0 []) (fun bib =>
                  write_calls p (ScriptIO.OUT_BIB_PATH env) (Action.rewrite ix bib)
                    (Say ConsoleLog
                       (Text (u "Wrote extra/references.bib with "
                              ++ number_to_string (length (itemKeys ix))
                              ++ u " entries (pinned: "
                              ++ number_to_string (size (pinnedMap ix)) ++ u ")")))))))
  end.
  2:{ intros items. rewrite build_index_same. cbv zeta. apply bind_ext. intros _.
      rewrite script_bib_loop. apply bind_ext. intros bib. now rewrite rewrite_same. }
  pose proof (stops_fetch_loop p (ScriptIO.BASE_URL env) (template (ScriptIO.COLL_KEY env))
                (template (ScriptIO.API_KEY env)) fuel 0 []) as H1.
  destruct (ActionIO.fetch_loop p (ScriptIO.BASE_URL env) (template (ScriptIO.COLL_KEY env))
              (template (ScriptIO.API_KEY env)) fuel 0 []) as [tr1 [items|e|code|]];
    cbn [stops_at] in H1; try contradiction;
    unfold relabel; cbn [fst snd bind catch emit].
  2:{ split; [|split; [reflexivity|now exists tr1]].
      now rewrite calls_relabel, List.filter_app, app_nil_r. }
  2:{ split; [|reflexivity]. apply calls_relabel. }
  set (ix := Action.build_index items).
  pose proof (stops_bib_loop p (ScriptIO.BASE_URL env) (template (ScriptIO.API_KEY env))
                (itemKeys ix) (length (itemKeys ix)) 0 []) as H2.
  destruct (ActionIO.bib_loop p (ScriptIO.BASE_URL env) (template (ScriptIO.API_KEY env))
              (itemKeys ix) (length (itemKeys ix)) 0 []) as [tr2 [bib|e|code|]];
    cbn [stops_at] in H2; try contradiction.
  - destruct (length (itemKeys ix) =? 0)%nat; cbn [bind emit ret app];
      rewrite !write_calls_cases;
      destruct (mkdir p (dirname p (ScriptIO.OUT_BIB_PATH env))) as [[]|e];
      try destruct (writeFile p (ScriptIO.OUT_BIB_PATH env) (Action.rewrite ix bib))
        as [[]|e'];
      cbn [fst snd bind catch emit ret app];
      repeat (first [rewrite List.filter_app | rewrite calls_relabel
                     | progress (cbn [List.filter is_call app])]);
      (split; [now rewrite ?app_nil_r|]);
      (split; [reflexivity|]);
      first [solve [ends_with_last] | solve [eexists; ends_with_last]].
  - destruct (length (itemKeys ix) =? 0)%nat;
      cbn [fst snd bind catch emit ret app];
      repeat (first [rewrite List.filter_app | rewrite calls_relabel
                     | progress (cbn [List.filter is_call app])]);
      (split; [now rewrite ?app_nil_r|]);
      (split; [reflexivity|]); ends_with_last.
  - destruct (length (itemKeys ix) =? 0)%nat;
      cbn [fst snd bind catch emit ret app];
      repeat (first [rewrite List.filter_app | rewrite calls_relabel
                     | progress (cbn [List.filter is_call app])]);
      (split; [now rewrite ?app_nil_r|reflexivity]).
Qed.





Lemma script_makes_the_calls_of_the_action_witness :
  List.filter is_call (fst (ScriptIO.run scenario_platform scenario_env 1))
  = List.filter is_call (fst (ActionIO.run scenario_platform scenario_inputs 1))
  /\ match snd (ScriptIO.run scenario_platform scenario_env 1) with
     | Ok _ =>
       snd (ActionIO.run scenario_platform scenario_inputs 1) = Ok tt
       /\ exists m tr,
            fst (ActionIO.run scenario_platform scenario_inputs 1)
            = tr ++ [Say CoreInfo (Text m)]
     | Throw e =>
       snd (ActionIO.run scenario_platform scenario_inputs 1) = Ok tt
       /\ exists tr,
            fst (ActionIO.run scenario_platform scenario_inputs 1)
            = tr ++ [Say CoreSetFailed (Text e)]
     | Diverge => snd (ActionIO.run scenario_platform scenario_inputs 1) = Diverge
     | Exit _ => False
     end.
Proof.
  apply (script_makes_the_calls_of_the_action scenario_platform scenario_env
           scenario_inputs 1 (u "true") []); reflexivity.
Defined.




(** ** The batches of keys *)

Lemma chunk_starts_concat {A : Type} (keys : list A) : forall fuel i,
  (i <= length keys)%nat -> (length keys <= i + 50 * fuel)%nat ->
  concat (List.map (fun j => slice j (j + 50) keys) (chunk_starts fuel i (length keys)))
  = skipn i keys.
Proof.
  induction fuel as [|fuel IH]; intros i Hi Hf; cbn [chunk_starts].
  - cbn. rewrite skipn_all2; [reflexivity|lia].
  - destruct (Nat.ltb_spec i (length keys)).
    + cbn [List.map concat]. unfold slice at 1.
      replace (i + 50 - i)%nat with 50%nat by lia.
      destruct (Nat.le_gt_cases (i + 50) (length keys)).
      * rewrite IH by lia.
        rewrite <- (firstn_skipn 50 (skipn i keys)) at 2.
        f_equal. rewrite skipn_skipn. f_equal. lia.
      * rewrite firstn_all2 by (rewrite length_skipn; lia).
        replace (chunk_starts fuel (i + 50) (length keys)) with (@nil nat).
        -- cbn. apply app_nil_r.
        -- destruct fuel; [reflexivity|]. cbn [chunk_starts].
           destruct (Nat.ltb_spec (i + 50) (length keys)); [lia|reflexivity].
    + cbn. rewrite skipn_all2; [reflexivity|lia].
Qed.

Lemma chunk_starts_spec n : forall fuel i j,
  In j (chunk_starts fuel i n) -> (i <= j < n)%nat.
Proof.
  induction fuel as [|fuel IH]; intros i j; cbn [chunk_starts]; [intros []|].
  destruct (Nat.ltb_spec i n); [|intros []].
  intros [<-|Hin]; [lia|]. apply IH in Hin. lia.
Qed.

Lemma chunk_starts_length n : forall fuel i,
  (n <= i + 50 * fuel)%nat ->
  length (chunk_starts fuel i n) = ((n - i + 49) / 50)%nat.
Proof.
  induction fuel as [|fuel IH]; intros i Hf; cbn [chunk_starts].
  - replace (n - i + 49)%nat with 49%nat by lia. reflexivity.
  - destruct (Nat.ltb_spec i n).
    + cbn [length]. rewrite IH by lia.
      destruct (Nat.le_gt_cases (i + 50) n).
      * replace (n - i + 49)%nat with (n - (i + 50) + 49 + 1 * 50)%nat by lia.
        rewrite Nat.div_add by lia. lia.
      * replace (n - (i + 50) + 49)%nat with 49%nat by lia.
        change (49 / 50)%nat with 0%nat.
        apply (Nat.div_unique _ 50 1 (n - i - 1)); lia.
    + replace (n - i + 49)%nat with 49%nat by lia. reflexivity.
Qed.

(** X9.  The loop over the keys requests them in batches that partition the
    list: the batches, in the order of their requests, concatenate to the
    list of keys, so every key is requested once and in order; each batch
    holds between 1 and 50 keys; there are as many batches as the number
    of keys divided by 50, rounded up; and the requests of a loop that
    returns are exactly those of the batches. *)
Theorem batches_partition_keys (keys : list jsstring) :
  concat (List.map (fun j => slice j (j + 50) keys)
            (chunk_starts (length keys) 0 (length keys))) = keys
  /\ Forall (fun j => (1 <= length (slice j (j + 50) keys) <= 50)%nat)
       (chunk_starts (length keys) 0 (length keys))
  /\ length (chunk_starts (length keys) 0 (length keys))
     = ((length keys + 49) / 50)%nat
  /\ (forall p B K tr bib,
        ActionIO.bib_loop p B K keys (length keys) 0 [] = (tr, Ok bib) ->
        tr = List.map (fun j => Fetch (bib_url B (slice j (j + 50) keys)) (text_headers K))
               (chunk_starts (length keys) 0 (length keys))).
Proof.
  split; [|split; [|split]].
  - rewrite chunk_starts_concat by lia. reflexivity.
  - apply List.Forall_forall. intros j Hj. apply chunk_starts_spec in Hj.
    unfold slice. rewrite length_firstn, length_skipn. lia.
  - rewrite chunk_starts_length by lia. f_equal. lia.
  - intros p B K tr bib E.
    pose proof (bib_loop_link p B K keys (length keys) 0 []) as L.
    rewrite E in L. now destruct L as [_ ->].
Qed.

(** ** Pagination: when the loop ends *)

Lemma fetch_loop_never_ends server :
  (forall s, ok (server s) = true
             /\ (100 <= length (page_of server s))%nat
             /\ total_of server s = None) ->
  forall fuel start all log,
    Action.fetch_loop server fuel start all log = OutOfFuel.
Proof.
  intros H. induction fuel as [|fuel IH]; intros start all log; [reflexivity|].
  cbn [Action.fetch_loop]. destruct (H start) as (Hok & Hlen & Htot).
  rewrite Hok. cbn [negb]. unfold total_of, page_of in Htot. rewrite Htot.
  unfold page_of in Hlen.
  destruct (Nat.ltb_spec (length (Action.normalizeItems (body (server start)))) 100);
    [lia|]. cbn [orb ge_number]. apply IH.
Qed.

(** X10.  Pagination that never ends: when every page is served with 100 entries
    or more and with a [Total-Results] header that is not a number (so that
    the total is [NaN]), the loop of [fetchAllParentsCSL] requests pages for
    ever: whatever the number of requests allowed, it has not returned. *)
Theorem pagination_never_ends server :
  (forall s, ok (server s) = true
             /\ (100 <= length (page_of server s))%nat
             /\ total_of server s = None) ->
  forall fuel, Action.fetchAllParentsCSL server fuel = OutOfFuel.
Proof.
  intros H fuel. unfold Action.fetchAllParentsCSL. now apply fetch_loop_never_ends.
Qed.

Lemma pagination_never_ends_witness :
  Action.fetchAllParentsCSL (full_server (Some (u "many"))) 1000 = OutOfFuel.
Proof.
  apply (pagination_never_ends (full_server (Some (u "many")))).
  intros s. split; [reflexivity|]. split; [vm_compute; lia|vm_compute; reflexivity].
Defined.

Lemma fetch_loop_bounded server (T : nat) :
  (forall s, ok (server s) = true) ->
  (forall s, exists t, total_of server s = Some t /\ (t <= Z.of_nat T)%Z) ->
  forall fuel start all log,
    (1 <= fuel)%nat -> (T < length all + 100 * fuel)%nat ->
    exists all' starts,
      Action.fetch_loop server fuel start all log = Done (all', log ++ starts)
      /\ (length starts <= fuel)%nat.
Proof.
  intros Hok Htot. induction fuel as [|fuel IH]; intros start all log H1 Hf.
  - exfalso. lia.
  - cbn [Action.fetch_loop]. rewrite Hok. cbn [negb].
    destruct (Htot start) as (t & Ht & Hle). unfold total_of, page_of in Ht. rewrite Ht.
    set (page := Action.normalizeItems (body (server start))).
    destruct (Nat.ltb_spec (length page) 100) as [Hs|Hs]; cbn [orb].
    + exists (all ++ page), [start]. split; [reflexivity|cbn; lia].
    + cbn [ge_number]. destruct (Z.leb_spec t (Z.of_nat (length (all ++ page)))).
      * exists (all ++ page), [start]. split; [reflexivity|cbn; lia].
      * destruct (IH (start + length page)%nat (all ++ page) (log ++ [start]))
          as (all' & starts & E & Hl).
        { rewrite length_app in *. lia. }
        { rewrite length_app in *. lia. }
        exists all', (start :: starts). rewrite E, <- app_assoc. split; [reflexivity|cbn; lia].
Qed.

(** X11.  Pagination that ends: when every request succeeds and every response
    reports a total that is a number and at most [T], the loop returns after
    at most [T / 100 + 1] requests. *)
Theorem pagination_ends_within_total server (T : nat) :
  (forall s, ok (server s) = true) ->
  (forall s, exists t, total_of server s = Some t /\ (t <= Z.of_nat T)%Z) ->
  exists all log,
    Action.fetchAllParentsCSL server (T / 100 + 1) = Done (all, log)
    /\ (length log <= T / 100 + 1)%nat.
Proof.
  intros Hok Htot. unfold Action.fetchAllParentsCSL.
  destruct (fetch_loop_bounded server T Hok Htot (T / 100 + 1) 0 [] [])
    as (all & starts & E & Hl).
  - lia.
  - cbn [length]. pose proof (Nat.div_mod_eq T 100) as Hd.
    pose proof (Nat.mod_upper_bound T 100). lia.
  - exists all, starts. now split.
Qed.

Lemma pagination_ends_within_total_witness :
  exists all log,
    Action.fetchAllParentsCSL (full_server (Some (u "250"))) (250 / 100 + 1) = Done (all, log)
    /\ (length log <= 250 / 100 + 1)%nat.
Proof.
  apply (pagination_ends_within_total (full_server (Some (u "250"))) 250).
  - intros s. reflexivity.
  - intros s. exists 250%Z. split; [vm_compute; reflexivity|reflexivity].
Defined.

(** ** What the indexes hold *)

Lemma pinnedFromNote_token o p :
  Action.pinnedFromNote o = Some p -> p <> [] /\ forallb tok_char p = true.
Proof.
  destruct o as [n|]; [|discriminate]. intros H.
  apply pinnedFromNote_sound in H as (? & ? & ? & ? & ? & ? & _ & _ & _ & _ & _ & H1 & H2 & _).
  now split.
Qed.

Lemma index_step_consistent ix it :
  index_consistent ix -> index_consistent (Action.index_step ix it).
Proof.
  intros (Hp & Ht & Sp & St). unfold Action.index_step.
  destruct (truthy (Action.item_key it)) eqn:Hk;
    [|cbn [negb]; unfold index_consistent; auto].
  cbn [negb]. set (key := Action.item_key it).
  assert (Hin : forall k, In k (itemKeys ix) -> In k (itemKeys ix ++ [key])).
  { intros k H. apply in_or_app. now left. }
  assert (Hkey : In key (itemKeys ix ++ [key])).
  { apply in_or_app. right. now left. }
  unfold index_consistent. cbn [pinnedMap typeHints itemKeys].
  rewrite length_app. cbn [length].
  split; [|split; [|split]].
  - intros k v. destruct (Action.pinnedFromNote (note it)) as [p|] eqn:Hpin.
    + rewrite (pinnedFromNote_nonempty _ _ Hpin).
      destruct (decide (key = k)) as [<-|Hne].
      * rewrite lookup_insert_eq. intros [= <-].
        destruct (pinnedFromNote_token _ _ Hpin). auto.
      * rewrite lookup_insert_ne by exact Hne. intros H.
        destruct (Hp _ _ H) as (? & ? & ?). auto.
    + intros H. destruct (Hp _ _ H) as (? & ? & ?). auto.
  - intros k t. destruct (type it) as [ty|].
    + destruct (truthy ty) eqn:Hty.
      * destruct (decide (key = k)) as [<-|Hne].
        -- rewrite lookup_insert_eq. intros [= <-]. split; [exact Hkey|].
           now apply truthy_true.
        -- rewrite lookup_insert_ne by exact Hne. intros H.
           destruct (Ht _ _ H). auto.
      * intros H. destruct (Ht _ _ H). auto.
    + intros H. destruct (Ht _ _ H). auto.
  - assert (Hle : forall n m : nat, (n <= m -> n <= m + 1)%nat) by (intros; lia).
    destruct (Action.pinnedFromNote (note it)) as [p|]; [|now apply Hle].
    destruct (truthy p); [|now apply Hle]. rewrite map_size_insert.
    destruct (pinnedMap ix !! key); unfold id; [now apply Hle|].
    revert Sp. generalize (size (pinnedMap ix)). intros; lia.
  - assert (Hle : forall n m : nat, (n <= m -> n <= m + 1)%nat) by (intros; lia).
    destruct (type it) as [ty|]; [|now apply Hle].
    destruct (truthy ty); [|now apply Hle]. rewrite map_size_insert.
    destruct (typeHints ix !! key); unfold id; [now apply Hle|].
    revert St. generalize (size (typeHints ix)). intros; lia.
Qed.

Lemma fold_index_consistent items : forall ix,
  index_consistent ix -> index_consistent (fold_left Action.index_step items ix).
Proof.
  induction items as [|it items IH]; intros ix H; [exact H|].
  cbn [fold_left]. apply IH. now apply index_step_consistent.
Qed.

Lemma build_index_consistent items : index_consistent (Action.build_index items).
Proof.
  unfold Action.build_index. apply fold_index_consistent.
  unfold index_consistent, Action.empty_index. cbn [pinnedMap typeHints itemKeys].
  rewrite map_size_empty.
  split; [|split; [|split; reflexivity]];
    intros ? ? H; rewrite lookup_empty in H; discriminate.
Qed.

(** X12.  The indexes are consistent with the list of keys: every key that has a
    pin or a type hint is in [itemKeys]; a pin is a non-empty token without
    white space or [#] and a hint is a non-empty string; and there are never
    more pins or hints than keys, nor more keys than entries, so the final
    message never reports more pins than entries. *)
Theorem index_is_consistent (items : list CSLItem) :
  let ix := Action.build_index items in
  (forall k v, pinnedMap ix !! k = Some v ->
               In k (itemKeys ix) /\ v <> [] /\ forallb tok_char v = true)
  /\ (forall k t, typeHints ix !! k = Some t -> In k (itemKeys ix) /\ t <> [])
  /\ (size (pinnedMap ix) <= length (itemKeys ix))%nat
  /\ (size (typeHints ix) <= length (itemKeys ix))%nat
  /\ (length (itemKeys ix) <= length items)%nat.
Proof.
  intros ix. destruct (build_index_consistent items) as (Hp & Ht & Sp & St).
  repeat (split; [assumption|]). subst ix. clear Hp Ht Sp St.
  unfold Action.build_index. rewrite fold_index_keys.
  unfold Action.empty_index. cbn [itemKeys app].
  induction items as [|it items IH]; [reflexivity|].
  cbn [List.map List.filter length]. destruct (truthy _); cbn [length]; lia.
Qed.

Lemma last_value_snoc f k items it :
  last_value f k (items ++ [it])
  = if jsstring_eqb (Action.item_key it) k then
      match f it with
      | Some v => if truthy v then Some v else last_value f k items
      | None => last_value f k items
      end
    else last_value f k items.
Proof. unfold last_value. now rewrite fold_left_app. Qed.

(** X13.  The last entry wins, field by field.  For a key that is not empty, the
    pin registered is the one of the last entry with that key whose note
    gives a pin, and the type hint is the one of the last entry with that
    key that has a non-empty type: an entry without a pin (without a type)
    leaves the pin (the hint) of an earlier entry with the same key. *)
Theorem index_last_entry_wins (items : list CSLItem) (k : jsstring) :
  k <> [] ->
  pinnedMap (Action.build_index items) !! k
  = last_value (fun it => Action.pinnedFromNote (note it)) k items
  /\ typeHints (Action.build_index items) !! k = last_value type k items.
Proof.
  intros Hk. induction items as [|it items [IHp IHt]] using rev_ind.
  - split; apply lookup_empty.
  - rewrite build_index_snoc, !last_value_snoc. unfold Action.index_step.
    unfold jsstring_eqb.
    destruct (truthy (Action.item_key it)) eqn:Hkey; cbn [negb].
    + cbn [pinnedMap typeHints]. split.
      * destruct (Action.pinnedFromNote (note it)) as [p|] eqn:Hp.
        -- rewrite (pinnedFromNote_nonempty _ _ Hp).
           destruct (decide (Action.item_key it = k)) as [E|E].
           ++ rewrite (bool_decide_eq_true_2 _ E), E. apply lookup_insert_eq.
           ++ rewrite (bool_decide_eq_false_2 _ E), lookup_insert_ne by exact E.
              exact IHp.
        -- rewrite IHp. now destruct (bool_decide _).
      * destruct (type it) as [ty|].
        -- destruct (truthy ty) eqn:Hty.
           ++ destruct (decide (Action.item_key it = k)) as [E|E].
              ** rewrite (bool_decide_eq_true_2 _ E), E. apply lookup_insert_eq.
              ** rewrite (bool_decide_eq_false_2 _ E), lookup_insert_ne by exact E.
                 exact IHt.
           ++ rewrite IHt. now destruct (bool_decide _).
        -- rewrite IHt. now destruct (bool_decide _).
    + apply truthy_false in Hkey. rewrite Hkey.
      rewrite (bool_decide_eq_false_2 ([] = k)) by congruence. now split.
Qed.

Lemma index_last_entry_wins_witness :
  pinnedMap (Action.build_index [entry_first; entry_second]) !! u "K"
  = last_value (fun it => Action.pinnedFromNote (note it)) (u "K")
      [entry_first; entry_second]
  /\ typeHints (Action.build_index [entry_first; entry_second]) !! u "K"
     = last_value type (u "K") [entry_first; entry_second].
Proof.
  apply (index_last_entry_wins [entry_first; entry_second] (u "K")). discriminate.
Defined.

(** ** The cleaned value of a type field *)

Lemma forallb_drop_while (q p : char -> bool) (s : jsstring) :
  forallb q s = true -> forallb q (drop_while p s) = true.
Proof.
  induction s as [|c t IH]; simpl; [reflexivity|].
  intros H. apply andb_prop in H as [Hc Ht].
  destruct (p c); [now apply IH|]. simpl. now rewrite Hc, Ht.
Qed.

Lemma forallb_rev (q : char -> bool) (s : jsstring) :
  forallb q (rev s) = forallb q s.
Proof.
  induction s as [|c t IH]; simpl; [reflexivity|].
  rewrite forallb_app, IH. simpl. rewrite andb_true_r. apply andb_comm.
Qed.

Lemma forallb_trim (q : char -> bool) (s : jsstring) :
  forallb q s = true -> forallb q (trim s) = true.
Proof.
  intros H. unfold trim. rewrite forallb_rev. apply forallb_drop_while.
  rewrite forallb_rev. now apply forallb_drop_while.
Qed.

Lemma collapse_clean_char b (s : jsstring) :
  forallb no_brace_char s = true -> forallb clean_char (collapse_from b s) = true.
Proof.
  revert b. induction s as [|x t IH]; intros b; cbn [collapse_from forallb];
    [reflexivity|].
  intros H. apply andb_prop in H as [Hx Ht].
  destruct (is_space x) eqn:Hs.
  - destruct b; [now apply IH|]. cbn [forallb].
    change (clean_char 32) with true. now apply IH.
  - cbn [forallb]. unfold clean_char at 1. rewrite Hx, Hs. now apply IH.
Qed.

Lemma collapse_single_spaced b (s : jsstring) :
  single_spaced b (collapse_from b s) = true.
Proof.
  revert b. induction s as [|x t IH]; intros b; simpl; [reflexivity|].
  destruct (is_space x) eqn:Hs.
  - destruct b; [apply IH|]. simpl. apply IH.
  - simpl. rewrite Hs. apply IH.
Qed.

Lemma single_spaced_weaken b (s : jsstring) :
  single_spaced b s = true -> single_spaced false s = true.
Proof.
  destruct s as [|x t]; [reflexivity|]. simpl.
  destruct (is_space x); [|auto]. destruct b; [discriminate|auto].
Qed.

Lemma single_spaced_app b (l r : jsstring) :
  single_spaced b (l ++ r) = true ->
  single_spaced b l = true /\ single_spaced false r = true.
Proof.
  revert b. induction l as [|x l IH]; intros b; simpl.
  - intros H. split; [reflexivity|]. now apply single_spaced_weaken in H.
  - destruct (is_space x).
    + intros H. apply andb_prop in H as [Hb H]. rewrite Hb.
      destruct (IH _ H) as [H1 H2]. now rewrite H1.
    + apply IH.
Qed.

Lemma trim_middle (s : jsstring) :
  exists ws1 ws2, s = ws1 ++ trim s ++ ws2.
Proof.
  unfold trim. exists (take_while is_space s).
  exists (rev (take_while is_space (rev (drop_while is_space s)))).
  rewrite <- rev_app_distr, take_drop_while, rev_involutive.
  now rewrite take_drop_while.
Qed.

Lemma trim_fixed (s : jsstring) :
  match s with [] => True | c :: _ => is_space c = false end ->
  match rev s with [] => True | c :: _ => is_space c = false end ->
  trim s = s.
Proof.
  intros H1 H2. unfold trim. rewrite (drop_while_none _ _ H1).
  rewrite (drop_while_none _ _ H2). apply rev_involutive.
Qed.

Lemma filter_fixed (q : char -> bool) (s : jsstring) :
  forallb q s = true -> List.filter q s = s.
Proof.
  induction s as [|c t IH]; simpl; [reflexivity|].
  intros H. apply andb_prop in H as [Hc Ht]. now rewrite Hc, IH.
Qed.

Lemma collapse_fixed b (s : jsstring) :
  forallb clean_char s = true -> single_spaced b s = true -> collapse_from b s = s.
Proof.
  revert b. induction s as [|x t IH]; intros b; simpl; [reflexivity|].
  intros H. apply andb_prop in H as [Hx Ht]. unfold clean_char in Hx.
  apply andb_prop in Hx as [_ Hx].
  destruct (is_space x) eqn:Hs.
  - intros H. apply andb_prop in H as [Hb H]. destruct b; [discriminate|].
    simpl in Hx. apply N.eqb_eq in Hx. subst x. now rewrite IH.
  - intros H. now rewrite IH.
Qed.

(** X14.  The cleaned value of a type field is in normal form: it holds no brace;
    its only white space is the space character, never twice in a row and
    neither at its start nor at its end; and cleaning it again changes
    nothing. *)
Theorem cleaned_value_normal_form (content : jsstring) :
  let v := Action.clean_content content in
  forallb clean_char v = true
  /\ single_spaced false v = true
  /\ match v with [] => True | c :: _ => is_space c = false end
  /\ match rev v with [] => True | c :: _ => is_space c = false end
  /\ Action.clean_content v = v.
Proof.
  intros v. subst v. rewrite !clean_content_value.
  remember (clean_value content) as v eqn:Hv. unfold clean_value in Hv.
  set (s := collapse_ws (strip_braces content)) in Hv.
  assert (Hc : forallb clean_char v = true).
  { subst v. apply forallb_trim. apply collapse_clean_char. unfold strip_braces.
    apply forallb_forall. intros c Hin. now apply filter_In in Hin. }
  assert (Hs : single_spaced false v = true).
  { subst v. destruct (trim_middle s) as (ws1 & ws2 & E).
    pose proof (collapse_single_spaced false (strip_braces content)) as H.
    fold (collapse_ws (strip_braces content)) in H. fold s in H. rewrite E in H.
    apply single_spaced_app in H as [_ H]. now apply single_spaced_app in H as [H _]. }
  assert (Hh : match v with [] => True | c :: _ => is_space c = false end)
    by (subst v; apply trim_head).
  assert (Hl : match rev v with [] => True | c :: _ => is_space c = false end)
    by (subst v; apply trim_last).
  repeat (split; [assumption|]).
  unfold clean_value, strip_braces, collapse_ws.
  rewrite filter_fixed.
  - rewrite (collapse_fixed _ _ Hc Hs). now apply trim_fixed.
  - rewrite forallb_forall in Hc |- *. intros c Hin. specialize (Hc _ Hin).
    unfold clean_char in Hc. now apply andb_prop in Hc as [Hc _].
Qed.

(** ** Passes that leave the text as it is *)

(** A pass whose replacer writes the text of the match again. *)
Section IdentityPass.

Variable fl : flags.
Variable r : regex.
Variable repl : mstate -> jsstring.

Hypothesis repl_same : forall b s st,
  match_at fl r b s = Some st -> s = repl st ++ rest st.

Lemma replace_loop_same : forall fuel b s, replace_loop fl r repl fuel b s = s.
Proof.
  induction fuel as [|fuel IH]; intros b s; [reflexivity|].
  rewrite replace_loop_S.
  assert (Hskip : match s with
                  | [] => []
                  | c :: t => c :: replace_loop fl r repl fuel (c :: b) t
                  end = s).
  { destruct s as [|c t]; [reflexivity|]. now rewrite IH. }
  destruct (match_at fl r b s) as [st|] eqn:Hm; [|exact Hskip].
  pose proof (repl_same _ _ _ Hm) as E.
  destruct (Nat.eqb_spec (length (rest st)) (length s)) as [Hl|Hl].
  - rewrite Hskip. assert (Hnil : repl st = []).
    { apply (f_equal (@length _)) in E. rewrite length_app in E.
      destruct (repl st); [reflexivity|]. cbn [length] in E. lia. }
    now rewrite Hnil.
  - rewrite IH. now symmetry.
Qed.

End IdentityPass.

(** A pass whose expression needs a code unit that the text does not hold. *)
Section UnmatchedPass.

Variable fl : flags.
Variable r : regex.
Variable repl : mstate -> jsstring.
Variable p : char -> bool.

Hypothesis no_match : forall b s, forallb p s = true -> match_at fl r b s = None.

Lemma replace_loop_unmatched : forall fuel b s,
  forallb p s = true -> replace_loop fl r repl fuel b s = s.
Proof.
  induction fuel as [|fuel IH]; intros b s Hs; [reflexivity|].
  rewrite replace_loop_S, (no_match _ _ Hs).
  destruct s as [|c t]; [reflexivity|]. cbn [forallb] in Hs.
  apply andb_prop in Hs as [_ Ht]. now rewrite IH.
Qed.

End UnmatchedPass.

Lemma lbrace_in (l r : jsstring) : forallb not_lbrace (l ++ 123 :: r) = false.
Proof.
  rewrite forallb_app. cbn [forallb]. change (not_lbrace 123) with false.
  cbn [andb]. apply andb_false_r.
Qed.

Lemma header_needs_lbrace b s :
  forallb not_lbrace s = true -> match_at f_g Action.header_rx b s = None.
Proof.
  intros Hs. pose proof (match_at_header b s) as H.
  destruct (header_at s) as [[[ty key] post]|] eqn:E; [|exact H].
  apply header_at_app in E as (-> & _).
  change (64 :: ty ++ 123 :: key ++ 44 :: post)
    with ((64 :: ty) ++ 123 :: key ++ 44 :: post) in Hs.
  rewrite lbrace_in in Hs. discriminate.
Qed.

Lemma field_needs_lbrace name b s :
  forallb not_lbrace s = true -> match_at f_gi (Action.field_rx name) b s = None.
Proof.
  intros Hs. rewrite match_at_field.
  destruct (field_at name s) as [[[g1 content] post]|] eqn:E; [|reflexivity].
  apply field_at_sound in E as (J & ws1 & ws2 & -> & _).
  rewrite !app_assoc in Hs. rewrite <- !app_assoc in Hs.
  replace (J ++ ws1 ++ [61] ++ ws2 ++ [123] ++ content ++ [125] ++ post)
    with ((J ++ ws1 ++ [61] ++ ws2) ++ 123 :: content ++ [125] ++ post) in Hs
    by (now rewrite <- !app_assoc).
  rewrite lbrace_in in Hs. discriminate.
Qed.

Lemma type_needs_lbrace b s :
  forallb not_lbrace s = true -> match_at f_mi Action.type_rx b s = None.
Proof.
  intros Hs. pose proof (type_match_spec b s) as H. unfold type_spec in H.
  destruct (bol b || headed (fun c => c =? 10) s); [|exact H].
  destruct (type_body s) as [[[[ind content] tail] post]|] eqn:E; [|exact H].
  apply type_body_sound in E as (T & ws1 & ws2 & ws3 & comma & -> & _).
  replace (ind ++ T ++ ws1 ++ [61] ++ ws2 ++ [123] ++ content ++ [125]
           ++ ws3 ++ comma ++ post)
    with ((ind ++ T ++ ws1 ++ [61] ++ ws2) ++ 123 :: content ++ [125]
          ++ ws3 ++ comma ++ post) in Hs
    by (now rewrite <- !app_assoc).
  rewrite lbrace_in in Hs. discriminate.
Qed.

(** X15.  A text without opening brace goes through the four passes unchanged,
    whatever the indexes: every expression of the passes needs an opening
    brace. *)
Theorem text_without_brace_unchanged ix (bib : jsstring) :
  forallb not_lbrace bib = true -> Action.rewrite ix bib = bib.
Proof.
  intros H. unfold Action.rewrite.
  assert (H1 : Action.rewrite_headers ix bib = bib).
  { apply (replace_loop_unmatched f_g Action.header_rx _ not_lbrace header_needs_lbrace),
      H. }
  assert (H2 : Action.rename_journal bib = bib).
  { rewrite rename_journal_field_rx.
    apply (replace_loop_unmatched f_gi _ _ not_lbrace (field_needs_lbrace _)), H. }
  assert (H3 : forall name, Action.protect_field bib name = bib).
  { intros name.
    apply (replace_loop_unmatched f_gi _ _ not_lbrace (field_needs_lbrace _)), H. }
  assert (H4 : Action.cleanTypeField bib = bib).
  { apply (replace_loop_unmatched f_mi Action.type_rx _ not_lbrace type_needs_lbrace), H. }
  rewrite H1, H2. unfold Action.protectCapitalsInFields, Action.default_fields.
  cbn [fold_left]. now rewrite !H3, H4.
Qed.

Lemma text_without_brace_unchanged_witness :
  Action.rewrite (Action.build_index [entry_scenario]) (u "@comment: journal = Web, title = HTML")
  = u "@comment: journal = Web, title = HTML".
Proof.
  apply (text_without_brace_unchanged (Action.build_index [entry_scenario])
           (u "@comment: journal = Web, title = HTML")).
  reflexivity.
Defined.

Lemma header_repl_plain ix b s st :
  (forall k, pinnedMap ix !! k = None) -> (forall k, typeHints ix !! k = None) ->
  match_at f_g Action.header_rx b s = Some st ->
  s = Action.header_repl ix st ++ rest st.
Proof.
  intros Hp Ht Hm. pose proof (match_at_header b s) as H.
  destruct (header_at s) as [[[ty key] post]|] eqn:E; [|congruence].
  destruct H as (bf & H). rewrite H in Hm. injection Hm as <-.
  apply header_at_app in E as (-> & _).
  unfold Action.header_repl. cbn [cap cap_lookup caps rest Nat.eqb].
  rewrite Hp, Ht. cbn [Action.or_key Action.or_empty].
  change (or_string (object_get Action.typeMap []) ty) with ty.
  change (u "@") with [64]. change (u "{") with [123]. change (u ",") with [44].
  now rewrite <- !app_assoc.
Qed.

(** X16.  Without pins and without type hints the header pass changes nothing:
    every header is written again with its own type and its own key. *)
Theorem headers_kept_without_pins_and_hints ix (bib : jsstring) :
  (forall k, pinnedMap ix !! k = None) -> (forall k, typeHints ix !! k = None) ->
  Action.rewrite_headers ix bib = bib.
Proof.
  intros Hp Ht.
  apply (replace_loop_same f_g Action.header_rx (Action.header_repl ix)).
  intros b s st. now apply header_repl_plain.
Qed.

Lemma headers_kept_without_pins_and_hints_witness :
  Action.rewrite_headers Action.empty_index raw_scenario = raw_scenario.
Proof.
  apply (headers_kept_without_pins_and_hints Action.empty_index raw_scenario);
    intros k; reflexivity.
Defined.

(** ** The acronym pass *)

Lemma try_back_last k l : forall b c r,
  (forall l1 x l2, l = l1 ++ x :: l2 ->
     k (MState (rev l1 ++ b) (x :: l2 ++ r) c) = None) ->
  try_back k b c l r = k (MState (rev l ++ b) r c).
Proof.
  induction l as [|x l IH]; intros b c r H; cbn [try_back]; [reflexivity|].
  rewrite IH.
  - cbn [rev]. rewrite <- app_assoc. cbn [app].
    destruct (k (MState (rev l ++ x :: b) r c)) as [res|]; [reflexivity|].
    apply (H [] x l). reflexivity.
  - intros l1 y l2 E. specialize (H (x :: l1) y l2). cbn [rev app] in H.
    rewrite <- app_assoc in H. apply H. now rewrite E.
Qed.

Lemma mt_rep2_cls fl neg items b s c k :
  mt fl (Rep 2 (Cls neg items)) (MState b s c) k
  = match s with
    | x :: y :: t =>
      if cls_match fl neg items x && cls_match fl neg items y
      then try_back k (y :: x :: b) c
             (take_while (cls_match fl neg items) t)
             (drop_while (cls_match fl neg items) t)
      else None
    | _ => None
    end.
Proof.
  change (mt fl (Rep 2 (Cls neg items)) (MState b s c) k)
    with (step_char (cls_match fl neg items) (MState b s c)
            (fun st1 =>
               step_char (cls_match fl neg items) st1
                 (fun st2 => rep_loop (mt fl (Cls neg items)) k (1 + length s) 0 st2))).
  destruct s as [|x [|y t]]; unfold step_char; cbn [rest advance before caps].
  - reflexivity.
  - destruct (cls_match fl neg items x); reflexivity.
  - destruct (cls_match fl neg items x); [|reflexivity].
    destruct (cls_match fl neg items y); [|reflexivity]. cbn [andb].
    change (advance y t (advance x (y :: t) (MState b (x :: y :: t) c)))
      with (MState (y :: x :: b) t c).
    pose proof (rep_loop_cls fl neg items k (take_while (cls_match fl neg items) t)
                  (y :: x :: b) c (drop_while (cls_match fl neg items) t)
                  (1 + length (x :: y :: t))
                  (take_while_forallb _ t) (drop_while_headed _ t)) as H.
    rewrite take_drop_while in H. apply H. cbn [length]. lia.
Qed.

Lemma cls_upper c : cls_match f_g false [CRange 65 90] c = is_upper c.
Proof. unfold cls_match, is_upper. cbn. now rewrite orb_false_r. Qed.

Lemma upper_word c : is_upper c = true -> is_word c = true.
Proof. intros H. unfold is_word. now rewrite H. Qed.

Lemma headed_rev_snoc (p : char -> bool) (l : jsstring) x b :
  headed p (rev (l ++ [x]) ++ b) = p x.
Proof. rewrite rev_app_distr. reflexivity. Qed.

Lemma mt_wordb fl st k :
  mt fl WordB st k = if at_word_boundary st then k st else None.
Proof. reflexivity. Qed.

Lemma headed_rev_upper (l : jsstring) y b :
  forallb is_upper l = true -> is_upper y = true ->
  headed is_word (rev l ++ y :: b) = true.
Proof.
  intros Hl Hy. destruct l as [|a l] using rev_ind.
  - cbn. now apply upper_word.
  - rewrite rev_app_distr. cbn. rewrite forallb_app in Hl.
    apply andb_prop in Hl as [_ Ha]. cbn in Ha. rewrite andb_true_r in Ha.
    now apply upper_word.
Qed.

Lemma match_at_acronym b s :
  match_at f_g Action.acronym_rx b s
  = match acronym_at b s with
    | Some (w, r) => Some (MState (rev w ++ b) r [(1%nat, w)])
    | None => None
    end.
Proof.
  unfold match_at, Action.acronym_rx, acronym_at. cbn [seqs].
  rewrite mt_seq, mt_wordb. unfold at_word_boundary at 1. cbn [before rest].
  fold (headed is_word b). fold (headed is_word s).
  destruct s as [|x [|y t]].
  - replace (2 <=? length (take_while is_upper []))%nat with false by reflexivity.
    rewrite andb_false_r. cbn [andb]. destruct (xorb _ _); reflexivity.
  - replace (2 <=? length (take_while is_upper [x]))%nat with false
      by (cbn [take_while]; destruct (is_upper x); reflexivity).
    rewrite andb_false_r. cbn [andb].
    destruct (xorb _ _); [|reflexivity].
    rewrite mt_seq, mt_grp, mt_rep2_cls. reflexivity.
  - destruct (xorb (headed is_word b) (headed is_word (x :: y :: t))) eqn:Hb.
    + rewrite mt_seq, mt_grp, mt_rep2_cls, !cls_upper.
      cbn [take_while drop_while].
      destruct (is_upper x) eqn:Hx;
        [|cbn [andb length Nat.leb]; now rewrite andb_false_r].
      destruct (is_upper y) eqn:Hy;
        [|cbn [andb length Nat.leb]; now rewrite andb_false_r]. cbn [andb].
      cbn [headed] in Hb. rewrite (upper_word _ Hx) in Hb.
      rewrite xorb_true_r in Hb. rewrite Hb. cbn [andb length Nat.leb].
      rewrite (take_while_ext _ is_upper t cls_upper),
        (drop_while_ext _ is_upper t cls_upper).
      pose proof (take_while_forallb is_upper t) as Hl.
      pose proof (take_drop_while is_upper t) as Ht.
      set (l := take_while is_upper t) in *. set (r := drop_while is_upper t) in *.
      rewrite try_back_last.
      * rewrite mt_wordb. unfold at_word_boundary, set_cap. cbn [before rest caps].
        fold (headed is_word (rev l ++ y :: x :: b)). fold (headed is_word r).
        rewrite (headed_rev_upper l y (x :: b) Hl Hy), xorb_true_l.
        destruct (negb (headed is_word r)); [|reflexivity].
        unfold consumed. cbn [rest]. rewrite <- Ht.
        replace (length (x :: y :: l ++ r) - length r)%nat with (length (x :: y :: l))
          by (cbn [length]; rewrite length_app; lia).
        change (x :: y :: l ++ r) with ((x :: y :: l) ++ r).
        rewrite firstn_app, Nat.sub_diag, firstn_all. cbn [firstn]. rewrite app_nil_r.
        f_equal. f_equal. cbn [rev]. now rewrite <- !app_assoc.
      * intros l1 x' l2 E. rewrite mt_wordb. unfold at_word_boundary, set_cap.
        cbn [before rest caps headed].
        fold (headed is_word (rev l1 ++ y :: x :: b)).
        rewrite E, forallb_app in Hl. apply andb_prop in Hl as [Hl1 Hl2].
        cbn [forallb] in Hl2. apply andb_prop in Hl2 as [Hx' _].
        now rewrite (headed_rev_upper l1 y (x :: b) Hl1 Hy), (upper_word _ Hx').
    + assert (E : negb (headed is_word b)
                  && (2 <=? length (take_while is_upper (x :: y :: t)))%nat = false).
      { cbn [headed] in Hb. cbn [take_while].
        destruct (is_upper x) eqn:Hx; [|apply andb_false_r].
        rewrite (upper_word _ Hx), xorb_true_r in Hb. now rewrite Hb. }
      now rewrite E.
Qed.

Lemma acronym_at_after_word b s : headed is_word b = true -> acronym_at b s = None.
Proof. intros H. unfold acronym_at. now rewrite H. Qed.

Lemma acronym_at_nonword b c t : is_word c = false -> acronym_at b (c :: t) = None.
Proof.
  intros H. unfold acronym_at. cbn [take_while].
  destruct (is_upper c) eqn:Hu; [now rewrite (upper_word _ Hu) in H|].
  cbn [length Nat.leb]. now rewrite andb_false_r.
Qed.

Lemma acronym_at_nil b : acronym_at b [] = None.
Proof. unfold acronym_at. cbn. now rewrite andb_false_r. Qed.

Lemma headed_rev_word (l : jsstring) b :
  forallb is_word l = true -> headed is_word b = true ->
  headed is_word (rev l ++ b) = true.
Proof.
  intros Hl Hb. destruct l as [|a l] using rev_ind; [exact Hb|].
  rewrite rev_app_distr. cbn. rewrite forallb_app in Hl.
  apply andb_prop in Hl as [_ Ha]. cbn in Ha. now rewrite andb_true_r in Ha.
Qed.

(** Inside a word nothing matches: the rest of the word is copied. *)
Lemma acronym_inside_word repl s b :
  headed is_word b = true ->
  replace_from f_g Action.acronym_rx repl b s
  = take_while is_word s
    ++ replace_from f_g Action.acronym_rx repl (rev (take_while is_word s) ++ b)
         (drop_while is_word s).
Proof.
  intros Hb. rewrite <- (take_drop_while is_word s) at 1.
  apply replace_from_prefix. intros p1 p2 E Hne.
  rewrite match_at_acronym, acronym_at_after_word; [reflexivity|].
  apply headed_rev_word; [|exact Hb].
  pose proof (take_while_forallb is_word s) as H. rewrite E, forallb_app in H.
  now apply andb_prop in H as [H _].
Qed.

Lemma take_while_upper_word (w r : jsstring) :
  forallb is_word w = true -> headed is_word r = false ->
  (if forallb is_upper w
   then take_while is_upper (w ++ r) = w /\ drop_while is_upper (w ++ r) = r
   else headed is_word (drop_while is_upper (w ++ r)) = true).
Proof.
  intros Hw Hr. induction w as [|c w IH]; cbn [forallb app take_while drop_while].
  - destruct r as [|x r]; [now split|]. cbn [headed] in Hr. cbn [take_while drop_while].
    destruct (is_upper x) eqn:Hx; [now rewrite (upper_word _ Hx) in Hr|now split].
  - cbn [forallb] in Hw. apply andb_prop in Hw as [Hc Hw]. specialize (IH Hw).
    destruct (is_upper c); cbn [andb]; [|exact Hc].
    destruct (forallb is_upper w); [|exact IH].
    destruct IH as [-> ->]. now split.
Qed.

(** At the start of a word: the word is written as [wrap_word] writes it. *)
Lemma acronym_word_start (w r b : jsstring) :
  w <> [] -> forallb is_word w = true -> headed is_word r = false ->
  headed is_word b = false ->
  replace_from f_g Action.acronym_rx acronym_repl b (w ++ r)
  = wrap_word w ++ replace_from f_g Action.acronym_rx acronym_repl (rev w ++ b) r.
Proof.
  intros Hne Hw Hr Hb. unfold wrap_word.
  pose proof (take_while_upper_word w r Hw Hr) as Hu.
  destruct ((2 <=? length w)%nat && forallb is_upper w) eqn:Hc.
  - apply andb_prop in Hc as [Hlen Hup]. rewrite Hup in Hu. destruct Hu as [Ht Hd].
    assert (Hm : match_at f_g Action.acronym_rx b (w ++ r)
                 = Some (MState (rev w ++ b) r [(1%nat, w)])).
    { rewrite match_at_acronym. unfold acronym_at. now rewrite Ht, Hd, Hb, Hlen, Hr. }
    rewrite (replace_from_match _ _ _ _ _ _ Hm).
    + unfold acronym_repl. cbn [cap cap_lookup caps Nat.eqb before rest].
      now rewrite <- !app_assoc.
    + cbn [rest]. rewrite length_app. destruct w; [contradiction|cbn [length]; lia].
  - assert (Hm : match_at f_g Action.acronym_rx b (w ++ r) = None).
    { rewrite match_at_acronym. unfold acronym_at.
      destruct (forallb is_upper w) eqn:Hup.
      - destruct Hu as [Ht Hd]. rewrite Ht. rewrite andb_true_r in Hc.
        now rewrite Hc, andb_false_r.
      - now rewrite Hu, andb_false_r. }
    destruct w as [|c w]; [contradiction|]. cbn [app] in *.
    rewrite (replace_from_skip _ _ _ _ _ _ Hm).
    cbn [forallb] in Hw. apply andb_prop in Hw as [Hcw Hw].
    rewrite acronym_inside_word by exact Hcw.
    rewrite (take_while_app is_word w r Hw Hr), (drop_while_app is_word w r Hw Hr).
    cbn [rev]. now rewrite <- !app_assoc.
Qed.

Lemma wrap_words_word (w r : jsstring) : forall cur,
  forallb is_word w = true -> headed is_word r = false ->
  wrap_words cur (w ++ r)
  = wrap_word (rev cur ++ w)
    ++ match r with [] => [] | x :: r' => x :: wrap_words [] r' end.
Proof.
  induction w as [|c w IH]; intros cur Hw Hr; cbn [app].
  - rewrite app_nil_r. destruct r as [|x r]; cbn [wrap_words].
    + now rewrite app_nil_r.
    + cbn [headed] in Hr. now rewrite Hr.
  - cbn [forallb] in Hw. apply andb_prop in Hw as [Hc Hw].
    cbn [wrap_words]. rewrite Hc, (IH _ Hw Hr). cbn [rev].
    now rewrite <- app_assoc.
Qed.

Lemma acronym_pass_from : forall n s b,
  (length s <= n)%nat -> headed is_word b = false ->
  replace_from f_g Action.acronym_rx acronym_repl b s = wrap_words [] s.
Proof.
  induction n as [|n IH]; intros s b Hn Hb.
  - destruct s; [|cbn in Hn; lia].
    apply replace_from_nil. now rewrite match_at_acronym, acronym_at_nil.
  - destruct s as [|c t].
    { apply replace_from_nil. now rewrite match_at_acronym, acronym_at_nil. }
    destruct (is_word c) eqn:Hc.
    + pose proof (take_drop_while is_word (c :: t)) as E.
      pose proof (take_while_forallb is_word (c :: t)) as Hw.
      pose proof (drop_while_headed is_word (c :: t)) as Hr.
      assert (Hne : take_while is_word (c :: t) <> [])
        by (cbn [take_while]; rewrite Hc; discriminate).
      assert (Hlen : (length (drop_while is_word (c :: t)) < length (c :: t))%nat).
      { rewrite <- E at 2. rewrite length_app.
        destruct (take_while is_word (c :: t)); [contradiction|cbn [length]; lia]. }
      rewrite <- E.
      rewrite (acronym_word_start _ _ _ Hne Hw Hr Hb),
        (wrap_words_word _ _ [] Hw Hr).
      cbn [rev app]. f_equal.
      destruct (drop_while is_word (c :: t)) as [|x r'] eqn:Ed.
      * apply replace_from_nil. now rewrite match_at_acronym, acronym_at_nil.
      * cbn [headed] in Hr.
        rewrite replace_from_skip
          by (now rewrite match_at_acronym, (acronym_at_nonword _ _ _ Hr)).
        f_equal. apply IH; [cbn [length] in *; lia|exact Hr].
    + rewrite replace_from_skip
        by (now rewrite match_at_acronym, (acronym_at_nonword _ _ _ Hc)).
      cbn [wrap_words]. rewrite Hc. cbn [rev wrap_word length Nat.leb andb app].
      f_equal. apply IH; [cbn [length] in Hn; lia|exact Hc].
Qed.

(** X17.  The acronym pass over the content of a field: the content is read as
    words, the maximal runs of the word characters [A-Za-z0-9_]; a word
    made of two capitals or more is wrapped in two pairs of braces; every
    other word (a single capital, a word with a small letter, a digit or an
    underscore) and everything between the words is copied. *)
Theorem acronym_pass_wraps_capital_words (content : jsstring) :
  replace_all f_g Action.acronym_rx (fun m => u "{{" ++ cap 1 m ++ u "}}") content
  = wrap_words [] content.
Proof.
  unfold replace_all.
  apply (acronym_pass_from (length content) content []); [lia|reflexivity].
Qed.

(** X18.  One pass of [protectCapitalsInFields], for one name of its list.  The
    first field of that name met by the scan (the name in any letter case,
    white space allowed around [=], a content of one or more code units
    without closing brace) keeps its name and its braces, its content is
    written with every word of two capitals or more wrapped in two pairs of
    braces, the text before it is copied and the pass goes on after it; a
    text in which the scan meets no such field is left as it is. *)
Theorem field_pass_wraps_content (name : jsstring) :
  In name Action.default_fields ->
  (forall pre J ws1 ws2 content post : jsstring,
     ci_eq name J = true ->
     forallb is_space ws1 = true -> forallb is_space ws2 = true ->
     content <> [] -> forallb not_rbrace content = true ->
     no_field_in name pre
       (J ++ ws1 ++ [61] ++ ws2 ++ [123] ++ content ++ [125] ++ post) = true ->
     Action.protect_field
       (pre ++ J ++ ws1 ++ [61] ++ ws2 ++ [123] ++ content ++ [125] ++ post) name
     = pre ++ J ++ ws1 ++ [61] ++ ws2 ++ [123] ++ wrap_words [] content ++ [125]
       ++ Action.protect_field post name)
  /\ (forall s : jsstring,
        no_field_in name s [] = true -> Action.protect_field s name = s).
Proof.
  intros Hname. split.
  - intros pre J ws1 ws2 content post HJ H1 H2 Hne Hc Hpre.
    unfold Action.protect_field.
    rewrite (field_pass_first name _
               (fun g1 content =>
                  g1 ++ replace_all f_g Action.acronym_rx
                          (fun m' => u "{{" ++ cap 1 m' ++ u "}}") content ++ [125])
               (fun _ _ _ _ => eq_refl) pre _ _ content post Hpre
               (field_at_complete _ _ _ _ _ _ HJ H1 H2 Hne Hc)).
    rewrite (acronym_pass_from (length content) content [] (Nat.le_refl _) eq_refl
             : replace_all f_g Action.acronym_rx
                 (fun m' => u "{{" ++ cap 1 m' ++ u "}}") content
               = wrap_words [] content).
    now rewrite <- !app_assoc.
  - intros s H. unfold Action.protect_field.
    apply (field_pass_none name); [|exact H].
    cbn [In Action.default_fields] in Hname.
    destruct Hname as [<-|[<-|[<-|[<-|[]]]]]; reflexivity.
Qed.

Lemma field_pass_wraps_content_witness :
  Action.protect_field
    (u "  " ++ u "Series" ++ u " " ++ [61] ++ u " " ++ [123] ++ u "LNCS volume A"
     ++ [125] ++ u ",") (u "series")
  = u "  " ++ u "Series" ++ u " " ++ [61] ++ u " " ++ [123]
    ++ wrap_words [] (u "LNCS volume A") ++ [125]
    ++ Action.protect_field (u ",") (u "series").
Proof.
  apply (proj1 (field_pass_wraps_content (u "series")
                  (or_intror (or_intror (or_introl eq_refl))))
           (u "  ") (u "Series") (u " ") (u " ") (u "LNCS volume A") (u ","));
    try reflexivity. discriminate.
Defined.

(** ** Pagination: the offsets *)

Lemma pages_offsets server : forall s acc starts,
  Pages server s acc starts ->
  starts = offsets_from s (List.map (fun x => length (page_of server x)) starts)
  /\ (forall x, In x starts -> (s <= x)%nat)
  /\ List.NoDup starts
  /\ (forall x, In x (removelast starts) -> (100 <= length (page_of server x))%nat).
Proof.
  intros s acc starts H. induction H as [s acc Hok Hstop|s acc starts Hok Hstop HP IH].
  - cbn. repeat split.
    + intros x [<-|[]]. lia.
    + apply List.NoDup_cons; [intros []|apply List.NoDup_nil].
    + intros x [].
  - destruct IH as (E & Hge & Hnd & Hfull).
    assert (Hlen : (100 <= length (page_of server s))%nat).
    { unfold stops in Hstop. apply orb_false_iff in Hstop as [Hs _].
      now apply Nat.ltb_ge in Hs. }
    split; [|split; [|split]].
    + cbn [List.map offsets_from]. now rewrite <- E.
    + intros x [<-|Hx]; [lia|]. specialize (Hge _ Hx). lia.
    + apply List.NoDup_cons; [|exact Hnd]. intros Hin. specialize (Hge _ Hin). lia.
    + intros x Hx. destruct starts as [|y starts]; [inversion HP|].
      cbn [removelast] in Hx. destruct Hx as [<-|Hx]; [exact Hlen|].
      now apply Hfull.
Qed.

(** X19.  The offsets of the pages requested.  In a pagination that returns, the
    offset of each request is the number of entries received before it; no
    page is requested twice; every page but the last holds 100 entries or
    more; and the entries returned are as many as the pages hold together. *)
Theorem pagination_offsets server fuel (all : list CSLItem) (log : list nat) :
  Action.fetchAllParentsCSL server fuel = Done (all, log) ->
  log = offsets_from 0 (List.map (fun s => length (page_of server s)) log)
  /\ List.NoDup log
  /\ (forall s, In s (removelast log) -> (100 <= length (page_of server s))%nat)
  /\ length all = list_sum (List.map (fun s => length (page_of server s)) log).
Proof.
  intros H. unfold Action.fetchAllParentsCSL in H.
  apply fetch_loop_sound in H as (starts & HP & -> & ->). cbn [app].
  destruct (pages_offsets server 0 [] starts HP) as (E & _ & Hnd & Hfull).
  repeat (split; [assumption|]).
  clear. induction starts as [|s starts IH]; [reflexivity|].
  cbn [List.map concat list_sum]. rewrite length_app, IH. reflexivity.
Qed.

Lemma pagination_offsets_witness :
  [0; 100; 200; 300]%nat
  = offsets_from 0
      (List.map (fun s => length (page_of (paged_server (Some (u "340"))) s))
         [0; 100; 200; 300]%nat)
  /\ List.NoDup [0; 100; 200; 300]%nat
  /\ (forall s, In s (removelast [0; 100; 200; 300]%nat) ->
      (100 <= length (page_of (paged_server (Some (u "340"))) s))%nat)
  /\ length (repeat entry0 340)
     = list_sum (List.map (fun s => length (page_of (paged_server (Some (u "340"))) s))
                   [0; 100; 200; 300]%nat).
Proof.
  apply (pagination_offsets (paged_server (Some (u "340"))) 4).
  vm_compute. reflexivity.
Defined.

(** ** The requests of the action *)

Lemma forall_bind {A B : Type} (P : event -> Prop) (m : io A) (f : A -> io B) :
  List.Forall P (fst m) -> (forall a, List.Forall P (fst (f a))) ->
  List.Forall P (fst (bind m f)).
Proof.
  intros Hm Hf. destruct m as [tr [a|e|c|]]; cbn [bind fst] in *; try exact Hm.
  specialize (Hf a). destruct (f a) as [tr' r]. cbn [fst] in *.
  apply List.Forall_app. now split.
Qed.

Section Requests.

Variable p : platform.
Variables B K : jsstring.

#[local] Arguments u : simpl never.
#[local] Arguments number_to_string : simpl never.

Lemma authorised_fetchJSON path :
  List.Forall (authorised B K) (fst (ActionIO.fetchJSON p (B ++ path) K)).
Proof.
  rewrite fetchJSON_cases.
  assert (H : authorised B K (Fetch (B ++ path) (json_headers K))).
  { split; [now exists path|]. unfold json_headers. cbn [In]. auto. }
  destruct (fetch p (B ++ path) (json_headers K)) as [res|e];
    [destruct (res_ok res); [destruct (res_json res)|]|];
    cbn [fst]; (constructor; [exact H|constructor]).
Qed.

Lemma authorised_fetchText path :
  List.Forall (authorised B K) (fst (ActionIO.fetchText p (B ++ path) K)).
Proof.
  rewrite fetchText_cases.
  assert (H : authorised B K (Fetch (B ++ path) (text_headers K))).
  { split; [now exists path|]. unfold text_headers. cbn [In]. auto. }
  destruct (fetch p (B ++ path) (text_headers K)) as [res|e];
    [destruct (res_ok res); [destruct (res_text res)|]|];
    cbn [fst]; (constructor; [exact H|constructor]).
Qed.

Lemma authorised_fetch_loop C : forall fuel start all,
  List.Forall (authorised B K) (fst (ActionIO.fetch_loop p B C K fuel start all)).
Proof.
  induction fuel as [|fuel IH]; intros start all; [constructor|].
  cbn [ActionIO.fetch_loop]. rewrite <- !app_assoc.
  apply forall_bind; [apply authorised_fetchJSON|].
  intros [body headers].
  apply forall_bind; [constructor; [exact I|constructor]|]. intros _.
  destruct (_ || _); [constructor|apply IH].
Qed.

Lemma authorised_bib_loop keys : forall fuel i bib,
  List.Forall (authorised B K) (fst (ActionIO.bib_loop p B K keys fuel i bib)).
Proof.
  induction fuel as [|fuel IH]; intros i bib; cbn [ActionIO.bib_loop].
  - destruct (i <? length keys)%nat; constructor.
  - destruct (i <? length keys)%nat; [|constructor].
    apply forall_bind; [|intros part; apply IH].
    unfold ActionIO.fetchBibForKeys.
    apply forall_bind; [apply authorised_fetchText|]. intros r. constructor.
Qed.

End Requests.

(** X20.  Every request of the action goes to the library with the key: whatever
    the platform answers and however the run ends, each request is made to
    an address that starts with [https://api.zotero.org/users/<library-id>]
    ([groups] instead of [users] exactly when the input [is-group] is
    [true]) and carries the headers [Authorization: Bearer <api-key>] and
    [Zotero-API-Version: 3]. *)
Theorem every_request_is_authorised p getInput fuel k l g :
  getInput (u "api-key") true = Fulfilled k ->
  getInput (u "library-id") true = Fulfilled l ->
  getInput (u "is-group") false = Fulfilled g ->
  List.Forall (authorised (base_url g l) k) (fst (ActionIO.run p getInput fuel))
  /\ base_url g l
     = u "https://api.zotero.org/"
       ++ (if jsstring_eqb g (u "true") then u "groups" else u "users") ++ u "/" ++ l.
Proof.
  intros Hk Hl Hg. split.
  - rewrite run_inputs, Hk, Hl, Hg.
    destruct (getInput (u "coll-key") true) as [c|e];
      [|constructor; [exact I|constructor]].
    destruct (getInput (u "out-bib-path") false) as [o|e];
      [|constructor; [exact I|constructor]].
    assert (H : List.Forall (authorised (base_url g l) k)
                  (fst (action_calls p k l c g o fuel))).
    { unfold action_calls. apply forall_bind; [apply authorised_fetch_loop|].
      intros items. apply forall_bind.
      { destruct (_ =? _)%nat; [constructor; [exact I|constructor]|constructor]. }
      intros _. apply forall_bind; [apply authorised_bib_loop|]. intros bib.
      rewrite write_calls_cases.
      destruct (mkdir p _) as [[]|e]; [destruct (writeFile p _ _) as [[]|e]|];
        cbn [fst]; repeat (constructor; [exact I|]); constructor. }
    destruct (action_calls p k l c g o fuel) as [tr [[]|e|code|]]; cbn [catch fst emit] in *;
      try exact H.
    apply List.Forall_app. split; [exact H|constructor; [exact I|constructor]].
  - unfold base_url, or_text. destruct g as [|x g']; [reflexivity|]. reflexivity.
Qed.

Lemma every_request_is_authorised_witness :
  List.Forall (authorised (base_url (u "true") (u "42")) (u "secret"))
    (fst (ActionIO.run scenario_platform scenario_inputs 1))
  /\ base_url (u "true") (u "42")
     = u "https://api.zotero.org/"
       ++ (if jsstring_eqb (u "true") (u "true") then u "groups" else u "users")
       ++ u "/" ++ u "42".
Proof.
  apply (every_request_is_authorised scenario_platform scenario_inputs 1
           (u "secret") (u "42") (u "true")); reflexivity.
Defined.

(** ** The message of the end of the script *)






